(** * py-om: a shallow embedding of the relational-mapping engine

    The development follows the three subsystems of the repository:
    - [om/table.py]: expression trees ([Expr] and its subclasses), columns,
      the query context ([ExecContext]) and the update plan ([UpdatePlan]);
    - [om/db/base.py]: the connection pool ([ConnectionPool]) and the
      [Database] facade;
    - [om/tracking.py]: the dirty-field ledger ([TrackingHolder]).

    Python objects with identity (connections, entity instances, mapper
    classes) are natural numbers indexing a store; dictionaries and sets are
    [gmap] and [gset]; raising is a result in a sum type. *)

From stdpp Require Import gmap strings list fin_maps pretty sorting.
From Stdlib Require Import ZArith Lia.

Set Warnings "-register-all,-clear-no-such-hyp".

Open Scope string_scope.
Open Scope list_scope.
Open Scope stdpp_scope.
Open Scope Z_scope.

(** ** Exceptions and results *)

(** Modelled from the spec: [ImproperlyConfig] stands for the class of that
    name in [om/exceptions.py], which is not among the sources; the
    specification calls it the configuration error. The other constructors
    are the built-in exception classes that the modelled code raises or lets
    through, [om.db.base.OperationalError], and [DriverError] for the
    driver's own operational error class. *)
Inductive exn : Type :=
| KeyError
| IndexError
| TypeError
| ValueError
| AttributeError
| RuntimeError
| ImproperlyConfig
| OperationalError
| DriverError.

#[global] Instance exn_eq_dec : EqDecision exn.
Proof. solve_decision. Defined.

Definition result (A : Type) : Type := (exn + A)%type.

Definition ok {A} (a : A) : result A := inr a.
Definition raise {A} (e : exn) : result A := inl e.

Definition rbind {A B} (m : result A) (k : A → result B) : result B :=
  match m with
  | inl e => inl e
  | inr a => k a
  end.

Notation "'try!' x := m 'in' k" := (rbind m (fun x => k))
  (at level 10, x pattern, m at level 100, k at level 200).

(** ** Values, columns *)

(** Identity of a [TableMapper] subclass and of an entity class. *)
Abbreviation TableMapper := nat (only parsing).
Abbreviation Entity := nat (only parsing).

(** [Column]: [db_column] and [table_mapper] are [None] until
    [resolve_meta] binds them. *)
Record Column : Type := mkColumn {
  db_column : option string;
  table_mapper : option TableMapper;
}.

#[global] Instance Column_eq_dec : EqDecision Column.
Proof. solve_decision. Defined.

(** Python values that reach the expression engine and the ledger.
    [VZero] is [tracking.ZERO_VALUE], the "unset" sentinel. *)
Inductive value : Type :=
| VNone
| VZero
| VInt (z : Z)
| VStr (s : string)
| VTuple (vs : list value)
| VCol (c : Column).

(** [v[i]] for the two indices the code uses. *)
Definition value_getitem (v : value) (i : nat) : result value :=
  match v with
  | VTuple vs =>
      match vs !! i with
      | Some x => ok x
      | None => raise IndexError
      end
  | VStr s =>
      match String.get i s with
      | Some c => ok (VStr (String c EmptyString))
      | None => raise IndexError
      end
  | _ => raise TypeError
  end.

(** [sep.join(l)] *)
Fixpoint join (sep : string) (l : list string) : string :=
  match l with
  | [] => ""
  | x :: rest =>
      match rest with
      | [] => x
      | _ => x +:+ sep +:+ join sep rest
      end
  end.

(** ** Expressions ([om/table.py], [Expr] and subclasses) *)

(** The class of an expression node selects [_generating_sql]. *)
Inductive ExprClass : Type :=
| CExpr
| CBetweenExpr
| CNullExpr
| CNotNullExpr.

Inductive Expr : Type :=
| MkExpr (cls : ExprClass) (column : Column) (op : string) (val : value)
         (next_expr : list (string * Expr)).

Definition expr_cls (e : Expr) : ExprClass :=
  match e with MkExpr c _ _ _ _ => c end.
Definition expr_column (e : Expr) : Column :=
  match e with MkExpr _ c _ _ _ => c end.
Definition expr_op (e : Expr) : string :=
  match e with MkExpr _ _ o _ _ => o end.
Definition expr_value (e : Expr) : value :=
  match e with MkExpr _ _ _ v _ => v end.
Definition expr_next (e : Expr) : list (string * Expr) :=
  match e with MkExpr _ _ _ _ n => n end.

(** [Expr.__or__] and [Expr.__and__]: append to [next_expr], return [self].
    The result is the object [self] after the append; the model is of
    trees, where [other] is neither [self] nor a node that reaches it. *)
Definition Expr___or__ (self other : Expr) : Expr :=
  match self with
  | MkExpr c col o v n => MkExpr c col o v (n ++ [("OR", other)])
  end.

Definition Expr___and__ (self other : Expr) : Expr :=
  match self with
  | MkExpr c col o v n => MkExpr c col o v (n ++ [("AND", other)])
  end.

(** [_generating_sql] of [Expr], [BetweenExpr], [NullExpr], [NotNullExpr].
    [args] is the list the caller passes in and the method appends to. *)
Definition _generating_sql (col_name_fn : Column → result string)
    (cls : ExprClass) (column : Column) (op : string) (val : value)
    (args : list value) : result (string * list value) :=
  match cls with
  | CExpr =>
      try! col_name := col_name_fn column in
      ok (col_name +:+ " " +:+ op +:+ " %s", args ++ [val])
  | CBetweenExpr =>
      try! v0 := value_getitem val 0 in
      try! v1 := value_getitem val 1 in
      try! col_name := col_name_fn column in
      ok (join " " [col_name; "BETWEEN"; "%s"; "AND"; "%s"], (args ++ [v0]) ++ [v1])
  | CNullExpr =>
      try! col_name := col_name_fn column in
      ok (join " " [col_name; "IS NULL"], args)
  | CNotNullExpr =>
      try! col_name := col_name_fn column in
      ok (join " " [col_name; "IS NOT NULL"], args)
  end.

(** [Expr.building]: the loop over [self.next_expr] is the inner [fix]. *)
Fixpoint building (col_name_fn : Column → result string) (self : Expr)
    (args : list value) {struct self} : result (string * list value) :=
  match self with
  | MkExpr cls column op val next_expr =>
      try! (self_sql, args1) := _generating_sql col_name_fn cls column op val args in
      try! (sql_s, args2) :=
        (fix loop (l : list (string * Expr)) (sql_s : list string)
             (args : list value) {struct l} : result (list string * list value) :=
           match l with
           | [] => ok (sql_s, args)
           | (tp, expr) :: rest =>
               try! (s, args') := building col_name_fn expr args in
               loop rest (sql_s ++ [tp +:+ " (" +:+ s +:+ ")"]) args'
           end) next_expr [self_sql] args1 in
      ok (join " " sql_s, args2)
  end.

(** The constructors of [om/table.py]. *)
Definition eq_expr (column : Column) (v : value) : Expr := MkExpr CExpr column "=" v [].
Definition gt_expr (column : Column) (v : value) : Expr := MkExpr CExpr column ">" v [].
Definition ge_expr (column : Column) (v : value) : Expr := MkExpr CExpr column ">=" v [].
Definition lt_expr (column : Column) (v : value) : Expr := MkExpr CExpr column "<" v [].
Definition le_expr (column : Column) (v : value) : Expr := MkExpr CExpr column "<=" v [].
Definition ne_expr (column : Column) (v : value) : Expr := MkExpr CExpr column "<>" v [].
Definition like_expr (column : Column) (v : value) : Expr := MkExpr CExpr column "LIKE" v [].
Definition in_expr (column : Column) (v : value) : Expr := MkExpr CExpr column "IN" v [].
Definition between_expr (column : Column) (value_a value_b : value) : Expr :=
  MkExpr CBetweenExpr column "" (VTuple [value_a; value_b]) [].
Definition is_null_expr (column : Column) : Expr := MkExpr CNullExpr column "" VNone [].
Definition is_not_null_expr (column : Column) : Expr := MkExpr CNotNullExpr column "" VNone [].

(** The operators of [Column]. *)
Definition Column___gt__ (self : Column) (other : value) : Expr := gt_expr self other.
Definition Column___ge__ (self : Column) (other : value) : Expr := ge_expr self other.
Definition Column___le__ (self : Column) (other : value) : Expr := le_expr self other.
Definition Column___lt__ (self : Column) (other : value) : Expr := lt_expr self other.

Definition Column___eq__ (self : Column) (other : value) : Expr :=
  match other with
  | VNone => is_null_expr self
  | _ => eq_expr self other
  end.

Definition Column___ne__ (self : Column) (other : value) : Expr :=
  match other with
  | VNone => is_not_null_expr self
  | _ => ne_expr self other
  end.

Definition Column___lshift__ (self : Column) (other : value) : Expr := in_expr self other.
Definition Column___mul__ (self : Column) (other : value) : Expr := in_expr self other.

Definition Column___rshift__ (self : Column) (other : value) : result Expr :=
  match other with
  | VTuple [a; b] => ok (between_expr self a b)
  | _ => raise ValueError
  end.

Definition Column___neg__ (self : Column) : Expr := is_null_expr self.
Definition Column___pos__ (self : Column) : Expr := is_not_null_expr self.

(** ** The connection pool ([om/db/base.py]) *)

(** A [DriverConnection] object. [__freed__] is the attribute named by
    [ConnectionPool._FREE_TOKEN]; it is absent ([None]) until the pool sets
    it. The time stamps of the object play no part in the pool. *)
Record DriverConnection : Type := mkDriverConnection {
  _closed : bool;
  __freed__ : option bool;
}.

Definition new_DriverConnection : DriverConnection :=
  {| _closed := false; __freed__ := None |}.

(** The pool object. [_connections] is the heap of [(timestamp, connection)]
    pairs, [_no_exhausted] the flag of the [Event]. *)
Record ConnectionPool : Type := mkConnectionPool {
  _connections : list (Z * nat);
  _maximum : Z;
  _cnt : Z;
  _no_exhausted : bool;
}.

(** The pool together with the connection objects it can reach. A
    connection that is not in [conns] is an object nobody has written to. *)
Record PoolWorld : Type := mkPoolWorld {
  pool : ConnectionPool;
  conns : gmap nat DriverConnection;
}.

Definition ConnectionPool___init__ (maximum : Z) : PoolWorld :=
  {| pool := {| _connections := []; _maximum := maximum; _cnt := 0;
                _no_exhausted := false |};
     conns := ∅ |}.

Definition cached_size (w : PoolWorld) : nat := length (_connections (pool w)).
Definition allocated_cnt (w : PoolWorld) : Z := _cnt (pool w).

Definition get_con (w : PoolWorld) (con : nat) : DriverConnection :=
  default new_DriverConnection (conns w !! con).

Definition set_con (con : nat) (c : DriverConnection) (w : PoolWorld) : PoolWorld :=
  {| pool := pool w; conns := <[con := c]> (conns w) |}.

Definition set_connections (l : list (Z * nat)) (w : PoolWorld) : PoolWorld :=
  {| pool := {| _connections := l; _maximum := _maximum (pool w);
                _cnt := _cnt (pool w); _no_exhausted := _no_exhausted (pool w) |};
     conns := conns w |}.

Definition set_cnt (n : Z) (w : PoolWorld) : PoolWorld :=
  {| pool := {| _connections := _connections (pool w); _maximum := _maximum (pool w);
                _cnt := n; _no_exhausted := _no_exhausted (pool w) |};
     conns := conns w |}.

Definition set_no_exhausted (b : bool) (w : PoolWorld) : PoolWorld :=
  {| pool := {| _connections := _connections (pool w); _maximum := _maximum (pool w);
                _cnt := _cnt (pool w); _no_exhausted := b |};
     conns := conns w |}.

(** [heapq] on pairs: the heap is kept as the ascending sequence of its
    items, so that [heappop] removes the smallest pair, as [heapq] does.
    Pairs with equal time stamps are ordered by the connection. *)
Definition item_le (a b : Z * nat) : bool :=
  (a.1 <? b.1) || ((a.1 =? b.1) && (a.2 <=? b.2)%nat).

Fixpoint heappush (h : list (Z * nat)) (x : Z * nat) : list (Z * nat) :=
  match h with
  | [] => [x]
  | y :: rest => if item_le x y then x :: y :: rest else y :: heappush rest x
  end.

Definition heappop (h : list (Z * nat)) : result ((Z * nat) * list (Z * nat)) :=
  match h with
  | [] => raise IndexError
  | x :: rest => ok (x, rest)
  end.

(** [_new_connection]: [open_err] is what [driver.open] does on this call,
    [None] when it returns a connection, which is then a new object. *)
Definition _new_connection (open_err : option exn) (w : PoolWorld)
  : result nat * PoolWorld :=
  match open_err with
  | Some e => (raise e, w)
  | None =>
      let con := fresh (dom (conns w)) in
      (ok con, set_cnt (_cnt (pool w) + 1) (set_con con new_DriverConnection w))
  end.

Definition _mark_free (con : nat) (w : PoolWorld) : PoolWorld :=
  set_con con {| _closed := _closed (get_con w con); __freed__ := Some true |} w.

Definition _mark_un_free (con : nat) (w : PoolWorld) : PoolWorld :=
  set_con con {| _closed := _closed (get_con w con); __freed__ := Some false |} w.

Definition _is_freed (con : nat) (w : PoolWorld) : bool :=
  match __freed__ (get_con w con) with
  | Some true => true
  | _ => false
  end.

(** One pass through the body of [while True] in [allocate]. [con] is
    [None] whenever the body is entered, so the leading [if con] never
    fires. [Block] is [Event.wait(None)] on a flag that is not set: with no
    other caller to set it, the call does not come back. *)
Inductive loop_step (A : Type) : Type :=
| Return (r : result A)
| Continue
| Block.
Arguments Return {A} r.
Arguments Continue {A}.
Arguments Block {A}.

Definition allocate_iter (open_err : option exn) (blocking : option Z)
    (w : PoolWorld) : loop_step nat * PoolWorld :=
  match heappop (_connections (pool w)) with
  | inr (item, rest) =>
      (Return (ok item.2), _mark_un_free item.2 (set_connections rest w))
  | inl _ =>
      if bool_decide (_maximum (pool w) ≠ 0) && (_cnt (pool w) <=? _maximum (pool w))
      then
        match _new_connection open_err w with
        | (inl e, w1) => (Return (raise e), w1)
        | (inr con, w1) => (Return (ok con), _mark_un_free con w1)
        end
      else
        let wait :=
          if _no_exhausted (pool w) then (Continue, w)
          else match blocking with
               | None => (Block, w)
               | Some _ => (Return (raise RuntimeError), w)
               end in
        match blocking with
        | Some b => if b <=? 0 then (Return (raise RuntimeError), w) else wait
        | None => wait
        end
  end.

(** [allocate]: the loop, with [fuel] bounding the number of passes; the
    answer is [None] when the call has not returned. *)
Fixpoint allocate (fuel : nat) (open_err : option exn) (blocking : option Z)
    (w : PoolWorld) : option (result nat) * PoolWorld :=
  match fuel with
  | O => (None, w)
  | S fuel' =>
      match allocate_iter open_err blocking w with
      | (Return r, w1) => (Some r, w1)
      | (Continue, w1) => allocate fuel' open_err blocking w1
      | (Block, w1) => (None, w1)
      end
  end.

(** [DriverConnection.close]; the driver's own [close] is taken to return. *)
Definition DriverConnection_close (con : nat) (w : PoolWorld) : PoolWorld :=
  if _closed (get_con w con) then w
  else set_con con {| _closed := true; __freed__ := __freed__ (get_con w con) |} w.

(** [ConnectionPool.close] *)
Definition close (con : nat) (w : PoolWorld) : PoolWorld :=
  let w1 := DriverConnection_close con w in
  set_cnt (_cnt (pool w1) - 1) w1.

Definition is_OperationalError (err : option exn) : bool :=
  bool_decide (err = Some OperationalError).

(** [ConnectionPool.free]; [ts] is the reading of [time.time()]. *)
Definition free (con : nat) (err : option exn) (ts : Z) (w : PoolWorld) : PoolWorld :=
  if _is_freed con w then w
  else
    let w1 := _mark_free con w in
    let w2 :=
      if is_OperationalError err then close con w1
      else set_connections (heappush (_connections (pool w1)) (ts, con)) w1 in
    set_no_exhausted true w2.

(** A caller's view of the pool: a sequence of [allocate] and [free] calls. *)
Inductive pool_call : Type :=
| Allocate (fuel : nat) (open_err : option exn) (blocking : option Z)
| Free (con : nat) (err : option exn) (ts : Z).

Definition pool_step (c : pool_call) (w : PoolWorld)
  : option (result nat) * PoolWorld :=
  match c with
  | Allocate fuel open_err blocking => allocate fuel open_err blocking w
  | Free con err ts => (None, free con err ts w)
  end.

(** The world after the calls, and the connections the calls returned. *)
Fixpoint run_calls (cs : list pool_call) (w : PoolWorld) : list nat * PoolWorld :=
  match cs with
  | [] => ([], w)
  | c :: cs' =>
      let '(r, w1) := pool_step c w in
      let '(rs, w2) := run_calls cs' w1 in
      (match r with Some (inr con) => con :: rs | _ => rs end, w2)
  end.

(** ** Dirty tracking ([om/tracking.py]) *)

(** A [Field] descriptor; its [name] is the key under which the manager
    holds it. *)
Record Field : Type := mkField {
  alias : option string;
  unwatch : bool;
}.

Record TrackingHolder : Type := mkTrackingHolder {
  _dirty : gset string;
  _values_map : gmap string value;
}.

(** [TrackingManager]: [_holders] is keyed by [id(instance)]. *)
Record TrackingManager : Type := mkTrackingManager {
  _fields : gmap string Field;
  _holders : gmap nat TrackingHolder;
}.

Definition TrackingHolder___init__ : TrackingHolder :=
  {| _dirty := ∅; _values_map := ∅ |}.

(** [TrackingHolder.reset] *)
Definition reset (data_dict : option (gmap string value)) (h : TrackingHolder)
  : TrackingHolder :=
  {| _dirty := ∅;
     _values_map :=
       match data_dict with
       | Some d => if bool_decide (d = ∅) then _values_map h else d ∪ _values_map h
       | None => _values_map h
       end |}.

(** [TrackingHolder.update]; [fields] is [self._manager.fields]. *)
Definition update (fields : gmap string Field) (name : string) (v : value)
    (h : TrackingHolder) : result TrackingHolder :=
  match fields !! name with
  | None => raise ValueError
  | Some f =>
      ok {| _dirty := if unwatch f then _dirty h else {[name]} ∪ _dirty h;
            _values_map := <[name := v]> (_values_map h) |}
  end.

(** [TrackingHolder.dirty_fields_map]: [self._values_map[k]] for each dirty
    [k]. *)
Definition dirty_fields_map (h : TrackingHolder) : result (gmap string value) :=
  foldr (λ k acc,
           try! m := acc in
           match _values_map h !! k with
           | Some v => ok (<[k := v]> m)
           | None => raise KeyError
           end)
        (ok ∅) (elements (_dirty h)).

(** [TrackingHolder.get] *)
Definition TrackingHolder_get (f_name : string) (h : TrackingHolder) : value :=
  default VZero (_values_map h !! f_name).

(** An entity instance: the identity of the object and its class. *)
Record Instance : Type := mkInstance {
  inst_id : nat;
  inst_class : Entity;
}.

(** The objects the plans work on: [cls.__tracking__] for every tracked
    entity class and the [__dict__] of every instance. *)
Record Store : Type := mkStore {
  tracking : gmap nat TrackingManager;
  inst_dict : gmap nat (gmap string value);
}.

(** ** Mappers and the query context ([om/table.py]) *)

Record Meta : Type := mkMeta {
  db_table : option string;
  __cols__ : gmap string Column;
  __managed_set__ : gset nat;
  __identifier_set__ : gset string;
}.

(** What is fixed once the classes are declared: the [Meta] of each mapper
    class and, for each entity class, the keys of the field dictionary that
    [EntityMapper._get_or_create] builds from it, and whether the class can
    be instantiated without arguments. *)
Record ClassEnv : Type := mkClassEnv {
  get_meta : TableMapper → Meta;
  class_fields : Entity → list string;
  init_without_arguments : Entity → bool;
}.

Definition get_column (m : Meta) (name : string) : option Column := __cols__ m !! name.
Definition get_identifier_set (m : Meta) : gset string := __identifier_set__ m.

(** [EntityMapper.get_entity_info(...).field_names()]; an entity class
    without fields is refused. *)
Definition get_entity_info (env : ClassEnv) (entity : Entity) : result (list string) :=
  match class_fields env entity with
  | [] => raise ImproperlyConfig
  | fs => ok fs
  end.

(** ["%s" % x] for an attribute that may still be [None]. *)
Definition str_of (o : option string) : string := default "None" o.

(** The [Database] object seen from the plans: the dialect class methods and
    the driver's exception class [self.OperationalError]. *)
Record Database : Type := mkDatabase {
  format_column : string → string → string;
  format_table_name : string → string;
  quote : string → string;
  db_OperationalError : option exn;
}.

Definition Database_base : Database :=
  {| format_column := λ t_alias col_name, t_alias +:+ "." +:+ col_name;
     format_table_name := λ t_name, t_name;
     quote := λ name, "`" +:+ name +:+ "`";
     db_OperationalError := None |}.

Record JoinSpec : Type := mkJoinSpec {
  tb : TableMapper;
  join_tp : string;
  on : Column * value;
}.

Definition LEFT_JOIN : string := "LEFT JOIN".
Definition RIGHT_JOIN : string := "RIGHT JOIN".
Definition INNER_JOIN : string := "INNER JOIN".

Record ExecContext : Type := mkExecContext {
  db_spec : Database;
  ctx_table_mapper : TableMapper;
  joins : list JoinSpec;
  mappers : gmap nat string;
  alias_map : gmap string nat;
  where_expr : option Expr;
}.

(** [ExecContext._add_table_mapper] *)
Definition _add_table_mapper (mapper : TableMapper) (self : ExecContext) : ExecContext :=
  match mappers self !! mapper with
  | Some _ => self
  | None =>
      let n := (size (mappers self) + 1)%nat in
      let alias := "t" +:+ pretty n in
      {| db_spec := db_spec self; ctx_table_mapper := ctx_table_mapper self;
         joins := joins self;
         mappers := <[mapper := alias]> (mappers self);
         alias_map := <[alias := mapper]> (alias_map self);
         where_expr := where_expr self |}
  end.

Definition ExecContext___init__ (table_mapper : TableMapper) (db : Database) : ExecContext :=
  _add_table_mapper table_mapper
    {| db_spec := db; ctx_table_mapper := table_mapper; joins := [];
       mappers := ∅; alias_map := ∅; where_expr := None |}.

(** [ExecContext._join_ctx] *)
Definition _join_ctx (other_table : TableMapper) (on : Column * value)
    (j_type : string) (self : ExecContext) : ExecContext :=
  _add_table_mapper other_table
    {| db_spec := db_spec self; ctx_table_mapper := ctx_table_mapper self;
       joins := joins self ++ [{| tb := other_table; join_tp := j_type; on := on |}];
       mappers := mappers self; alias_map := alias_map self;
       where_expr := where_expr self |}.

(** [left_join], [join], [right_join]: [on] defaults to [None], and
    [on.column] then fails. *)
Definition join_with (j_type : string) (other_table : TableMapper) (on : option Expr)
    (self : ExecContext) : result ExecContext :=
  match on with
  | None => raise AttributeError
  | Some e => ok (_join_ctx other_table (expr_column e, expr_value e) j_type self)
  end.

Definition left_join := join_with LEFT_JOIN.
Definition inner_join := join_with INNER_JOIN.
Definition right_join := join_with RIGHT_JOIN.

(** [ExecContext.where] *)
Definition ExecContext_where (expr : Expr) (self : ExecContext) : ExecContext :=
  {| db_spec := db_spec self; ctx_table_mapper := ctx_table_mapper self;
     joins := joins self; mappers := mappers self; alias_map := alias_map self;
     where_expr := Some expr |}.

(** [ExecContext.get_col_name]: [self.mappers[column.table_mapper]] is a
    plain dictionary subscript. *)
Definition get_col_name (self : ExecContext) (column : Column) : result string :=
  match table_mapper column with
  | None => raise KeyError
  | Some m =>
      match mappers self !! m with
      | None => raise KeyError
      | Some alias => ok (format_column (db_spec self) alias (str_of (db_column column)))
      end
  end.

(** [ExecContext.where_sql] *)
Definition where_sql (self : ExecContext) : result (option string * list value) :=
  match where_expr self with
  | None => ok (None, [])
  | Some e =>
      try! (sql, args) := building (get_col_name self) e [] in
      ok (Some sql, args)
  end.

(** [ExecContext.resolve_mapper]: the first mapper of [self.mappers], in the
    order the dictionary yields them, that manages the entity. *)
Definition resolve_mapper (env : ClassEnv) (self : ExecContext) (entity : Entity)
  : option TableMapper :=
  (λ r : nat * (nat * string), r.2.1) <$>
    list_find (λ p : nat * string, entity ∈ __managed_set__ (get_meta env p.1))
              (map_to_list (mappers self)).

(** The alias of a mapper, as the subscript [self.mappers[...]]. *)
Definition mappers_getitem (self : ExecContext) (m : option TableMapper) : result string :=
  match m with
  | None => raise KeyError
  | Some m => match mappers self !! m with
              | None => raise KeyError
              | Some a => ok a
              end
  end.

(** [ExecContext.get_joins_sql] *)
Definition get_joins_sql (env : ClassEnv) (self : ExecContext) : result string :=
  let db := db_spec self in
  let table_name := format_table_name db (str_of (db_table (get_meta env (ctx_table_mapper self)))) in
  try! tb_alias := mappers_getitem self (Some (ctx_table_mapper self)) in
  try! join_s :=
    foldl (λ acc joinSpec,
             try! join_s := acc in
             try! tb_alias := mappers_getitem self (Some (tb joinSpec)) in
             let table_name := format_table_name db (str_of (db_table (get_meta env (tb joinSpec)))) in
             match on joinSpec with
             | (col_a, VCol col_b) =>
                 try! alias_b := mappers_getitem self (table_mapper col_b) in
                 try! alias_a := mappers_getitem self (table_mapper col_a) in
                 let col_name_b := format_column db alias_b (str_of (db_column col_b)) in
                 let col_name_a := format_column db alias_a (str_of (db_column col_a)) in
                 ok (join_s ++ [join_tp joinSpec +:+ " " +:+ table_name +:+ " AS " +:+ tb_alias
                                +:+ " ON " +:+ col_name_a +:+ " = " +:+ col_name_b])
             | _ => raise AttributeError
             end)
          (ok [table_name +:+ " AS " +:+ format_table_name db tb_alias])
          (joins self) in
  ok (join " " join_s).

(** ** The world of a plan: pool, tracked objects, statements sent *)

(** The driver behind the pool: what [driver.open] and [con.cursor()] do
    ([None] when they return) and what [cursor.execute] answers (the row
    count) or raises for a statement. *)
Record Driver : Type := mkDriver {
  open_err : option exn;
  cursor_err : option exn;
  cursor_execute : string → list value → result Z;
}.

Record World : Type := mkWorld {
  pw : PoolWorld;
  store : Store;
  issued : list (string * list value);
  clock : Z;
}.

Definition set_pw (p : PoolWorld) (w : World) : World :=
  {| pw := p; store := store w; issued := issued w; clock := clock w |}.
Definition set_store (s : Store) (w : World) : World :=
  {| pw := pw w; store := s; issued := issued w; clock := clock w |}.

(** Code that reads and writes the world and may raise; the world survives
    an exception. *)
Definition M (A : Type) : Type := World → result A * World.

Definition mret {A} (a : A) : M A := λ w, (ok a, w).
Definition mraise {A} (e : exn) : M A := λ w, (raise e, w).
Definition lift {A} (r : result A) : M A := λ w, (r, w).
Definition mbind {A B} (m : M A) (k : A → M B) : M B :=
  λ w, match m w with
       | (inl e, w1) => (inl e, w1)
       | (inr a, w1) => k a w1
       end.

Notation "'do!' x := m 'in' k" := (mbind m (fun x => k))
  (at level 10, x pattern, m at level 100, k at level 200).

(** [for x in l: acc = body(x, acc)] *)
Fixpoint for_each {A S} (l : list A) (body : A → S → M S) (acc : S) : M S :=
  match l with
  | [] => mret acc
  | x :: rest => do! acc1 := body x acc in for_each rest body acc1
  end.

(** [Database._execute]: the statement reaches the driver; the driver's
    operational error is wrapped. *)
Definition Database__execute (db : Database) (drv : Driver) (query : string)
    (parameters : list value) : M Z :=
  λ w,
    let w1 := {| pw := pw w; store := store w;
                 issued := issued w ++ [(query, parameters)]; clock := clock w |} in
    match cursor_execute drv query parameters with
    | inl e =>
        if bool_decide (db_OperationalError db = Some e)
        then (raise OperationalError, w1) else (raise e, w1)
    | inr n => (ok n, w1)
    end.

(** [Database.execute_rowcount]. [_allocate] asks the pool with
    [blocking=0], and [_is_ok] of the base class accepts every connection;
    such a call to [allocate] comes back within one pass of its loop.
    [con.cursor()] stands before the [try]: when it raises, the connection
    is not given back. The [finally] block gives the connection back with
    the error observed. *)
Definition execute_rowcount (db : Database) (drv : Driver) (query : string)
    (parameters : list value) : M Z :=
  λ w,
    match allocate 1 (open_err drv) (Some 0) (pw w) with
    | (None, p1) => (raise RuntimeError, set_pw p1 w)
    | (Some (inl e), p1) => (raise e, set_pw p1 w)
    | (Some (inr con), p1) =>
        match cursor_err drv with
        | Some e => (raise e, set_pw p1 w)
        | None =>
            let '(r, w2) := Database__execute db drv query parameters (set_pw p1 w) in
            let err := match r with inl e => Some e | inr _ => None end in
            (r, {| pw := free con err (clock w2) (pw w2); store := store w2;
                   issued := issued w2; clock := clock w2 + 1 |})
        end
    end.

(** *** Instances and their holders *)

Definition manager_of (s : Store) (cls : Entity) : option TrackingManager :=
  tracking s !! cls.

(** The holder of an instance as [TrackingManager.__getitem__] would hand it
    out: the stored one, or a new empty one. *)
Definition holder_of (s : Store) (instance : Instance) : TrackingHolder :=
  match manager_of s (inst_class instance) with
  | Some mgr => default TrackingHolder___init__ (_holders mgr !! inst_id instance)
  | None => TrackingHolder___init__
  end.

Definition set_holder (instance : Instance) (h : TrackingHolder) (s : Store) : Store :=
  match manager_of s (inst_class instance) with
  | Some mgr =>
      {| tracking := <[inst_class instance :=
                         {| _fields := _fields mgr;
                            _holders := <[inst_id instance := h]> (_holders mgr) |}]>
                       (tracking s);
         inst_dict := inst_dict s |}
  | None => s
  end.

(** [tracking.get_holder]: [None] for an instance of an untracked class;
    otherwise the holder, which [__getitem__] creates on first use. The
    holder is referred to by its instance. *)
Definition get_holder (instance : Instance) : M (option Instance) :=
  λ w,
    match manager_of (store w) (inst_class instance) with
    | None => (ok None, w)
    | Some mgr =>
        match _holders mgr !! inst_id instance with
        | Some _ => (ok (Some instance), w)
        | None =>
            (ok (Some instance),
             set_store (set_holder instance TrackingHolder___init__ (store w)) w)
        end
    end.

(** [holder.reset()] on a holder obtained from [get_holder]. *)
Definition holder_reset (holder : Instance) : M unit :=
  λ w, (ok (), set_store (set_holder holder (reset None (holder_of (store w) holder)) (store w)) w).

(** [holder.dirty_fields_map()] *)
Definition holder_dirty_fields_map (holder : Instance) : M (gmap string value) :=
  λ w, (dirty_fields_map (holder_of (store w) holder), w).

(** [getattr(instance, name)]: through the [Field] descriptor when the class
    has one under that name, else the instance dictionary. *)
Definition getattr (instance : Instance) (name : string) : M value :=
  λ w,
    let plain :=
      match inst_dict (store w) !! inst_id instance ≫= (λ d, d !! name) with
      | Some v => (ok v, w)
      | None => (raise AttributeError, w)
      end in
    match manager_of (store w) (inst_class instance) with
    | Some mgr =>
        match _fields mgr !! name with
        | Some _ =>
            let h := holder_of (store w) instance in
            (ok (TrackingHolder_get name h),
             set_store (set_holder instance h (store w)) w)
        | None => plain
        end
    | None => plain
    end.

(** [setattr(instance, name, v)]: [Field.__set__] when the class has the
    descriptor, else the instance dictionary. *)
Definition setattr (instance : Instance) (name : string) (v : value) : M unit :=
  λ w,
    let plain :=
      (ok (),
       set_store
         {| tracking := tracking (store w);
            inst_dict := <[inst_id instance :=
                             <[name := v]> (default ∅ (inst_dict (store w) !! inst_id instance))]>
                           (inst_dict (store w)) |} w) in
    match manager_of (store w) (inst_class instance) with
    | Some mgr =>
        match _fields mgr !! name with
        | Some _ =>
            match update (_fields mgr) name v (holder_of (store w) instance) with
            | inl e => (raise e, set_store (set_holder instance (holder_of (store w) instance) (store w)) w)
            | inr h => (ok (), set_store (set_holder instance h (store w)) w)
            end
        | None => plain
        end
    | None => plain
    end.

(** [EntityInfo.new_instance]: the [TypeError] of a constructor that wants
    arguments becomes [ImproperlyConfig]. [oid] is the identity the new
    object receives; its dictionary is empty. *)
Definition new_instance (env : ClassEnv) (entity : Entity) (oid : nat) : M Instance :=
  λ w,
    if init_without_arguments env entity
    then (ok {| inst_id := oid; inst_class := entity |},
          set_store {| tracking := tracking (store w);
                       inst_dict := <[oid := ∅]> (inst_dict (store w)) |} w)
    else (raise ImproperlyConfig, w).

(** [QueryIterator._wrap_instance] *)
Definition _wrap_instance (env : ClassEnv) (entity_class : Entity)
    (it : list (string * value)) (oid : nat) : M Instance :=
  do! info := lift (get_entity_info env entity_class) in
  do! instance := new_instance env entity_class oid in
  do! _ := for_each it (λ p _, setattr instance p.1 p.2) () in
  do! holder := get_holder instance in
  match holder with
  | None => mraise AttributeError
  | Some h => do! _ := holder_reset h in mret instance
  end.

(** ** [UpdatePlan] *)

Record UpdatePlan : Type := mkUpdatePlan {
  _ctx : ExecContext;
  _instances : list Instance;
  _affected_cnt : Z;
  _only_dirty : bool;
}.

(** The local lists of [_execute]. *)
Record locals : Type := mkLocals {
  args : list value;
  field_s : list string;
  where_s : list string;
  holders : list Instance;
}.

(** The loop over the field names of one instance. *)
Definition fields_loop (env : ClassEnv) (self : UpdatePlan) (instance : Instance)
    (table_mapper : TableMapper) (dirty : gmap string value)
    (field_names : list string) (acc : list string * list value)
  : M (list string * list value) :=
  for_each field_names
    (λ f_name '(field_s, args),
       match get_column (get_meta env table_mapper) f_name with
       | None => mraise AttributeError
       | Some column =>
           do! col_name := lift (get_col_name (_ctx self) column) in
           let field_s := field_s ++ [col_name +:+ "=%s"] in
           do! v := (if _only_dirty self
                     then match dirty !! f_name with
                          | Some v => mret v
                          | None => mraise KeyError
                          end
                     else getattr instance f_name) in
           match v with
           | VZero => mraise ValueError
           | _ => mret (field_s, args ++ [v])
           end
       end)
    acc.

(** The body of [for instance in self._instances]. [id_can_use.pop()] takes
    the first element the set yields. *)
Definition instance_body (env : ClassEnv) (self : UpdatePlan) (instance : Instance)
    (l : locals) : M locals :=
  do! holder := get_holder instance in
  match holder with
  | None => mraise AttributeError
  | Some holder =>
      let holders := holders l ++ [holder] in
      do! dirty := holder_dirty_fields_map holder in
      if bool_decide (dirty = ∅) && _only_dirty self
      then mret {| args := args l; field_s := field_s l; where_s := where_s l;
                   holders := holders |}
      else
        match resolve_mapper env (_ctx self) (inst_class instance) with
        | None => mraise ImproperlyConfig
        | Some table_mapper =>
            do! info := lift (get_entity_info env (inst_class instance)) in
            let id_names := get_identifier_set (get_meta env table_mapper) in
            let field_names :=
              if _only_dirty self then (map_to_list dirty).*1 else info in
            do! (field_s, args) :=
              fields_loop env self instance table_mapper dirty field_names
                          (field_s l, args l) in
            let id_can_use : gset string := id_names ∩ list_to_set info in
            match elements id_can_use with
            | [] => mret {| args := args; field_s := field_s; where_s := where_s l;
                            holders := holders |}
            | id_chosen :: _ =>
                do! v := getattr instance id_chosen in
                mret {| args := args ++ [v]; field_s := field_s;
                        where_s := where_s l ++ [id_chosen +:+ "=%s"];
                        holders := holders |}
            end
        end
  end.

(** [UpdatePlan._execute]; the plan comes back with its [_affected_cnt]. *)
Definition _execute (env : ClassEnv) (drv : Driver) (self : UpdatePlan) : M UpdatePlan :=
  match _instances self with
  | [] => mraise ImproperlyConfig
  | _ =>
      do! l := for_each (_instances self) (instance_body env self)
                 {| args := []; field_s := []; where_s := []; holders := [] |} in
      match field_s l with
      | [] => mret self
      | _ =>
          do! (where_s, args) :=
            match where_expr (_ctx self) with
            | Some e =>
                do! (where_more_s, args) := lift (building (get_col_name (_ctx self)) e (args l)) in
                mret (where_s l ++ [where_more_s], args)
            | None => mret (where_s l, args l)
            end in
          match where_s with
          | [] => mraise ImproperlyConfig
          | _ =>
              do! joins_sql := lift (get_joins_sql env (_ctx self)) in
              let sql := "UPDATE " +:+ joins_sql +:+ " SET " +:+ join "," (field_s l)
                         +:+ " WHERE " +:+ join " AND " where_s in
              do! n := execute_rowcount (db_spec (_ctx self)) drv sql args in
              do! _ := for_each (holders l) (λ holder _, holder_reset holder) () in
              mret {| _ctx := _ctx self; _instances := _instances self;
                      _affected_cnt := n; _only_dirty := _only_dirty self |}
          end
      end
  end.

(** [UpdatePlan.__init__] and [ExecContext.save] *)
Definition UpdatePlan___init__ (env : ClassEnv) (drv : Driver) (context : ExecContext)
    (instances : list Instance) (only_dirty : bool) : M UpdatePlan :=
  _execute env drv {| _ctx := context; _instances := instances; _affected_cnt := 0;
                      _only_dirty := only_dirty |}.

Definition save (env : ClassEnv) (drv : Driver) (instances : list Instance)
    (self : ExecContext) : M UpdatePlan :=
  UpdatePlan___init__ env drv self instances true.

Definition affected_cnt (p : UpdatePlan) : Z := _affected_cnt p.

(** ** The rendering rule as the specification words it *)

(** A node's own predicate and the values it binds. *)
Definition own_predicate (name : string) (cls : ExprClass) (op : string) : string :=
  match cls with
  | CExpr => name +:+ " " +:+ op +:+ " %s"
  | CBetweenExpr => name +:+ " BETWEEN %s AND %s"
  | CNullExpr => name +:+ " IS NULL"
  | CNotNullExpr => name +:+ " IS NOT NULL"
  end.

Definition own_arguments (cls : ExprClass) (val : value) : list value :=
  match cls with
  | CExpr => [val]
  | CBetweenExpr =>
      match value_getitem val 0, value_getitem val 1 with
      | inr a, inr b => [a; b]
      | _, _ => []
      end
  | CNullExpr | CNotNullExpr => []
  end.

(** The node's own predicate, then ["<conjunction> (<nested>)"] for every
    chained pair in order, joined by spaces. *)
Fixpoint render (naming : Column → string) (e : Expr) : string :=
  match e with
  | MkExpr cls column op val next_expr =>
      join " "
        (own_predicate (naming column) cls op ::
         List.map (λ p : string * Expr, p.1 +:+ " (" +:+ render naming p.2 +:+ ")")
                  next_expr)
  end.

(** The arguments in the same traversal order. *)
Fixpoint render_args (e : Expr) : list value :=
  match e with
  | MkExpr cls column op val next_expr =>
      own_arguments cls val ++
      List.concat (List.map (λ p : string * Expr, render_args p.2) next_expr)
  end.

(** A range node carries a value with a first and a second component, as
    [between_expr] builds it. *)
Definition range_ok (cls : ExprClass) (val : value) : bool :=
  match cls with
  | CBetweenExpr =>
      match value_getitem val 0, value_getitem val 1 with
      | inr _, inr _ => true
      | _, _ => false
      end
  | _ => true
  end.

Fixpoint well_formed (e : Expr) : bool :=
  match e with
  | MkExpr cls column op val next_expr =>
      range_ok cls val && forallb (λ p : string * Expr, well_formed p.2) next_expr
  end.

(** The columns and expressions of the test suite. *)
Definition Books : TableMapper := 1%nat.
Definition Books_id : Column := {| db_column := Some "id"; table_mapper := Some Books |}.
Definition Books_name : Column := {| db_column := Some "name"; table_mapper := Some Books |}.

Definition and_expr : Expr :=
  Expr___and__ (Column___gt__ Books_id (VInt 0)) (Column___lt__ Books_id (VInt 8)).

Definition or_expr : Expr :=
  Expr___and__
    (Expr___or__ (Column___gt__ Books_id (VInt 0)) (Column___lt__ Books_id (VInt 9)))
    (Column___lt__ Books_name (VInt 8)).

(** ** Sequences of calls used in the statements *)

(** A run of [free] calls: [(connection, error, time)] each. *)
Definition free_all (l : list (nat * option exn * Z)) (w : PoolWorld) : PoolWorld :=
  foldl (λ w c, free c.1.1 c.1.2 c.2 w) w l.

(** The connections on the free list. *)
Definition free_list (w : PoolWorld) : list nat := (_connections (pool w)).*2.

(** What a caller of the pool can rely on in every world the calls lead to:
    a connection sits on the free list at most once, and only while it
    carries the free token. *)
Definition pool_inv (w : PoolWorld) : Prop :=
  NoDup (free_list w) ∧ ∀ con, con ∈ free_list w → _is_freed con w = true.

(** A run of registrations in one context. *)
Definition register_all (ms : list TableMapper) (ctx : ExecContext) : ExecContext :=
  foldl (λ c m, _add_table_mapper m c) ctx ms.

(** The mappers of a list in first-seen order, each once. *)
Definition first_seen_from (acc : list nat) (l : list nat) : list nat :=
  foldl (λ acc x, if decide (x ∈ acc) then acc else acc ++ [x]) acc l.
Definition first_seen (l : list nat) : list nat := first_seen_from [] l.

(** The alias ["t<k>"]. *)
Definition alias_of (k : nat) : string := "t" +:+ pretty k.

(** A context before its first registration. *)
Definition blank_context (table_mapper : TableMapper) (db : Database) : ExecContext :=
  {| db_spec := db; ctx_table_mapper := table_mapper; joins := [];
     mappers := ∅; alias_map := ∅; where_expr := None |}.

(** A run of joins: [(other_table, on, kind)] each. *)
Definition join_all (js : list (TableMapper * (Column * value) * string))
    (ctx : ExecContext) : ExecContext :=
  foldl (λ c j, _join_ctx j.1.1 j.1.2 j.2 c) ctx js.

(** More of the test suite's mappers. *)
Definition Authors : TableMapper := 2%nat.
Definition Authors_id : Column := {| db_column := Some "id"; table_mapper := Some Authors |}.
Definition AuthorBooks : TableMapper := 3%nat.
Definition AuthorBooks_book_id : Column :=
  {| db_column := Some "bid"; table_mapper := Some AuthorBooks |}.

(** The dirty set of an instance, and worlds that agree on every ledger. *)
Definition dirty_of (w : World) (instance : Instance) : gset string :=
  _dirty (holder_of (store w) instance).

Definition same_tracking (w w' : World) : Prop :=
  ∀ instance, holder_of (store w') instance = holder_of (store w) instance.

(** The class of an instance is tracked. *)
Definition tracked (w : World) (cls : Entity) : Prop :=
  is_Some (tracking (store w) !! cls).

(** A retired connection: off the free list, and carrying the free token. *)
Definition retired (con : nat) (w : PoolWorld) : Prop :=
  (con ∉ free_list w) ∧ _is_freed con w = true.

(** What holds between a context and the mappers seen so far, in order. *)
Record aliased (ctx : ExecContext) (seen : list nat) : Prop := mkAliased {
  aliased_nodup : NoDup seen;
  aliased_size : size (mappers ctx) = length seen;
  aliased_lookup : ∀ k m,
    seen !! k = Some m →
    mappers ctx !! m = Some (alias_of (S k))
    ∧ alias_map ctx !! alias_of (S k) = Some m;
  aliased_dom : ∀ m, is_Some (mappers ctx !! m) → m ∈ seen;
}.

(** Worlds that differ at most by holders created empty on first use: the
    same ledgers, statements, pool and clock, and the same tracked classes. *)
Definition untouched (w w' : World) : Prop :=
  same_tracking w w'
  ∧ issued w' = issued w
  ∧ pw w' = pw w
  ∧ clock w' = clock w
  ∧ ∀ cls, tracked w' cls ↔ tracked w cls.

(** A computation that leaves the world untouched, whether it returns or
    raises. *)
Definition quiet {A} (m : M A) : Prop :=
  ∀ w r w', m w = (r, w') → untouched w w'.

(** The entity [Book] of the test suite, its mapper [Books], a database
    with the dialect of the MySQL backend, and two drivers: one that
    answers every statement with one affected row, one whose [execute]
    raises the driver's operational error. *)
Definition Book : Entity := 10%nat.

Definition Books_meta : Meta :=
  {| db_table := Some "t_book";
     __cols__ := {[ "id" := Books_id; "name" := Books_name ]};
     __managed_set__ := {[ Book ]};
     __identifier_set__ := {[ "id" ]} |}.

Definition test_env : ClassEnv :=
  {| get_meta := λ _, Books_meta;
     class_fields := λ cls, if decide (cls = Book) then ["id"; "name"] else [];
     init_without_arguments := λ _, true |}.

Definition MySQLDatabase : Database :=
  {| format_column := λ t_alias col_name, "`" +:+ t_alias +:+ "`.`" +:+ col_name +:+ "`";
     format_table_name := λ t_name, "`" +:+ t_name +:+ "`";
     quote := λ name, "`" +:+ name +:+ "`";
     db_OperationalError := Some DriverError |}.

Definition driver_up : Driver :=
  {| open_err := None; cursor_err := None; cursor_execute := λ _ _, ok 1 |}.
Definition driver_down : Driver :=
  {| open_err := None; cursor_err := None;
     cursor_execute := λ _ _, raise DriverError |}.

Definition Book_tracking : TrackingManager :=
  {| _fields := {[ "id" := {| alias := None; unwatch := false |};
                   "name" := {| alias := None; unwatch := false |} ]};
     _holders := ∅ |}.

Definition test_world : World :=
  {| pw := ConnectionPool___init__ 1;
     store := {| tracking := {[ Book := Book_tracking ]}; inst_dict := ∅ |};
     issued := [];
     clock := 0 |}.

Definition Books_context : ExecContext := ExecContext___init__ Books MySQLDatabase.

(** A book loaded from a row, and the same book after [book.name = ...]. *)
Definition loaded_book : result Instance * World :=
  _wrap_instance test_env Book [("id", VInt 1); ("name", VStr "Python")] 7 test_world.

Definition renamed_book : result unit * World :=
  setattr {| inst_id := 7; inst_class := Book |} "name" (VStr "Golang") loaded_book.2.

(** ** Further definitions for the pool *)

(** A closed connection is retired. *)
Definition closed_retired (w : PoolWorld) : Prop :=
  ∀ con, _closed (get_con w con) = true → retired con w.

(** The pool has nothing to hand out: the free list is empty and the guard
    of [allocate] refuses to open a connection. *)
Definition exhausted (w : PoolWorld) : Prop :=
  _connections (pool w) = []
  ∧ (bool_decide (_maximum (pool w) ≠ 0) && (_cnt (pool w) <=? _maximum (pool w))) = false.

(** The heap is in ascending order. *)
Definition heap_ordered (h : list (Z * nat)) : Prop :=
  StronglySorted (λ a b, item_le a b = true) h.

(** ** More of [om/db/base.py]: rows and the statement methods *)

(** [Row]: the column names and the data tuple it was built from. *)
Record Row : Type := mkRow {
  __col_names__ : list string;
  __data__ : list value;
}.

(** The dictionary part of a [Row], [dict(zip(col_names, data_tuple))]: of
    two columns with one name the later one stays. *)
Definition Row_dict (r : Row) : gmap string value :=
  list_to_map (reverse (zip (__col_names__ r) (__data__ r))).

(** [Row.__getattr__] *)
Definition Row___getattr__ (r : Row) (name : string) : result value :=
  match Row_dict r !! name with
  | Some v => ok v
  | None => raise AttributeError
  end.

(** What a cursor holds once [execute] has returned (the column names of
    [cursor.description], the rows it iterates over, [lastrowid]), and what
    [cursor.executemany] answers (the row count) or raises. *)
Record Answers : Type := mkAnswers {
  description : string → list value → list string;
  fetch : string → list value → list (list value);
  lastrowid : string → list value → Z;
  cursor_executemany : string → list (list value) → result Z;
  lastrowid_many : string → list (list value) → Z;
}.

(** The frame that [iter], [execute_lastrowid], [execute_rowcount],
    [executemany_lastrowid] and [executemany_rowcount] each write out:
    allocate, take a cursor, run the body, and in the [finally] block free
    the connection with the error observed. *)
Definition Database_call {A} (drv : Driver) (body : M A) : M A :=
  λ w,
    match allocate 1 (open_err drv) (Some 0) (pw w) with
    | (None, p1) => (raise RuntimeError, set_pw p1 w)
    | (Some (inl e), p1) => (raise e, set_pw p1 w)
    | (Some (inr con), p1) =>
        match cursor_err drv with
        | Some e => (raise e, set_pw p1 w)
        | None =>
            let '(r, w2) := body (set_pw p1 w) in
            let err := match r with inl e => Some e | inr _ => None end in
            (r, {| pw := free con err (clock w2) (pw w2); store := store w2;
                   issued := issued w2; clock := clock w2 + 1 |})
        end
    end.

(** [Database.query], that is [list(self.iter(...))]: the generator is run
    to its end. *)
Definition query (db : Database) (drv : Driver) (ans : Answers) (q : string)
    (parameters : list value) : M (list Row) :=
  Database_call drv
    (do! _ := Database__execute db drv q parameters in
     mret (mkRow (description ans q parameters) <$> fetch ans q parameters)).

(** [Database.get] raises [MultipleRowsError] besides what [iter] raises. *)
Inductive get_exn : Type :=
| MultipleRowsError
| Raised (e : exn).

Definition Database_get (db : Database) (drv : Driver) (ans : Answers) (q : string)
    (parameters : list value) (w : World) : (get_exn + option Row) * World :=
  match query db drv ans q parameters w with
  | (inl e, w1) => (inl (Raised e), w1)
  | (inr rows, w1) =>
      match rows with
      | [] => (inr None, w1)
      | [row] => (inr (Some row), w1)
      | _ => (inl MultipleRowsError, w1)
      end
  end.

(** [Database.execute_lastrowid] *)
Definition execute_lastrowid (db : Database) (drv : Driver) (ans : Answers)
    (q : string) (parameters : list value) : M Z :=
  Database_call drv
    (do! _ := Database__execute db drv q parameters in
     mret (lastrowid ans q parameters)).

(** [cursor.executemany(query, parameters)] as the two [executemany_*]
    methods call it: directly, not through [_execute]. *)
Definition cursor_executemany_call (ans : Answers) (q : string)
    (parameters : list (list value)) : M Z :=
  λ w, (cursor_executemany ans q parameters,
        {| pw := pw w; store := store w;
           issued := issued w ++ [(q, VTuple <$> parameters)]; clock := clock w |}).

(** [Database.executemany_rowcount] and [Database.executemany_lastrowid] *)
Definition executemany_rowcount (drv : Driver) (ans : Answers) (q : string)
    (parameters : list (list value)) : M Z :=
  Database_call drv (cursor_executemany_call ans q parameters).

Definition executemany_lastrowid (drv : Driver) (ans : Answers) (q : string)
    (parameters : list (list value)) : M Z :=
  Database_call drv
    (do! _ := cursor_executemany_call ans q parameters in
     mret (lastrowid_many ans q parameters)).

(** The connections that exist and do not carry the free token. *)
Definition checked_out (p : PoolWorld) : gset nat :=
  filter (λ con, _is_freed con p = false) (dom (conns p)).

(** A body that leaves the pool alone. *)
Definition keeps_pool {A} (body : M A) : Prop :=
  ∀ w r w', body w = (r, w') → pw w' = pw w.

(** Cursors for the test suite: one book row, or two. *)
Definition one_row : Answers :=
  {| description := λ _ _, ["id"; "name"];
     fetch := λ _ _, [[VInt 1; VStr "Python"]];
     lastrowid := λ _ _, 9;
     cursor_executemany := λ _ _, ok 1;
     lastrowid_many := λ _ _, 9 |}.

Definition two_rows : Answers :=
  {| description := λ _ _, ["id"; "name"];
     fetch := λ _ _, [[VInt 1; VStr "Python"]; [VInt 2; VStr "Golang"]];
     lastrowid := λ _ _, 9;
     cursor_executemany := λ _ _, raise DriverError;
     lastrowid_many := λ _ _, 9 |}.

Definition driver_without_cursor : Driver :=
  {| open_err := None; cursor_err := Some DriverError;
     cursor_execute := λ _ _, ok 1 |}.

(** ** [Transaction] ([om/db/base.py]) *)

(** A [Transaction] object; [_tx_closed] is its attribute [_closed]. An
    inner transaction is another object with the same connection. *)
Record Transaction : Type := mkTransaction {
  _con : nat;
  _err : option exn;
  _is_inner_transaction : bool;
  _tx_closed : bool;
}.

Definition Transaction___init__ (con : nat) (is_inner_transaction : bool) : Transaction :=
  {| _con := con; _err := None; _is_inner_transaction := is_inner_transaction;
     _tx_closed := false |}.

(** [Database.transaction]: a connection from the pool, pinned. *)
Definition Database_transaction (drv : Driver) : M Transaction :=
  λ w,
    match allocate 1 (open_err drv) (Some 0) (pw w) with
    | (None, p1) => (raise RuntimeError, set_pw p1 w)
    | (Some (inl e), p1) => (raise e, set_pw p1 w)
    | (Some (inr con), p1) => (ok (Transaction___init__ con false), set_pw p1 w)
    end.

(** [Transaction.transaction] *)
Definition Transaction_transaction (self : Transaction) : Transaction :=
  Transaction___init__ (_con self) true.

(** [Transaction.close]; the transaction comes back with its flag. *)
Definition Transaction_close (self : Transaction) : M Transaction :=
  λ w,
    if _tx_closed self then (ok self, w)
    else
      (ok {| _con := _con self; _err := _err self;
             _is_inner_transaction := _is_inner_transaction self;
             _tx_closed := true |},
       {| pw := free (_con self) (_err self) (clock w) (pw w); store := store w;
          issued := issued w; clock := clock w + 1 |}).

(** [Transaction._free]: nothing unless an error was seen. *)
Definition Transaction__free (self : Transaction) (err : option exn) : M Transaction :=
  match err with
  | Some e =>
      Transaction_close {| _con := _con self; _err := Some e;
                           _is_inner_transaction := _is_inner_transaction self;
                           _tx_closed := _tx_closed self |}
  | None => mret self
  end.

(** [Transaction.commit]: the answer, and the connections on which
    [commit()] has been called, in order. *)
Definition Transaction_commit (self : Transaction) (committed : list nat)
  : bool * list nat :=
  if _is_inner_transaction self then (false, committed)
  else (true, committed ++ [_con self]).

(** [execute_rowcount] as a [Transaction] inherits it: [_allocate] is the
    pinned connection, [_free] is [Transaction._free]. *)
Definition Transaction_execute_rowcount (db : Database) (drv : Driver) (q : string)
    (parameters : list value) (self : Transaction) (w : World)
  : result Z * Transaction * World :=
  match cursor_err drv with
  | Some e => (raise e, self, w)
  | None =>
      let '(r, w2) := Database__execute db drv q parameters w in
      let err := match r with inl e => Some e | inr _ => None end in
      match Transaction__free self err w2 with
      | (inr t, w3) => (r, t, w3)
      | (inl e, w3) => (raise e, self, w3)
      end
  end.

(** ** More of [om/tracking.py] *)

(** [TrackingHolder.fields_map]: every field of the manager, with the unset
    sentinel where no value is held. *)
Definition fields_map (fields : gmap string Field) (h : TrackingHolder)
  : gmap string value :=
  map_imap (λ k _, Some (TrackingHolder_get k h)) fields.

(** The calls that change a holder. A call to [update] that raises leaves
    the holder as it was. *)
Inductive holder_call : Type :=
| Update (name : string) (v : value)
| Reset (data_dict : option (gmap string value)).

Definition holder_step (fields : gmap string Field) (h : TrackingHolder)
    (c : holder_call) : TrackingHolder :=
  match c with
  | Update name v =>
      match update fields name v h with
      | inr h' => h'
      | inl _ => h
      end
  | Reset data_dict => reset data_dict h
  end.

Definition holder_run (fields : gmap string Field) (cs : list holder_call)
    (h : TrackingHolder) : TrackingHolder :=
  foldl (holder_step fields) h cs.

(** The value a call writes under a name, if it writes one. *)
Definition writes (fields : gmap string Field) (c : holder_call) (name : string)
  : option value :=
  match c with
  | Update n v => if decide (n = name) then (λ _, v) <$> fields !! n else None
  | Reset (Some d) => d !! name
  | Reset None => None
  end.

(** The most recent value written under a name, [old] if there is none. *)
Definition last_written (fields : gmap string Field) (cs : list holder_call)
    (name : string) (old : option value) : option value :=
  foldl (λ acc c, match writes fields c name with Some v => Some v | None => acc end)
        old cs.

(** The last pair of a row under a name, [old] if there is none. *)
Definition last_in_row (it : list (string * value)) (name : string) (old : value) : value :=
  foldl (λ acc p, if decide (p.1 = name) then p.2 else acc) old it.

(** What every holder reached from a new one satisfies: a dirty field is a
    watched field of the manager and has a value. *)
Definition holder_inv (fields : gmap string Field) (h : TrackingHolder) : Prop :=
  ∀ k, k ∈ _dirty h →
       (∃ f, fields !! k = Some f ∧ unwatch f = false) ∧ is_Some (_values_map h !! k).

(** The fields of the manager of a class, if the class is tracked. *)
Definition fields_of (w : World) (cls : Entity) : option (gmap string Field) :=
  _fields <$> tracking (store w) !! cls.

(** ** Further definitions for the query context *)

(** The columns of an expression tree, in rendering order. *)
Fixpoint columns_of (e : Expr) : list Column :=
  match e with
  | MkExpr cls column op val next_expr =>
      column :: List.concat (List.map (λ p : string * Expr, columns_of p.2) next_expr)
  end.

(** The mapper of the column has an alias in the context. *)
Definition registered (ctx : ExecContext) (c : Column) : Prop :=
  ∃ m, table_mapper c = Some m ∧ is_Some (mappers ctx !! m).

(** The qualified name of a column whose mapper is registered. *)
Definition qualified (ctx : ExecContext) (c : Column) : string :=
  match get_col_name ctx c with
  | inr s => s
  | inl _ => ""
  end.

(** The clause of one join as [get_joins_sql] writes it. *)
Definition join_clause (env : ClassEnv) (ctx : ExecContext) (j : JoinSpec) : string :=
  join_tp j +:+ " "
  +:+ format_table_name (db_spec ctx) (str_of (db_table (get_meta env (tb j))))
  +:+ " AS " +:+ default "" (mappers ctx !! tb j)
  +:+ " ON " +:+ qualified ctx (on j).1
  +:+ " = " +:+ match (on j).2 with VCol b => qualified ctx b | _ => "" end.

(** The ON pair of a join names two columns of registered mappers. *)
Definition on_registered (ctx : ExecContext) (j : JoinSpec) : Prop :=
  registered ctx (on j).1
  ∧ ∃ b, (on j).2 = VCol b ∧ registered ctx b.

(** The join a call [_join_ctx other_table on j_type] records. *)
Definition spec_of (j : TableMapper * (Column * value) * string) : JoinSpec :=
  {| tb := j.1.1; join_tp := j.2; on := j.1.2 |}.

(** One pass of the loop of [get_joins_sql]. *)
Definition joins_step (env : ClassEnv) (self : ExecContext)
    (acc : result (list string)) (joinSpec : JoinSpec) : result (list string) :=
  let db := db_spec self in
  try! join_s := acc in
  try! tb_alias := mappers_getitem self (Some (tb joinSpec)) in
  let table_name := format_table_name db (str_of (db_table (get_meta env (tb joinSpec)))) in
  match on joinSpec with
  | (col_a, VCol col_b) =>
      try! alias_b := mappers_getitem self (table_mapper col_b) in
      try! alias_a := mappers_getitem self (table_mapper col_a) in
      let col_name_b := format_column db alias_b (str_of (db_column col_b)) in
      let col_name_a := format_column db alias_a (str_of (db_column col_a)) in
      ok (join_s ++ [join_tp joinSpec +:+ " " +:+ table_name +:+ " AS " +:+ tb_alias
                     +:+ " ON " +:+ col_name_a +:+ " = " +:+ col_name_b])
  | _ => raise AttributeError
  end.

(** ** Further definitions for the plans *)

(** A term [<name>=%s], as the SET list and the identifier terms of the
    WHERE list of an UPDATE are written. *)
Definition assignment (s : string) : Prop := ∃ name, s = name +:+ "=%s".

(** The WHERE expression of the context as [UpdatePlan._execute] appends it:
    nothing without an expression, else its rendering with the qualified
    column names. *)
Definition where_more (ctx : ExecContext) (more : list string) : Prop :=
  match where_expr ctx with
  | None => more = []
  | Some e => ∃ s a0 a1, building (get_col_name ctx) e a0 = ok (s, a1) ∧ more = [s]
  end.

(** [Meta.get_db_column]: [get_column] answers [None] for a name that is
    not a column, and [None.db_column] fails. *)
Definition get_db_column (m : Meta) (field_name : string) : result (option string) :=
  match get_column m field_name with
  | None => raise AttributeError
  | Some c => ok (db_column c)
  end.

(** ** [InsertPlan] *)

Module InsertPlan.

Record t : Type := mk {
  _ctx : ExecContext;
  _instances : list Instance;
  _last_id : option Z;
  _cnt : nat;
}.

(** [["%s" % (meta.get_db_column(f_name),) for f_name in f_names]] *)
Fixpoint db_columns (meta : Meta) (f_names : list string) : result (list string) :=
  match f_names with
  | [] => ok []
  | f_name :: rest =>
      try! c := get_db_column meta f_name in
      try! cs := db_columns meta rest in
      ok (str_of c :: cs)
  end.

(** The check of the values of one instance, and its row
    [[values[f_name] for f_name in f_names]]. *)
Definition row_of (instance : Instance) (f_names : list string) : M (list value) :=
  for_each f_names
    (λ f_name values,
       do! v := getattr instance f_name in
       match v with
       | VZero => mraise ValueError
       | _ => mret (values ++ [v])
       end)
    [].

(** [InsertPlan._execute]; the plan comes back with its [_last_id]. *)
Definition _execute (env : ClassEnv) (drv : Driver) (ans : Answers) (self : t) : M t :=
  match _instances self with
  | [] => mraise ImproperlyConfig
  | first :: _ =>
      let entity_class := inst_class first in
      do! f_names := lift (get_entity_info env entity_class) in
      match resolve_mapper env (_ctx self) entity_class with
      | None => mraise AttributeError
      | Some mapper =>
          let meta := get_meta env mapper in
          let tb_name := format_table_name (db_spec (_ctx self)) (str_of (db_table meta)) in
          do! cols := lift (db_columns meta f_names) in
          let sql_base := "INSERT INTO " +:+ tb_name +:+ " (" +:+ join "," cols +:+ ")" in
          let field_s := ["VALUES(" +:+ join "," (replicate (length f_names) "%s") +:+ ")"] in
          do! args := for_each (_instances self)
                        (λ instance args,
                           do! row := row_of instance f_names in
                           mret (args ++ [row]))
                        [] in
          let sql := sql_base +:+ " " +:+ join "," field_s in
          do! last := executemany_lastrowid drv ans sql args in
          mret {| _ctx := _ctx self; _instances := _instances self;
                  _last_id := Some last; _cnt := _cnt self |}
      end
  end.

(** [InsertPlan.__init__], as [ExecContext.insert] calls it. *)
Definition __init__ (env : ClassEnv) (drv : Driver) (ans : Answers)
    (context : ExecContext) (instance : Instance) (instances : list Instance) : M t :=
  _execute env drv ans
    {| _ctx := context; _instances := instance :: instances; _last_id := None;
       _cnt := length (instance :: instances) |}.

Definition last_id (p : t) : option Z := _last_id p.
Definition rows_cnt (p : t) : nat := _cnt p.

End InsertPlan.

(** ** [DeletePlan] *)

Module DeletePlan.

Record t : Type := mk {
  _ctx : ExecContext;
  _instances : list Instance;
  _affected_cnt : option Z;
  _mapper : TableMapper;
}.

(** The naming function of a delete: the quoted database column, without
    the table alias. *)
Definition quoted_name (db : Database) (x : Column) : result string :=
  ok (quote db (str_of (db_column x))).

(** The block [if self._instances:]; it leaves [where_s] and [in_lst]. *)
Definition instances_block (env : ClassEnv) (self : t) : M (list string * list value) :=
  match _instances self with
  | [] => mret ([], [])
  | first :: _ =>
      let entity_class := inst_class first in
      let meta := get_meta env (_mapper self) in
      if existsb (λ c, negb (bool_decide (inst_class c = entity_class))) (_instances self)
      then mraise ImproperlyConfig
      else if negb (bool_decide (entity_class ∈ __managed_set__ meta))
      then mraise ImproperlyConfig
      else
        do! info := lift (get_entity_info env entity_class) in
        let id_set : gset string := list_to_set info ∩ get_identifier_set meta in
        match elements id_set with
        | [] => mraise ImproperlyConfig
        | id_name_chosen :: _ =>
            match get_column meta id_name_chosen with
            | None => mraise AttributeError
            | Some column =>
                let col_name := db_column column in
                let where_s := [quote (db_spec (_ctx self)) (str_of col_name) +:+ " IN %s"] in
                do! in_lst := for_each (_instances self)
                                (λ instance in_lst,
                                   do! v := getattr instance id_name_chosen in
                                   mret (in_lst ++ [v]))
                                [] in
                mret (where_s, in_lst)
            end
        end
  end.

(** [DeletePlan._execute]; the plan comes back with its [_affected_cnt]. *)
Definition _execute (env : ClassEnv) (drv : Driver) (self : t) : M t :=
  match _instances self, where_expr (_ctx self) with
  | [], None => mraise ImproperlyConfig
  | _, _ =>
      let meta := get_meta env (_mapper self) in
      do! (where_s, in_lst) := instances_block env self in
      let args := match in_lst with [] => [] | _ => [VTuple in_lst] end in
      do! (where_s, args) :=
        match where_expr (_ctx self) with
        | Some e =>
            do! (where_more_s, args) :=
              lift (building (quoted_name (db_spec (_ctx self))) e args) in
            mret (where_s ++ [where_more_s], args)
        | None => mret (where_s, args)
        end in
      match where_s with
      | [] => mraise ImproperlyConfig
      | _ =>
          let tb_name := format_table_name (db_spec (_ctx self)) (str_of (db_table meta)) in
          let sql := "DELETE FROM " +:+ tb_name +:+ " WHERE " +:+ join " AND " where_s in
          do! n := execute_rowcount (db_spec (_ctx self)) drv sql args in
          mret {| _ctx := _ctx self; _instances := _instances self;
                  _affected_cnt := Some n; _mapper := _mapper self |}
      end
  end.

(** [DeletePlan.__init__], as [ExecContext.delete] calls it. *)
Definition __init__ (env : ClassEnv) (drv : Driver) (context : ExecContext)
    (instances : list Instance) : M t :=
  _execute env drv
    {| _ctx := context; _instances := instances; _affected_cnt := None;
       _mapper := ctx_table_mapper context |}.

Definition affected_cnt (p : t) : option Z := _affected_cnt p.

End DeletePlan.

(** The quoted column name of a delete, as a plain string. *)
Definition quoted (db : Database) (x : Column) : string := quote db (str_of (db_column x)).

(** [DeletePlan._execute] after its first check. *)
Definition delete_tail (env : ClassEnv) (drv : Driver) (self : DeletePlan.t)
  : M DeletePlan.t :=
  let meta := get_meta env (DeletePlan._mapper self) in
  do! (where_s, in_lst) := DeletePlan.instances_block env self in
  let args := match in_lst with [] => [] | _ => [VTuple in_lst] end in
  do! (where_s, args) :=
    match where_expr (DeletePlan._ctx self) with
    | Some e =>
        do! (where_more_s, args) :=
          lift (building (DeletePlan.quoted_name (db_spec (DeletePlan._ctx self))) e args) in
        mret (where_s ++ [where_more_s], args)
    | None => mret (where_s, args)
    end in
  match where_s with
  | [] => mraise ImproperlyConfig
  | _ =>
      let tb_name := format_table_name (db_spec (DeletePlan._ctx self))
                       (str_of (db_table meta)) in
      let sql := "DELETE FROM " +:+ tb_name +:+ " WHERE " +:+ join " AND " where_s in
      do! n := execute_rowcount (db_spec (DeletePlan._ctx self)) drv sql args in
      mret {| DeletePlan._ctx := DeletePlan._ctx self;
              DeletePlan._instances := DeletePlan._instances self;
              DeletePlan._affected_cnt := Some n;
              DeletePlan._mapper := DeletePlan._mapper self |}
  end.

(** ** [SelectPlan] *)

(** [entity_map[entity] = table_mapper] on an [OrderedDict]: a key that is
    present keeps its place. *)
Fixpoint od_set (entity : Entity) (table_mapper : TableMapper)
    (m : list (Entity * TableMapper)) : list (Entity * TableMapper) :=
  match m with
  | [] => [(entity, table_mapper)]
  | (k, v) :: rest =>
      if decide (k = entity) then (entity, table_mapper) :: rest
      else (k, v) :: od_set entity table_mapper rest
  end.

Module SelectPlan.

Record t : Type := mk {
  _ctx : ExecContext;
  _orders : list (Column * string);
  _t_limit : option (Z * Z);
  _result_field_pos_idx : option (list (nat * Entity));
  _sql : option string;
  _args : option (list value);
  _entity_map : list (Entity * TableMapper);
}.

Definition __init__ (context : ExecContext) (entity_map : list (Entity * TableMapper)) : t :=
  {| _ctx := context; _orders := []; _t_limit := None; _result_field_pos_idx := None;
     _sql := None; _args := None; _entity_map := entity_map |}.

Definition limit (begin end_ : Z) (self : t) : t :=
  {| _ctx := _ctx self; _orders := _orders self; _t_limit := Some (begin, end_);
     _result_field_pos_idx := _result_field_pos_idx self;
     _sql := _sql self; _args := _args self; _entity_map := _entity_map self |}.

Definition order_by (order_pairs : list (Column * string)) (self : t) : t :=
  {| _ctx := _ctx self; _orders := _orders self ++ order_pairs; _t_limit := _t_limit self;
     _result_field_pos_idx := _result_field_pos_idx self;
     _sql := _sql self; _args := _args self; _entity_map := _entity_map self |}.

(** The loop of [_order_sql]. *)
Fixpoint order_terms (ctx : ExecContext) (orders : list (Column * string))
    (sql_s : list string) : result (list string) :=
  match orders with
  | [] => ok sql_s
  | (column, tp) :: rest =>
      try! col_name := get_col_name ctx column in
      order_terms ctx rest (sql_s ++ [col_name +:+ " " +:+ tp])
  end.

Definition _order_sql (self : t) : result (option string) :=
  match _orders self with
  | [] => ok None
  | _ =>
      try! sql_s := order_terms (_ctx self) (_orders self) [] in
      ok (Some ("ORDER BY " +:+ join "," sql_s))
  end.

Definition _limit_sql (self : t) : option string :=
  match _t_limit self with
  | None => None
  | Some (begin, end_) => Some ("LIMIT " +:+ pretty begin +:+ "," +:+ pretty end_)
  end.

(** The loop over the field names of one entity. *)
Fixpoint entity_columns (env : ClassEnv) (ctx : ExecContext) (table_mapper : TableMapper)
    (tb_alias : string) (f_names : list string) (field_s : list string) (cur_pos : nat)
  : result (list string * nat) :=
  match f_names with
  | [] => ok (field_s, cur_pos)
  | f_name :: rest =>
      match get_column (get_meta env table_mapper) f_name with
      | None => raise ImproperlyConfig
      | Some col =>
          let col_name := format_column (db_spec ctx) tb_alias (str_of (db_column col)) in
          entity_columns env ctx table_mapper tb_alias rest (field_s ++ [col_name])
                         (S cur_pos)
      end
  end.

(** The loop over the entities; [self._result_field_pos_idx] is filled in
    place, so it keeps the entries written before an exception. *)
Fixpoint entities_loop (env : ClassEnv) (ctx : ExecContext)
    (l : list (Entity * TableMapper)) (field_s : list string) (cur_pos : nat)
    (idx : list (nat * Entity)) : result (list string) * list (nat * Entity) :=
  match l with
  | [] => (ok field_s, idx)
  | (entity, table_mapper) :: rest =>
      match get_entity_info env entity with
      | inl e => (raise e, idx)
      | inr info =>
          match mappers_getitem ctx (Some table_mapper) with
          | inl e => (raise e, idx)
          | inr tb_alias =>
              match entity_columns env ctx table_mapper tb_alias info field_s cur_pos with
              | inl e => (raise e, idx)
              | inr (field_s, cur_pos) =>
                  entities_loop env ctx rest field_s cur_pos (idx ++ [(cur_pos, entity)])
              end
          end
      end
  end.

Definition set_idx (idx : list (nat * Entity)) (self : t) : t :=
  {| _ctx := _ctx self; _orders := _orders self; _t_limit := _t_limit self;
     _result_field_pos_idx := Some idx;
     _sql := _sql self; _args := _args self; _entity_map := _entity_map self |}.

(** [SelectPlan._get_sql_args]: the answer and the plan as the call leaves
    it. *)
Definition _get_sql_args (env : ClassEnv) (rebuild : bool) (self : t)
  : result (string * list value) * t :=
  match _sql self, rebuild with
  | Some sql, false => (ok (sql, default [] (_args self)), self)
  | _, _ =>
      let '(r, idx) := entities_loop env (_ctx self) (_entity_map self) [] 0 [] in
      let self := set_idx idx self in
      match r with
      | inl e => (raise e, self)
      | inr field_s =>
          match get_joins_sql env (_ctx self) with
          | inl e => (raise e, self)
          | inr joins_sql =>
              let select_s := ["SELECT"; join "," field_s; "FROM"; joins_sql] in
              match where_sql (_ctx self) with
              | inl e => (raise e, self)
              | inr (where_sql, args) =>
                  let select_s :=
                    match where_sql with
                    | Some s => if bool_decide (s = "") then select_s
                                else select_s ++ ["WHERE " +:+ s]
                    | None => select_s
                    end in
                  match _order_sql self with
                  | inl e => (raise e, self)
                  | inr order_by =>
                      let limit := _limit_sql self in
                      let select_s :=
                        select_s ++ option_list order_by ++ option_list limit in
                      let sql := join " " select_s in
                      (ok (sql, args),
                       {| _ctx := _ctx self; _orders := _orders self;
                          _t_limit := _t_limit self;
                          _result_field_pos_idx := _result_field_pos_idx self;
                          _sql := Some sql; _args := Some args;
                          _entity_map := _entity_map self |})
                  end
              end
          end
      end
  end.

End SelectPlan.

(** [ExecContext.select]: a config is a pair [(table_mapper, entity)] or an
    entity alone, whose mapper is then resolved in the context. *)
Definition select_entity_map (env : ClassEnv) (self : ExecContext)
    (entities_config : list (option TableMapper * Entity))
  : result (list (Entity * TableMapper)) :=
  foldl (λ acc config,
           try! entity_map := acc in
           match config with
           | (Some table_mapper, entity) => ok (od_set entity table_mapper entity_map)
           | (None, entity) =>
               match resolve_mapper env self entity with
               | None => raise ImproperlyConfig
               | Some table_mapper => ok (od_set entity table_mapper entity_map)
               end
           end)
        (ok []) entities_config.

Definition select (env : ClassEnv) (entities_config : list (option TableMapper * Entity))
    (self : ExecContext) : result SelectPlan.t :=
  try! entity_map := select_entity_map env self entities_config in
  ok (SelectPlan.__init__ self entity_map).

(** The positions [(cur_pos, entity)] of a select: the running count of the
    fields of the entities. *)
Fixpoint positions (env : ClassEnv) (l : list (Entity * TableMapper)) (start : nat)
  : list (nat * Entity) :=
  match l with
  | [] => []
  | (entity, _) :: rest =>
      let cur_pos := (start + length (class_fields env entity))%nat in
      (cur_pos, entity) :: positions env rest cur_pos
  end.

(** The number of fields of the entities of a select. *)
Definition fields_count (env : ClassEnv) (l : list (Entity * TableMapper)) : nat :=
  sum_list ((λ p : Entity * TableMapper, length (class_fields env p.1)) <$> l).

(** One pass of the loop of [ExecContext.select]. *)
Definition select_step (env : ClassEnv) (self : ExecContext)
    (acc : result (list (Entity * TableMapper))) (config : option TableMapper * Entity)
  : result (list (Entity * TableMapper)) :=
  try! entity_map := acc in
  match config with
  | (Some table_mapper, entity) => ok (od_set entity table_mapper entity_map)
  | (None, entity) =>
      match resolve_mapper env self entity with
      | None => raise ImproperlyConfig
      | Some table_mapper => ok (od_set entity table_mapper entity_map)
      end
  end.

(** The mapper a config asks for. *)
Definition config_mapper (env : ClassEnv) (self : ExecContext)
    (config : option TableMapper * Entity) : option TableMapper :=
  match config.1 with
  | Some table_mapper => Some table_mapper
  | None => resolve_mapper env self config.2
  end.

(** ** More of [om/tracking.py]: how a manager gets its fields *)

Definition TrackingManager___init__ (fields : gmap string Field) : TrackingManager :=
  {| _fields := fields; _holders := ∅ |}.

(** [TrackingManager.merge_fields], that is [self._fields.update(fields)]. *)
Definition merge_fields (fields : gmap string Field) (self : TrackingManager)
  : TrackingManager :=
  {| _fields := fields ∪ _fields self; _holders := _holders self |}.

(** [TrackingBase.__new__] for a class that is not the temporary one:
    [fields] are the [Field]s among the options of the class, and [bases]
    holds, for each base class in order, its [__tracking__] if it has one. *)
Definition TrackingBase___new__ (fields : gmap string Field)
    (bases : list (option TrackingManager)) : TrackingManager :=
  foldl (λ holder c,
           match c with
           | Some other_holder => merge_fields (_fields other_holder) holder
           | None => holder
           end)
        (TrackingManager___init__ fields) bases.

(** [convert_to_tracking_class]: the [__tracking__] it sets on the class. *)
Definition convert_to_tracking_class (tracking_fields_names : list string)
  : TrackingManager :=
  TrackingManager___init__
    (foldl (λ fields name, <[name := {| alias := None; unwatch := false |}]> fields)
           ∅ tracking_fields_names).

(** The fields of base [k], if that base is tracked. *)
Definition base_field (bases : list (option TrackingManager)) (k : nat) (name : string)
  : option Field :=
  bases !! k ≫= λ c, c ≫= λ other_holder, _fields other_holder !! name.

(** * Theorems *)

(** ** Expressions *)

Lemma append_assoc (a b c : string) : (a +:+ b) +:+ c = a +:+ (b +:+ c).
Proof.
  induction a as [|ch a IH]; [reflexivity|].
  change (String ch ((a +:+ b) +:+ c) = String ch (a +:+ b +:+ c)).
  by rewrite IH.
Qed.

(** Induction over expression trees, with the hypothesis for every chained
    node. *)
Lemma Expr_tree_ind (P : Expr → Prop) :
  (∀ cls column op val next_expr,
      Forall (λ p : string * Expr, P p.2) next_expr →
      P (MkExpr cls column op val next_expr)) →
  ∀ e, P e.
Proof.
  intros step. fix IH 1. intros [cls column op val next_expr].
  apply step. revert next_expr. fix IHl 1.
  intros [|[tp e] rest]; constructor; [apply IH | apply IHl].
Qed.

Section Rendering.
Variable naming : Column → string.
Let col_name_fn : Column → result string := λ c, ok (naming c).

Lemma _generating_sql_own cls column op val args :
  range_ok cls val = true →
  _generating_sql col_name_fn cls column op val args
  = ok (own_predicate (naming column) cls op, args ++ own_arguments cls val).
Proof.
  destruct cls; simpl; intros Hok.
  - reflexivity.
  - destruct (value_getitem val 0) as [|a]; [discriminate|].
    destruct (value_getitem val 1) as [|b]; [discriminate|].
    simpl. by rewrite <- app_assoc.
  - by rewrite app_nil_r.
  - by rewrite app_nil_r.
Qed.

(** The loop of [building], once every chained node renders as [render]. *)
Lemma building_loop next_expr :
  Forall (λ p : string * Expr,
            ∀ args, building col_name_fn p.2 args
                    = ok (render naming p.2, args ++ render_args p.2)) next_expr →
  ∀ sql_s args,
    (fix loop (l : list (string * Expr)) (sql_s : list string)
         (args : list value) {struct l} : result (list string * list value) :=
       match l with
       | [] => ok (sql_s, args)
       | (tp, expr) :: rest =>
           try! (s, args') := building col_name_fn expr args in
           loop rest (sql_s ++ [tp +:+ " (" +:+ s +:+ ")"]) args'
       end) next_expr sql_s args
    = ok (sql_s ++ List.map (λ p : string * Expr,
                               p.1 +:+ " (" +:+ render naming p.2 +:+ ")") next_expr,
          args ++ List.concat (List.map (λ p : string * Expr, render_args p.2) next_expr)).
Proof.
  induction 1 as [|[tp e] rest He _ IH]; intros sql_s args.
  - simpl. by rewrite !app_nil_r.
  - simpl in He. rewrite He. simpl. rewrite IH.
    by rewrite <- !app_assoc.
Qed.

Lemma building_render e :
  well_formed e = true →
  ∀ args, building col_name_fn e args = ok (render naming e, args ++ render_args e).
Proof.
  induction e as [cls column op val next_expr IH] using Expr_tree_ind.
  intros Hwf args. simpl in Hwf. apply andb_true_iff in Hwf as [Hown Hnext].
  cbn [building].
  rewrite _generating_sql_own by done. cbn [rbind ok].
  rewrite building_loop.
  - cbn [rbind ok render render_args]. by rewrite <- app_assoc.
  - rewrite Forall_forall in IH. apply Forall_forall. intros p Hp args'.
    apply IH; [done|]. rewrite forallb_forall in Hnext.
    apply Hnext. by apply list_elem_of_In.
Qed.
(** Outside the well-formed trees [building] raises: a range node whose
    value has no first or second component fails in [_generating_sql]. *)
Lemma _generating_sql_range cls column op val args :
  range_ok cls val = false →
  ∃ err, _generating_sql col_name_fn cls column op val args = raise err.
Proof.
  destruct cls; simpl; try discriminate. intros Hbad.
  destruct (value_getitem val 0) as [e0|a]; [by eexists|].
  destruct (value_getitem val 1) as [e1|b]; [by eexists|]. discriminate.
Qed.

Lemma building_ill_formed e :
  well_formed e = false →
  ∀ args, ∃ err, building col_name_fn e args = raise err.
Proof.
  induction e as [cls column op val next_expr IH] using Expr_tree_ind.
  intros Hwf args. simpl in Hwf. cbn [building].
  destruct (range_ok cls val) eqn:Hown; simpl in Hwf.
  2:{ destruct (_generating_sql_range cls column op val args Hown) as [err ->].
      by exists err. }
  rewrite _generating_sql_own by done. cbn [rbind ok].
  generalize [own_predicate (naming column) cls op].
  generalize (args ++ own_arguments cls val). clear Hown args.
  induction IH as [|[tp child] rest Hchild _ IHrest]; intros args sql_s; [done|].
  simpl in Hwf, Hchild.
  destruct (building col_name_fn child args) as [err|[s args']] eqn:Hb.
  { by exists err. }
  destruct (well_formed child) eqn:Hc.
  - simpl in Hwf. cbn [rbind].
    exact (IHrest Hwf args' (sql_s ++ [tp +:+ " (" +:+ s +:+ ")"])).
  - destruct (Hchild eq_refl args) as [err Herr]. unfold raise in Herr. congruence.
Qed.
End Rendering.

(** C2. [Expr.building] renders the node's own predicate, then, for each
    chained [(conjunction, next_node)] in list order, the conjunction and the
    recursively rendered next node in parentheses, joined by spaces; the
    arguments are collected in the same traversal order. In particular
    [(Books.id > 0) & (Books.id < 8)] gives ["<id> > %s AND (<id> < %s)"]
    with [[0, 8]], and [((Books.id > 0) | (Books.id < 9)) & (Books.name < 8)]
    gives ["<id> > %s OR (<id> < %s) AND (<name> < %s)"] with [[0, 9, 8]]. *)
Theorem building_renders_chain (naming : Column → string) :
  (∀ e args,
      well_formed e = true →
      building (λ c, ok (naming c)) e args
      = ok (render naming e, args ++ render_args e))
  ∧ building (λ c, ok (naming c)) and_expr []
    = ok (naming Books_id +:+ " > %s AND (" +:+ naming Books_id +:+ " < %s)",
          [VInt 0; VInt 8])
  ∧ building (λ c, ok (naming c)) or_expr []
    = ok (naming Books_id +:+ " > %s OR (" +:+ naming Books_id +:+ " < %s) AND ("
            +:+ naming Books_name +:+ " < %s)",
          [VInt 0; VInt 9; VInt 8]).
Proof.
  split; [|split].
  - intros e args Hwf. by apply building_render.
  - rewrite building_render by reflexivity.
    cbv -[String.append]. rewrite !append_assoc. reflexivity.
  - rewrite building_render by reflexivity.
    cbv -[String.append]. rewrite !append_assoc. reflexivity.
Qed.

(** Witness of C2 on the first expression of the test suite. *)
Lemma building_renders_chain_witness :
  well_formed and_expr = true
  ∧ building (λ _, ok "ok") and_expr []
    = ok ("ok > %s AND (ok < %s)", [VInt 0; VInt 8]).
Proof.
  split; [reflexivity|].
  exact (proj1 (building_renders_chain (λ _, "ok")) and_expr [] eq_refl).
Defined.

(** C8. Comparing a column with [None] renders ["<col> IS NULL"] for
    equality and ["<col> IS NOT NULL"] for inequality, and neither touches
    the argument list; [IN] renders one placeholder and appends the whole
    sequence as one argument; [BETWEEN] renders two placeholders and appends
    its two bounds in order. *)
Theorem null_in_between_predicates (col_name_fn : Column → result string)
    (col : Column) (name : string) (args : list value) :
  col_name_fn col = ok name →
  building col_name_fn (Column___eq__ col VNone) args = ok (name +:+ " IS NULL", args)
  ∧ building col_name_fn (Column___ne__ col VNone) args
    = ok (name +:+ " IS NOT NULL", args)
  ∧ (∀ seq, building col_name_fn (Column___lshift__ col seq) args
            = ok (name +:+ " IN %s", args ++ [seq]))
  ∧ (∀ a b, (try! e := Column___rshift__ col (VTuple [a; b]) in
             building col_name_fn e args)
            = ok (name +:+ " BETWEEN %s AND %s", args ++ [a; b])).
Proof.
  intros Hname. repeat split; intros; cbn; rewrite Hname; cbn;
    rewrite <- ?app_assoc; reflexivity.
Qed.

Lemma null_in_between_predicates_witness :
  building (λ c, ok (str_of (db_column c))) (Column___eq__ Books_id VNone) []
  = ok ("id IS NULL", [])
  ∧ building (λ c, ok (str_of (db_column c)))
      (Column___lshift__ Books_id (VTuple [VInt 1; VInt 2; VInt 3])) []
    = ok ("id IN %s", [VTuple [VInt 1; VInt 2; VInt 3]]).
Proof.
  pose proof (null_in_between_predicates (λ c, ok (str_of (db_column c)))
                Books_id "id" [] eq_refl) as (Hnull & _ & Hin & _).
  split; [exact Hnull | exact (Hin (VTuple [VInt 1; VInt 2; VInt 3]))].
Defined.

(** ** The connection pool *)

Lemma heappush_perm h x : heappush h x ≡ₚ x :: h.
Proof.
  induction h as [|y rest IH]; simpl; [done|].
  destruct (item_le x y); [done|]. rewrite IH. apply Permutation_swap.
Qed.

Lemma is_freed_set_con d con c w :
  _is_freed d (set_con con c w)
  = if decide (con = d)
    then match __freed__ c with Some true => true | _ => false end
    else _is_freed d w.
Proof.
  unfold _is_freed, get_con, set_con; simpl.
  destruct (decide (con = d)) as [->|Hne].
  - by rewrite lookup_insert_eq.
  - by rewrite lookup_insert_ne.
Qed.

Lemma is_freed_mark_free con w : _is_freed con (_mark_free con w) = true.
Proof. unfold _mark_free. rewrite is_freed_set_con. by rewrite decide_True. Qed.

Lemma is_freed_close d con w : _is_freed d (close con w) = _is_freed d w.
Proof.
  unfold close, DriverConnection_close.
  destruct (_closed (get_con w con)) eqn:Hc; [done|].
  change (_is_freed d (set_con con {| _closed := true; __freed__ := __freed__ (get_con w con) |} w)
          = _is_freed d w).
  rewrite is_freed_set_con. destruct (decide (con = d)) as [->|]; [|done].
  unfold _is_freed. by destruct (__freed__ (get_con w d)) as [[]|].
Qed.

(** After [free], the connection carries the free token, whatever the
    error was. *)
Lemma is_freed_free con err ts w : _is_freed con (free con err ts w) = true.
Proof.
  unfold free. destruct (_is_freed con w) eqn:Hf; [done|].
  destruct (is_OperationalError err).
  - change (_is_freed con (close con (_mark_free con w)) = true).
    by rewrite is_freed_close, is_freed_mark_free.
  - apply is_freed_mark_free.
Qed.

(** [free] of one connection leaves the token of every other one alone. *)
Lemma is_freed_free_other d con err ts w :
  d ≠ con → _is_freed d (free con err ts w) = _is_freed d w.
Proof.
  intros Hne. unfold free. destruct (_is_freed con w) eqn:Hf; [done|].
  destruct (is_OperationalError err).
  - change (_is_freed d (close con (_mark_free con w)) = _is_freed d w).
    rewrite is_freed_close. unfold _mark_free. rewrite is_freed_set_con.
    by rewrite decide_False.
  - change (_is_freed d (_mark_free con w) = _is_freed d w).
    unfold _mark_free. rewrite is_freed_set_con. by rewrite decide_False.
Qed.

Lemma free_freed con err ts w : _is_freed con w = true → free con err ts w = w.
Proof. intros Hf. unfold free. by rewrite Hf. Qed.

Lemma is_freed_free_all con l w :
  _is_freed con w = true → _is_freed con (free_all l w) = true.
Proof.
  revert w. induction l as [|[[d err] ts] l IH]; intros w Hf; [done|].
  simpl. apply IH. destruct (decide (d = con)) as [->|Hne].
  - apply is_freed_free.
  - by rewrite is_freed_free_other.
Qed.

(** C4. [free] is idempotent: once a connection has been freed, freeing it
    again with no [allocate] in between (other connections may be freed
    meanwhile) changes nothing; the live count is not decremented again and
    the free list gains no entry. *)
Theorem free_idempotent (w : PoolWorld) (con : nat) (err1 err2 : option exn)
    (ts1 ts2 : Z) (between : list (nat * option exn * Z)) :
  let w1 := free_all between (free con err1 ts1 w) in
  free con err2 ts2 w1 = w1
  ∧ allocated_cnt (free con err2 ts2 w1) = allocated_cnt w1
  ∧ free_list (free con err2 ts2 w1) = free_list w1.
Proof.
  intros w1.
  assert (free con err2 ts2 w1 = w1) as Heq.
  { apply free_freed, is_freed_free_all, is_freed_free. }
  by rewrite Heq.
Qed.

(** The three ways a pass through the loop of [allocate] can end: a pooled
    connection is popped, a new one is opened, or the world is left as it
    was and no connection is handed out. *)
Lemma allocate_iter_cases open_err blocking w :
  (∃ ts con rest,
      _connections (pool w) = (ts, con) :: rest
      ∧ allocate_iter open_err blocking w
        = (Return (ok con), _mark_un_free con (set_connections rest w)))
  ∨ (_connections (pool w) = []
     ∧ _maximum (pool w) ≠ 0 ∧ _cnt (pool w) ≤ _maximum (pool w)
     ∧ allocate_iter open_err blocking w
       = (Return (ok (fresh (dom (conns w)))),
          _mark_un_free (fresh (dom (conns w)))
            (set_cnt (_cnt (pool w) + 1)
               (set_con (fresh (dom (conns w))) new_DriverConnection w))))
  ∨ (∃ s, allocate_iter open_err blocking w = (s, w)
          ∧ ∀ con, s ≠ Return (ok con)).
Proof.
  unfold allocate_iter.
  destruct (_connections (pool w)) as [|[ts con] rest] eqn:Hheap; simpl.
  2:{ left. by exists ts, con, rest. }
  right.
  destruct (bool_decide (_maximum (pool w) ≠ 0)) eqn:Hmax; simpl.
  2:{ right. repeat case_match; eexists; (split; [reflexivity|]);
      unfold ok, raise; congruence. }
  destruct (Z.leb_spec (_cnt (pool w)) (_maximum (pool w))) as [Hle|Hgt].
  2:{ right. repeat case_match; eexists; (split; [reflexivity|]);
      unfold ok, raise; congruence. }
  apply bool_decide_eq_true in Hmax.
  destruct open_err as [e|]; simpl.
  - right. eexists; split; [reflexivity|]. unfold ok, raise; congruence.
  - left. done.
Qed.

Lemma allocate_cases fuel open_err blocking w :
  (∃ ts con rest,
      _connections (pool w) = (ts, con) :: rest
      ∧ allocate fuel open_err blocking w
        = (Some (ok con), _mark_un_free con (set_connections rest w)))
  ∨ (_connections (pool w) = []
     ∧ _maximum (pool w) ≠ 0 ∧ _cnt (pool w) ≤ _maximum (pool w)
     ∧ allocate fuel open_err blocking w
       = (Some (ok (fresh (dom (conns w)))),
          _mark_un_free (fresh (dom (conns w)))
            (set_cnt (_cnt (pool w) + 1)
               (set_con (fresh (dom (conns w))) new_DriverConnection w))))
  ∨ (∃ r, allocate fuel open_err blocking w = (r, w)
          ∧ ∀ con, r ≠ Some (ok con)).
Proof.
  induction fuel as [|fuel IH]; simpl.
  { right; right. by eexists. }
  destruct (allocate_iter_cases open_err blocking w)
    as [(ts & con & rest & Hheap & ->)|[(Hheap & Hmax & Hle & ->)|(s & -> & Hs)]].
  - left. by exists ts, con, rest.
  - right; left. done.
  - destruct s as [r| |].
    + right; right. eexists; split; [reflexivity|].
      intros con [= ->]. by apply (Hs con).
    + exact IH.
    + right; right. by eexists.
Qed.

(** A call with [blocking=0] is answered within one pass. *)
Lemma allocate_nonblocking open_err w :
  ∃ r w1, allocate 1 open_err (Some 0) w = (Some r, w1).
Proof.
  simpl. unfold allocate_iter.
  destruct (heappop _) as [|[item rest]]; simpl; [|by eauto].
  destruct (_ && _); simpl; [|by eauto].
  destruct (_new_connection open_err w) as [[err|con] w1]; by eauto.
Qed.

(** *** The live count *)

Lemma cnt_free_le con err ts w :
  _maximum (pool (free con err ts w)) = _maximum (pool w)
  ∧ _cnt (pool (free con err ts w)) ≤ _cnt (pool w).
Proof.
  unfold free. destruct (_is_freed con w); [by split|].
  destruct (is_OperationalError err); simpl; [|by split].
  unfold close, DriverConnection_close; simpl.
  destruct (_closed _); simpl; split; (done || lia).
Qed.

Lemma cnt_allocate_le fuel open_err blocking w :
  let w1 := (allocate fuel open_err blocking w).2 in
  _maximum (pool w1) = _maximum (pool w)
  ∧ (_cnt (pool w1) ≤ _cnt (pool w)
     ∨ (_cnt (pool w) ≤ _maximum (pool w) ∧ _cnt (pool w1) = _cnt (pool w) + 1)).
Proof.
  destruct (allocate_cases fuel open_err blocking w)
    as [(ts & con & rest & Hheap & ->)|[(Hheap & Hmax & Hle & ->)|(s & -> & Hs)]];
    simpl; split; (done || (left; lia) || (right; lia) || idtac).
Qed.

(** What the code does guarantee: with a maximum [N ≥ 0] the live count
    stays within [N + 1]. *)
Lemma allocated_cnt_le_succ_maximum (N : Z) (calls : list pool_call) :
  0 ≤ N →
  allocated_cnt (run_calls calls (ConnectionPool___init__ N)).2 ≤ N + 1.
Proof.
  intros HN. unfold allocated_cnt.
  assert (∀ w, _maximum (pool w) = N → _cnt (pool w) ≤ N + 1 →
               _cnt (pool (run_calls calls w).2) ≤ N + 1) as Hrun.
  { induction calls as [|c calls IH]; intros w Hmax Hcnt; [done|].
    simpl. destruct (pool_step c w) as [r w1] eqn:Hstep.
    specialize (IH w1). destruct (run_calls calls w1) as [rs w2]. simpl in *.
    destruct c as [fuel open_err blocking|con err ts]; simpl in Hstep.
    - pose proof (cnt_allocate_le fuel open_err blocking w) as [Hm Hc].
      rewrite Hstep in Hm, Hc. simpl in Hm, Hc. apply IH; lia.
    - injection Hstep as _ <-.
      pose proof (cnt_free_le con err ts w) as [Hm Hc]. apply IH; lia. }
  apply Hrun; simpl; lia.
Qed.

(** C1 (the code exceeds the maximum). The guard of [allocate] compares
    with [<=]: on a pool with maximum 1, two calls to [allocate] with no
    [free] in between both open a connection, and the live count is 2. *)
Theorem allocate_exceeds_maximum :
  let calls := [Allocate 1 None (Some 0); Allocate 1 None (Some 0)] in
  let w := (run_calls calls (ConnectionPool___init__ 1)).2 in
  allocated_cnt w = 2 ∧ _maximum (pool w) = 1 ∧ ¬ allocated_cnt w ≤ _maximum (pool w).
Proof. vm_compute. repeat split; congruence. Qed.

(** *** The free list and the free token *)

Lemma pool_inv_init N : pool_inv (ConnectionPool___init__ N).
Proof. split; [constructor | intros con Hcon; by apply elem_of_nil in Hcon]. Qed.

Lemma free_list_close con w : free_list (close con w) = free_list w.
Proof. unfold close, DriverConnection_close. by destruct (_closed _). Qed.

Lemma closed_close con w : _closed (get_con (close con w) con) = true.
Proof.
  unfold close, DriverConnection_close.
  destruct (_closed (get_con w con)) eqn:Hc; [exact Hc|].
  unfold get_con, set_cnt, set_con; cbn [conns]. by rewrite lookup_insert_eq.
Qed.

Lemma cnt_close con w : allocated_cnt (close con w) = allocated_cnt w - 1.
Proof. unfold close, DriverConnection_close, allocated_cnt. by destruct (_closed _). Qed.

Lemma pool_inv_free con err ts w : pool_inv w → pool_inv (free con err ts w).
Proof.
  intros [Hnd Hfreed]. unfold free.
  destruct (_is_freed con w) eqn:Hf; [by split|].
  assert (con ∉ free_list w) as Hnotin.
  { intros Hin. apply Hfreed in Hin. congruence. }
  destruct (is_OperationalError err).
  - unfold pool_inv.
    change (free_list (set_no_exhausted true (close con (_mark_free con w))))
      with (free_list (close con (_mark_free con w))).
    rewrite free_list_close.
    split; [exact Hnd|]. intros d Hd.
    change (_is_freed d (close con (_mark_free con w)) = true).
    rewrite is_freed_close. unfold _mark_free. rewrite is_freed_set_con.
    destruct (decide (con = d)); [done | by apply Hfreed].
  - assert (free_list (set_no_exhausted true
               (set_connections (heappush (_connections (pool (_mark_free con w))) (ts, con))
                                (_mark_free con w)))
            ≡ₚ con :: free_list w) as Hperm.
    { unfold free_list; simpl. by rewrite heappush_perm. }
    split.
    + rewrite Hperm. by constructor.
    + intros d Hd. rewrite Hperm in Hd.
      change (_is_freed d (_mark_free con w) = true).
      unfold _mark_free. rewrite is_freed_set_con.
      destruct (decide (con = d)); [done|].
      apply Hfreed. apply elem_of_cons in Hd as [->|Hd]; done.
Qed.

Lemma pool_inv_allocate fuel open_err blocking w :
  pool_inv w → pool_inv ((allocate fuel open_err blocking w).2).
Proof.
  intros [Hnd Hfreed].
  destruct (allocate_cases fuel open_err blocking w)
    as [(ts & con & rest & Hheap & ->)|[(Hheap & Hmax & Hle & ->)|(s & -> & Hs)]];
    simpl.
  - unfold free_list in Hnd, Hfreed. rewrite Hheap in Hnd, Hfreed. simpl in Hnd, Hfreed.
    apply NoDup_cons in Hnd as [Hcon Hnd].
    split; [exact Hnd|]. intros d Hd.
    change (d ∈ rest.*2) in Hd.
    unfold _mark_un_free. rewrite is_freed_set_con.
    destruct (decide (con = d)) as [->|]; [done|].
    apply Hfreed. by right.
  - split.
    + unfold free_list; simpl. rewrite Hheap. constructor.
    + intros d Hd. unfold free_list in Hd; simpl in Hd. rewrite Hheap in Hd.
      by apply elem_of_nil in Hd.
  - by split.
Qed.

Lemma pool_inv_run calls w : pool_inv w → pool_inv ((run_calls calls w).2).
Proof.
  revert w. induction calls as [|c calls IH]; intros w Hinv; [done|].
  simpl. destruct (pool_step c w) as [r w1] eqn:Hstep.
  specialize (IH w1). destruct (run_calls calls w1) as [rs w2]. simpl in *.
  apply IH. destruct c as [fuel open_err blocking|con err ts]; simpl in Hstep.
  - pose proof (pool_inv_allocate fuel open_err blocking w Hinv) as H.
    by rewrite Hstep in H.
  - injection Hstep as _ <-. by apply pool_inv_free.
Qed.

Lemma is_freed_in_dom con w : _is_freed con w = true → con ∈ dom (conns w).
Proof.
  unfold _is_freed, get_con. intros Hf. apply elem_of_dom.
  destruct (conns w !! con); [by eexists | done].
Qed.

Lemma retired_free c con err ts w : retired c w → retired c (free con err ts w).
Proof.
  intros [Hnotin Hf].
  destruct (decide (con = c)) as [->|Hne]; [by rewrite free_freed|].
  split; [|by rewrite is_freed_free_other].
  unfold free. destruct (_is_freed con w); [done|].
  destruct (is_OperationalError err).
  { change (c ∉ free_list (close con (_mark_free con w))).
    by rewrite free_list_close. }
  unfold free_list; simpl. rewrite heappush_perm. simpl.
  intros [Heq|Hin]%elem_of_cons; [congruence | by apply Hnotin].
Qed.

(** [allocate] never hands out a retired connection, and leaves it retired. *)
Lemma retired_allocate c fuel open_err blocking w :
  retired c w →
  retired c ((allocate fuel open_err blocking w).2)
  ∧ (allocate fuel open_err blocking w).1 ≠ Some (ok c).
Proof.
  intros [Hnotin Hf].
  destruct (allocate_cases fuel open_err blocking w)
    as [(ts & con & rest & Hheap & ->)|[(Hheap & Hmax & Hle & ->)|(s & -> & Hs)]];
    simpl.
  - unfold free_list in Hnotin. rewrite Hheap in Hnotin. simpl in Hnotin.
    apply not_elem_of_cons in Hnotin as [Hne Hnotin].
    split; [split|].
    + exact Hnotin.
    + unfold _mark_un_free. rewrite is_freed_set_con. by rewrite decide_False.
    + unfold ok. congruence.
  - assert (fresh (dom (conns w)) ≠ c) as Hne.
    { intros <-. apply is_freed_in_dom in Hf. by apply is_fresh in Hf. }
    split; [split|].
    + unfold free_list; simpl. rewrite Hheap. apply not_elem_of_nil.
    + unfold _mark_un_free. rewrite is_freed_set_con. rewrite decide_False by done.
      change (_is_freed c (set_con (fresh (dom (conns w))) new_DriverConnection w) = true).
      rewrite is_freed_set_con. by rewrite decide_False.
    + unfold ok. congruence.
  - split; [by split | apply Hs].
Qed.

Lemma retired_run c calls w :
  retired c w → c ∉ (run_calls calls w).1.
Proof.
  revert w. induction calls as [|call calls IH]; intros w Hret.
  { apply not_elem_of_nil. }
  simpl. destruct (pool_step call w) as [r w1] eqn:Hstep.
  specialize (IH w1). destruct (run_calls calls w1) as [rs w2]. simpl in *.
  assert (retired c w1 ∧ r ≠ Some (ok c)) as [Hret1 Hr].
  { destruct call as [fuel open_err blocking|con err ts]; simpl in Hstep.
    - pose proof (retired_allocate c fuel open_err blocking w Hret) as H.
      by rewrite Hstep in H.
    - injection Hstep as <- <-. split; [by apply retired_free | done]. }
  specialize (IH Hret1).
  destruct r as [[e|con]|]; [done| |done].
  apply not_elem_of_cons. split; [|done]. intros ->. by apply Hr.
Qed.

(** C3, as the code has it. In a world reached by [allocate] and [free]
    calls, [free] with an operational error on a connection that does not
    already carry the free token retires it: the connection is closed, the
    live count goes down by one, the connection is not on the free list, and
    no later [allocate] returns it. *)
Theorem free_operational_error_retires (N : Z) (before after : list pool_call)
    (con : nat) (ts : Z) :
  let w1 := (run_calls before (ConnectionPool___init__ N)).2 in
  let w2 := free con (Some OperationalError) ts w1 in
  _is_freed con w1 = false →
  _closed (get_con w2 con) = true
  ∧ allocated_cnt w2 = allocated_cnt w1 - 1
  ∧ (con ∉ free_list w2)
  ∧ (con ∉ (run_calls after w2).1).
Proof.
  intros w1 w2 Hf.
  assert (pool_inv w1) as [Hnd Hfreed] by apply pool_inv_run, pool_inv_init.
  assert (con ∉ free_list w1) as Hnotin.
  { intros Hin. apply Hfreed in Hin. congruence. }
  assert (retired con w2) as Hret.
  { split; [|apply is_freed_free].
    unfold w2, free. rewrite Hf.
    change (con ∉ free_list (close con (_mark_free con w1))).
    by rewrite free_list_close. }
  split; [|split; [|split]].
  - unfold w2, free. rewrite Hf.
    change (_closed (get_con (close con (_mark_free con w1)) con) = true).
    apply closed_close.
  - unfold w2, free. rewrite Hf.
    change (allocated_cnt (close con (_mark_free con w1)) = allocated_cnt w1 - 1).
    by rewrite cnt_close.
  - apply Hret.
  - by apply retired_run.
Qed.

Lemma free_operational_error_retires_witness :
  let w1 := (run_calls [Allocate 1 None (Some 0)] (ConnectionPool___init__ 1)).2 in
  let w2 := free 0 (Some OperationalError) 5 w1 in
  _is_freed 0 w1 = false
  ∧ _closed (get_con w2 0) = true
  ∧ allocated_cnt w2 = allocated_cnt w1 - 1
  ∧ (0%nat ∉ free_list w2)
  ∧ (0%nat ∉ (run_calls [Allocate 1 None (Some 0); Free 0 None 6;
                          Allocate 1 None (Some 0)] w2).1).
Proof.
  split; [reflexivity|].
  apply (free_operational_error_retires 1 [Allocate 1 None (Some 0)]
           [Allocate 1 None (Some 0); Free 0 None 6; Allocate 1 None (Some 0)] 0 5).
  reflexivity.
Defined.

(** C3 as stated fails on a connection that already carries the free token:
    [free] returns at its first test. The connection was freed without
    error, is then freed with an operational error, and stays open, counted
    and on the free list; the next [allocate] returns it. *)
Lemma free_operational_error_on_freed_connection :
  let w1 := (run_calls [Allocate 1 None (Some 0); Free 0 None 0]
               (ConnectionPool___init__ 1)).2 in
  let w2 := free 0 (Some OperationalError) 1 w1 in
  _closed (get_con w2 0) = false
  ∧ allocated_cnt w2 = allocated_cnt w1
  ∧ free_list w2 = [0%nat]
  ∧ (run_calls [Allocate 1 None (Some 0)] w2).1 = [0%nat].
Proof. vm_compute. repeat split; reflexivity. Qed.

(** ** The query context *)

Lemma alias_of_inj a b : alias_of a = alias_of b → a = b.
Proof.
  unfold alias_of. intros H. apply (inj (String.app "t")) in H.
  by apply (inj pretty) in H.
Qed.

Lemma aliased_registered ctx seen m :
  aliased ctx seen → m ∈ seen → is_Some (mappers ctx !! m).
Proof.
  intros Hal (k & Hk)%list_elem_of_lookup.
  destruct (aliased_lookup _ _ Hal k m Hk) as [Hm _]. by eexists.
Qed.

Lemma add_registered m ctx :
  is_Some (mappers ctx !! m) → _add_table_mapper m ctx = ctx.
Proof. intros [a Ha]. unfold _add_table_mapper. by rewrite Ha. Qed.

Lemma aliased_add ctx seen m :
  aliased ctx seen →
  aliased (_add_table_mapper m ctx) (if decide (m ∈ seen) then seen else seen ++ [m]).
Proof.
  intros Hal. destruct (decide (m ∈ seen)) as [Hin|Hnotin].
  { rewrite add_registered; [done|]. by eapply aliased_registered. }
  assert (mappers ctx !! m = None) as Hnone.
  { destruct (mappers ctx !! m) eqn:Hm; [|done].
    exfalso. apply Hnotin. eapply aliased_dom; [done|by eexists]. }
  unfold _add_table_mapper. rewrite Hnone.
  rewrite (aliased_size _ _ Hal), Nat.add_1_r.
  constructor; cbn [mappers alias_map].
  - apply NoDup_app. split; [by apply aliased_nodup with ctx|]. split.
    + intros x Hx ->%list_elem_of_singleton. done.
    + apply NoDup_singleton.
  - rewrite map_size_insert_None by done.
    rewrite (aliased_size _ _ Hal), length_app. simpl. lia.
  - intros k m' Hk.
    destruct (decide (k < length seen)%nat) as [Hlt|Hge].
    + rewrite lookup_app_l in Hk by done.
      destruct (aliased_lookup _ _ Hal k m' Hk) as [Hm Ha].
      assert (m' ≠ m) as Hne.
      { intros ->. apply Hnotin. by eapply list_elem_of_lookup_2. }
      rewrite lookup_insert_ne by done.
      rewrite lookup_insert_ne; [done|].
      intros Heq%alias_of_inj. lia.
    + rewrite lookup_app_r in Hk by lia.
      destruct (k - length seen)%nat as [|j] eqn:Hj; [|done].
      injection Hk as <-.
      assert (k = length seen) as -> by lia.
      by rewrite !lookup_insert_eq.
  - intros m' [a Ha]. destruct (decide (m = m')) as [<-|Hne].
    + apply elem_of_app. right. by apply list_elem_of_singleton.
    + rewrite lookup_insert_ne in Ha by done.
      apply elem_of_app. left. eapply aliased_dom; [done|by eexists].
Qed.

Lemma aliased_register_all ms ctx seen :
  aliased ctx seen → aliased (register_all ms ctx) (first_seen_from seen ms).
Proof.
  revert ctx seen. induction ms as [|m ms IH]; intros ctx seen Hal; [done|].
  simpl. apply IH. by apply aliased_add.
Qed.

Lemma aliased_blank table_mapper db : aliased (blank_context table_mapper db) [].
Proof.
  constructor; simpl.
  - constructor.
  - apply map_size_empty.
  - intros k m Hk. by rewrite lookup_nil in Hk.
  - intros m [a Ha]. by rewrite lookup_empty in Ha.
Qed.

Lemma first_seen_from_elem m acc l :
  m ∈ acc ∨ m ∈ l → m ∈ first_seen_from acc l.
Proof.
  revert acc. induction l as [|x l IH]; intros acc [Hacc|Hl]; simpl.
  - done.
  - by apply elem_of_nil in Hl.
  - apply IH. left. destruct (decide (x ∈ acc)); [done|].
    apply elem_of_app. by left.
  - apply IH. apply elem_of_cons in Hl as [->|Hl]; [left|by right].
    destruct (decide (x ∈ acc)); [done|].
    apply elem_of_app. right. by apply list_elem_of_singleton.
Qed.

(** C9. In one context every distinct mapper gets one alias, [t1], [t2], …
    in first-seen order, recorded in both alias tables; every alias in the
    context arises this way; and registering a mapper again leaves the
    context as it is. *)
Theorem aliases_in_first_seen_order (base : TableMapper) (db : Database)
    (ms : list TableMapper) :
  let ctx := register_all ms (ExecContext___init__ base db) in
  (∀ k m, first_seen (base :: ms) !! k = Some m →
          mappers ctx !! m = Some (alias_of (S k))
          ∧ alias_map ctx !! alias_of (S k) = Some m)
  ∧ (∀ m a, mappers ctx !! m = Some a →
            ∃ k, first_seen (base :: ms) !! k = Some m ∧ a = alias_of (S k))
  ∧ (∀ m1 m2 a, mappers ctx !! m1 = Some a → mappers ctx !! m2 = Some a → m1 = m2)
  ∧ (∀ m, m ∈ base :: ms → _add_table_mapper m ctx = ctx).
Proof.
  intros ctx.
  assert (aliased ctx (first_seen (base :: ms))) as Hal.
  { apply (aliased_register_all (base :: ms) (blank_context base db) []).
    apply aliased_blank. }
  assert (∀ m a, mappers ctx !! m = Some a →
                 ∃ k, first_seen (base :: ms) !! k = Some m ∧ a = alias_of (S k)) as Hall.
  { intros m a Hm.
    assert (m ∈ first_seen (base :: ms)) as (k & Hk)%list_elem_of_lookup.
    { eapply aliased_dom; [done|by eexists]. }
    exists k. split; [done|].
    destruct (aliased_lookup _ _ Hal k m Hk) as [Hm' _]. congruence. }
  split; [|split; [|split]].
  - intros k m Hk. by apply (aliased_lookup _ _ Hal).
  - exact Hall.
  - intros m1 m2 a H1 H2.
    destruct (Hall m1 a H1) as (k1 & Hk1 & ->).
    destruct (Hall m2 _ H2) as (k2 & Hk2 & Heq%alias_of_inj).
    injection Heq as <-. congruence.
  - intros m Hm. apply add_registered. eapply aliased_registered; [done|].
    apply first_seen_from_elem. by right.
Qed.

Lemma aliases_in_first_seen_order_witness :
  let ctx := register_all [AuthorBooks; Books; Authors] (ExecContext___init__ Books Database_base) in
  first_seen [Books; AuthorBooks; Books; Authors] !! 2%nat = Some Authors
  ∧ mappers ctx !! Authors = Some "t3"
  ∧ alias_map ctx !! "t3" = Some Authors
  ∧ _add_table_mapper AuthorBooks ctx = ctx.
Proof.
  pose proof (aliases_in_first_seen_order Books Database_base [AuthorBooks; Books; Authors])
    as (Hfirst & _ & _ & Hagain).
  split; [reflexivity|].
  destruct (Hfirst 2%nat Authors eq_refl) as [Hm Ha].
  split; [exact Hm|]. split; [exact Ha|].
  apply Hagain. apply list_elem_of_In. simpl. auto.
Defined.

Lemma add_lookup_inv m m' ctx :
  is_Some (mappers (_add_table_mapper m ctx) !! m') →
  m' = m ∨ is_Some (mappers ctx !! m').
Proof.
  unfold _add_table_mapper. destruct (mappers ctx !! m) eqn:Hm; [by right|].
  cbn [mappers]. destruct (decide (m = m')) as [->|Hne]; [by left|].
  rewrite lookup_insert_ne by done. by right.
Qed.

Lemma join_all_lookup_inv js ctx m :
  is_Some (mappers (join_all js ctx) !! m) →
  is_Some (mappers ctx !! m) ∨ m ∈ js.*1.*1.
Proof.
  revert ctx. induction js as [|[[other on] kind] js IH]; intros ctx Hm; [by left|].
  simpl in Hm. apply IH in Hm as [Hm|Hm].
  - unfold _join_ctx in Hm. apply add_lookup_inv in Hm as [->|Hm].
    + right. simpl. by left.
    + by left.
  - right. simpl. by right.
Qed.

(** C5, as the code has it. A column whose mapper is neither the base
    mapper of the context nor joined into it makes [get_col_name] fail, and
    the failure is the [KeyError] of the dictionary subscript. *)
Theorem get_col_name_unregistered (base : TableMapper) (db : Database)
    (js : list (TableMapper * (Column * value) * string)) (col : Column) :
  (∀ m, table_mapper col = Some m → m ≠ base ∧ m ∉ js.*1.*1) →
  get_col_name (join_all js (ExecContext___init__ base db)) col = raise KeyError.
Proof.
  intros Hcol. unfold get_col_name.
  destruct (table_mapper col) as [m|]; [|done].
  destruct (Hcol m eq_refl) as [Hbase Hjs].
  destruct (mappers _ !! m) eqn:Hm; [|done].
  exfalso.
  assert (is_Some (mappers (join_all js (ExecContext___init__ base db)) !! m)) as Hsome
    by (by eexists).
  apply join_all_lookup_inv in Hsome as [Hsome|Hin]; [|done].
  apply add_lookup_inv in Hsome as [->|[a Ha]]; [done|].
  cbn [mappers] in Ha. by rewrite lookup_empty in Ha.
Qed.

Lemma get_col_name_unregistered_witness :
  get_col_name
    (join_all [(AuthorBooks, (Books_id, VCol AuthorBooks_book_id), LEFT_JOIN)]
              (ExecContext___init__ Books Database_base))
    Authors_id
  = raise KeyError.
Proof.
  apply get_col_name_unregistered.
  intros m [= <-]. split; [discriminate|].
  intros Hin. apply list_elem_of_In in Hin. simpl in Hin.
  destruct Hin as [Heq|[]]. discriminate.
Defined.

(** C5 as stated fails: the error of an unregistered mapper is a
    [KeyError], not the configuration error. *)
Lemma get_col_name_unregistered_is_key_error :
  get_col_name (ExecContext___init__ Books Database_base) Authors_id = raise KeyError
  ∧ get_col_name (ExecContext___init__ Books Database_base) Authors_id
    ≠ raise ImproperlyConfig.
Proof. split; [reflexivity | discriminate]. Qed.

(** ** Dirty tracking and the update plan *)

Lemma holder_of_set_holder i h s j :
  holder_of (set_holder i h s) j
  = if decide (inst_class i = inst_class j ∧ inst_id i = inst_id j)
    then match manager_of s (inst_class i) with
         | Some _ => h
         | None => holder_of s j
         end
    else holder_of s j.
Proof.
  unfold set_holder, holder_of, manager_of.
  destruct (tracking s !! inst_class i) as [mgr|] eqn:Hmgr; cbn [tracking].
  - destruct (decide (inst_class i = inst_class j)) as [Hc|Hc].
    + rewrite <- Hc, lookup_insert_eq, Hmgr. cbn [_holders].
      destruct (decide (inst_id i = inst_id j)) as [Hi|Hi].
      * rewrite decide_True by done. by rewrite <- Hi, lookup_insert_eq.
      * rewrite decide_False by tauto. by rewrite lookup_insert_ne.
    + rewrite decide_False by tauto. by rewrite lookup_insert_ne.
  - by destruct (decide _).
Qed.

(** Writing back the holder an instance already has is not observable. *)
Lemma holder_of_set_holder_same i s j :
  holder_of (set_holder i (holder_of s i) s) j = holder_of s j.
Proof.
  rewrite holder_of_set_holder.
  destruct (decide _) as [[Hc Hi]|]; [|done].
  destruct (manager_of s (inst_class i)); [|done].
  unfold holder_of. by rewrite Hc, Hi.
Qed.

Lemma tracked_set_holder i h s cls :
  is_Some (tracking (set_holder i h s) !! cls) ↔ is_Some (tracking s !! cls).
Proof.
  unfold set_holder, manager_of.
  destruct (tracking s !! inst_class i) as [mgr|] eqn:Hmgr; [|done].
  cbn [tracking]. destruct (decide (inst_class i = cls)) as [<-|Hne].
  - rewrite lookup_insert_eq, Hmgr. split; by eexists.
  - by rewrite lookup_insert_ne.
Qed.

Lemma fields_set_holder i h s cls :
  _fields <$> (tracking (set_holder i h s) !! cls) = _fields <$> (tracking s !! cls).
Proof.
  unfold set_holder, manager_of.
  destruct (tracking s !! inst_class i) as [mgr|] eqn:Hmgr; [|done].
  cbn [tracking]. destruct (decide (inst_class i = cls)) as [<-|Hne].
  - by rewrite lookup_insert_eq, Hmgr.
  - by rewrite lookup_insert_ne.
Qed.

Lemma same_tracking_refl w : same_tracking w w.
Proof. by intros i. Qed.

Lemma same_tracking_trans w1 w2 w3 :
  same_tracking w1 w2 → same_tracking w2 w3 → same_tracking w1 w3.
Proof. intros H12 H23 i. by rewrite H23, H12. Qed.

Lemma untouched_refl w : untouched w w.
Proof. repeat split; (done || apply same_tracking_refl). Qed.

Lemma untouched_trans w1 w2 w3 :
  untouched w1 w2 → untouched w2 w3 → untouched w1 w3.
Proof.
  intros (Hs12 & Hi12 & Hp12 & Hc12 & Ht12) (Hs23 & Hi23 & Hp23 & Hc23 & Ht23).
  split; [by eapply same_tracking_trans|].
  repeat split; try congruence; intros H.
  - by apply Ht12, Ht23.
  - by apply Ht23, Ht12.
Qed.

(** Storing the holder an instance already has leaves the world untouched. *)
Lemma untouched_set_holder_same i w :
  untouched w (set_store (set_holder i (holder_of (store w) i) (store w)) w).
Proof.
  split; [|repeat split].
  - intros j. cbn [store set_store]. apply holder_of_set_holder_same.
  - unfold tracked. cbn [store set_store]. by intros H%tracked_set_holder.
  - unfold tracked. cbn [store set_store]. intros H. by apply tracked_set_holder.
Qed.

(** The monad: what a bind that raised, or returned, went through. *)
Lemma mbind_raised {A B} (m : M A) (k : A → M B) w e w' :
  mbind m k w = (inl e, w') →
  m w = (inl e, w') ∨ ∃ a w1, m w = (inr a, w1) ∧ k a w1 = (inl e, w').
Proof.
  unfold mbind. destruct (m w) as [[e1|a] w1]; cbn; intros H.
  - left. by injection H as -> ->.
  - right. by exists a, w1.
Qed.

Lemma mbind_returned {A B} (m : M A) (k : A → M B) w b w' :
  mbind m k w = (inr b, w') →
  ∃ a w1, m w = (inr a, w1) ∧ k a w1 = (inr b, w').
Proof.
  unfold mbind. destruct (m w) as [[e1|a] w1]; cbn; intros H; [done|].
  by exists a, w1.
Qed.

Lemma quiet_mret {A} (a : A) : quiet (mret a).
Proof. intros w r w' [= _ <-]. apply untouched_refl. Qed.

Lemma quiet_mraise {A} e : quiet (@mraise A e).
Proof. intros w r w' [= _ <-]. apply untouched_refl. Qed.

Lemma quiet_lift {A} (x : result A) : quiet (lift x).
Proof. intros w r w' [= _ <-]. apply untouched_refl. Qed.

Lemma quiet_mbind {A B} (m : M A) (k : A → M B) :
  quiet m → (∀ a, quiet (k a)) → quiet (mbind m k).
Proof.
  intros Hm Hk w r w'. unfold mbind.
  destruct (m w) as [[e|a] w1] eqn:Hmw; intros H.
  - injection H as _ <-. by eapply Hm.
  - eapply untouched_trans; [by eapply Hm | by eapply Hk].
Qed.

Lemma quiet_for_each {A S} (l : list A) (body : A → S → M S) acc :
  (∀ x s, quiet (body x s)) → quiet (for_each l body acc).
Proof.
  intros Hbody. revert acc. induction l as [|x l IH]; intros acc; simpl.
  - apply quiet_mret.
  - apply quiet_mbind; [apply Hbody | intros a; apply IH].
Qed.

Lemma quiet_get_holder i : quiet (get_holder i).
Proof.
  intros w r w'. unfold get_holder.
  destruct (manager_of (store w) (inst_class i)) as [mgr|] eqn:Hmgr.
  2:{ intros [= _ <-]. apply untouched_refl. }
  destruct (_holders mgr !! inst_id i) eqn:Hh; intros [= _ <-].
  { apply untouched_refl. }
  assert (TrackingHolder___init__ = holder_of (store w) i) as ->.
  { unfold holder_of. by rewrite Hmgr, Hh. }
  apply untouched_set_holder_same.
Qed.

Lemma quiet_holder_dirty_fields_map h : quiet (holder_dirty_fields_map h).
Proof. intros w r w' [= _ <-]. apply untouched_refl. Qed.

Lemma quiet_getattr i name : quiet (getattr i name).
Proof.
  intros w r w'. unfold getattr.
  destruct (manager_of (store w) (inst_class i)) as [mgr|].
  - destruct (_fields mgr !! name).
    + intros [= _ <-]. apply untouched_set_holder_same.
    + destruct (_ ≫= _); intros [= _ <-]; apply untouched_refl.
  - destruct (_ ≫= _); intros [= _ <-]; apply untouched_refl.
Qed.

(** [execute_rowcount] works on the pool and the driver only. *)
Lemma execute_rowcount_store db drv query parameters w r w' :
  execute_rowcount db drv query parameters w = (r, w') → store w' = store w.
Proof.
  unfold execute_rowcount, Database__execute.
  destruct (allocate 1 (open_err drv) (Some 0) (pw w)) as [[[e|con]|] p1].
  - by intros [= _ <-].
  - destruct (cursor_err drv); [by intros [= _ <-]|].
    destruct (cursor_execute drv query parameters); [destruct (bool_decide _)|];
      by intros [= _ <-].
  - by intros [= _ <-].
Qed.

(** When [execute_rowcount] returns, the driver has executed this statement
    and answered with the row count. *)
Lemma execute_rowcount_returned db drv query parameters w n w' :
  execute_rowcount db drv query parameters w = (inr n, w') →
  cursor_execute drv query parameters = inr n
  ∧ issued w' = issued w ++ [(query, parameters)].
Proof.
  unfold execute_rowcount, Database__execute.
  destruct (allocate 1 (open_err drv) (Some 0) (pw w)) as [[[e|con]|] p1]; [done| |done].
  destruct (cursor_err drv); [done|].
  destruct (cursor_execute drv query parameters) as [e|m];
    [by destruct (bool_decide _)|].
  by intros [= <- <-].
Qed.

(** When the driver raises on a statement, so does [execute_rowcount]. *)
Lemma execute_rowcount_driver_raises db drv query parameters w e :
  cursor_execute drv query parameters = inl e →
  ∃ e' w', execute_rowcount db drv query parameters w = (inl e', w').
Proof.
  intros Hexec. unfold execute_rowcount, Database__execute. rewrite Hexec.
  destruct (allocate 1 (open_err drv) (Some 0) (pw w)) as [[[e1|con]|] p1];
    [by eauto| |by eauto].
  destruct (cursor_err drv); [by eauto|].
  destruct (bool_decide _); by eauto.
Qed.

Create HintDb quiet.
#[local] Hint Resolve quiet_mret quiet_mraise quiet_lift quiet_get_holder
  quiet_holder_dirty_fields_map quiet_getattr : quiet.

(** Quietness follows the shape of the code: binds, loops, branches. *)
Ltac quiet_step :=
  match goal with
  | |- quiet (mbind _ _) => apply quiet_mbind
  | |- quiet (for_each _ _ _) => apply quiet_for_each
  | |- quiet (match ?x with _ => _ end) => destruct x
  | |- ∀ _, _ => intros
  | |- quiet _ => solve [eauto with quiet]
  end.

Lemma quiet_fields_loop env self instance table_mapper dirty field_names acc :
  quiet (fields_loop env self instance table_mapper dirty field_names acc).
Proof. unfold fields_loop. repeat quiet_step. Qed.

#[local] Hint Resolve quiet_fields_loop : quiet.

Lemma quiet_instance_body env self instance l :
  quiet (instance_body env self instance l).
Proof. unfold instance_body. repeat quiet_step. Qed.

Lemma dirty_fields_map_clean h :
  _dirty h = ∅ → dirty_fields_map h = ok ∅.
Proof. intros Hd. unfold dirty_fields_map. by rewrite Hd, elements_empty. Qed.

Lemma dirty_fields_map_empty h :
  dirty_fields_map h = ok ∅ → _dirty h = ∅.
Proof.
  unfold dirty_fields_map. intros Hm.
  destruct (elements (_dirty h)) as [|k rest] eqn:Hel.
  { apply leibniz_equiv. by apply elements_empty_inv. }
  exfalso. simpl in Hm.
  destruct (foldr _ _ rest) as [e|m]; [done|]. simpl in Hm.
  destruct (_values_map h !! k); [|done].
  injection Hm as Hm. by apply insert_non_empty in Hm.
Qed.

(** [holder.reset()] on one holder: that holder is clean afterwards, a
    clean one stays clean, and no statement is sent. *)
Lemma holder_reset_spec h w :
  ∃ w', holder_reset h w = (ok (), w')
        ∧ dirty_of w' h = ∅
        ∧ (∀ i, dirty_of w i = ∅ → dirty_of w' i = ∅)
        ∧ issued w' = issued w.
Proof.
  eexists. split; [reflexivity|]. unfold dirty_of. cbn [store set_store].
  split; [|split; [|done]].
  - rewrite holder_of_set_holder. rewrite decide_True by done.
    destruct (manager_of (store w) (inst_class h)) eqn:Hmgr; [done|].
    unfold holder_of. by rewrite Hmgr.
  - intros i Hi. rewrite holder_of_set_holder.
    destruct (decide _); [|done].
    by destruct (manager_of (store w) (inst_class h)).
Qed.

(** The loop [for holder in holders: holder.reset()] returns, and every
    holder of the list is clean afterwards. *)
Lemma reset_all_spec hs w :
  ∃ w', for_each hs (λ holder _, holder_reset holder) () w = (ok (), w')
        ∧ (∀ i, i ∈ hs → dirty_of w' i = ∅)
        ∧ (∀ i, dirty_of w i = ∅ → dirty_of w' i = ∅)
        ∧ issued w' = issued w.
Proof.
  revert w. induction hs as [|h hs IH]; intros w.
  { exists w. split; [done|]. split; [|done]. intros i Hi. by apply elem_of_nil in Hi. }
  destruct (holder_reset_spec h w) as (w1 & Hreset & Hh & Hkeep & Hiss).
  destruct (IH w1) as (w' & Hrest & Hin & Hkeep' & Hiss').
  exists w'. split.
  { simpl. unfold mbind. rewrite Hreset. exact Hrest. }
  split; [|split; [|congruence]].
  - intros i [->|Hi]%elem_of_cons; [by apply Hkeep' | by apply Hin].
  - intros i Hi. by apply Hkeep', Hkeep.
Qed.

Lemma fields_loop_returned env self instance table_mapper dirty field_names fs ar fs' ar' w w' :
  fields_loop env self instance table_mapper dirty field_names (fs, ar) w
  = (inr (fs', ar'), w') →
  length fs' = (length fs + length field_names)%nat.
Proof.
  unfold fields_loop. revert fs ar w.
  induction field_names as [|f_name names IH]; intros fs ar w Hrun.
  { injection Hrun as <- _ _. simpl. lia. }
  simpl in Hrun. apply mbind_returned in Hrun as ([fs1 ar1] & w1 & Hx & Hrun).
  apply IH in Hrun. rewrite Hrun. simpl.
  enough (length fs1 = S (length fs)) by lia.
  destruct (get_column _ f_name); [|done].
  apply mbind_returned in Hx as (col_name & w2 & _ & Hx).
  apply mbind_returned in Hx as (v & w3 & _ & Hx).
  destruct v; try done; injection Hx as <- _ _; rewrite length_app; simpl; lia.
Qed.

(** One pass of the loop over the instances, when it returns: the holder is
    recorded, and either the instance was clean and skipped, or a field was
    added. *)
Lemma instance_body_returned env self instance l w l' w' :
  instance_body env self instance l w = (inr l', w') →
  holders l' = holders l ++ [instance]
  ∧ ((field_s l' = field_s l ∧ dirty_of w' instance = ∅)
     ∨ (length (field_s l) < length (field_s l'))%nat).
Proof.
  intros Hrun.
  assert (same_tracking w w') as Hsame by (by eapply quiet_instance_body).
  unfold instance_body in Hrun.
  apply mbind_returned in Hrun as (oh & w1 & Hget & Hrun).
  assert (same_tracking w w1) as Hsame1 by (by eapply quiet_get_holder).
  assert (oh = None ∨ oh = Some instance) as [->| ->]; [|done|].
  { unfold get_holder in Hget.
    destruct (manager_of _ _) as [mgr|]; [destruct (_holders mgr !! _)|];
      injection Hget as Ho _; auto. }
  apply mbind_returned in Hrun as (dirty & w2 & Hdirty & Hrun).
  injection Hdirty as Hdirty <-.
  destruct (bool_decide (dirty = ∅)) eqn:Hempty; simpl in Hrun.
  - apply bool_decide_eq_true in Hempty as ->.
    apply dirty_fields_map_empty in Hdirty.
    assert (dirty_of w' instance = ∅) as Hclean.
    { unfold dirty_of. by rewrite Hsame, <- Hsame1. }
    destruct (_only_dirty self) eqn:Honly.
    { injection Hrun as <- <-. split; [done|]. by left. }
    destruct (resolve_mapper _ _ _) as [table_mapper|]; [|done].
    apply mbind_returned in Hrun as (info & w3 & Hinfo & Hrun).
    apply mbind_returned in Hrun as ([fs ar] & w4 & Hloop & Hrun).
    apply fields_loop_returned in Hloop.
    assert (info ≠ []) as Hne.
    { injection Hinfo as Hinfo _. unfold get_entity_info in Hinfo.
      destruct (class_fields env _); [done|]. by injection Hinfo as <-. }
    assert (length (field_s l) < length fs)%nat as Hlt.
    { destruct info; [done|]. simpl in Hloop. lia. }
    destruct (elements _).
    + injection Hrun as <- <-. split; [done|]. by right.
    + apply mbind_returned in Hrun as (v & w5 & _ & Hrun).
      injection Hrun as <- <-. split; [done|]. by right.
  - apply bool_decide_eq_false in Hempty.
    destruct (resolve_mapper _ _ _) as [table_mapper|]; [|done].
    apply mbind_returned in Hrun as (info & w3 & Hinfo & Hrun).
    apply mbind_returned in Hrun as ([fs ar] & w4 & Hloop & Hrun).
    apply fields_loop_returned in Hloop.
    assert (length (field_s l) < length fs)%nat as Hlt.
    { destruct (_only_dirty self).
      - rewrite length_fmap in Hloop.
        destruct (map_to_list dirty) eqn:Hl.
        + by apply map_to_list_empty_iff in Hl.
        + simpl in Hloop. lia.
      - injection Hinfo as Hinfo _. unfold get_entity_info in Hinfo.
        destruct (class_fields env _); [done|]. injection Hinfo as <-.
        simpl in Hloop. lia. }
    destruct (elements _).
    + injection Hrun as <- <-. split; [done|]. by right.
    + apply mbind_returned in Hrun as (v & w5 & _ & Hrun).
      injection Hrun as <- <-. split; [done|]. by right.
Qed.

(** The loop over the instances, when it returns: every instance has its
    holder recorded, and if no field was added then all of them are clean. *)
Lemma instances_loop_returned env self instances l w l' w' :
  for_each instances (instance_body env self) l w = (inr l', w') →
  holders l' = holders l ++ instances
  ∧ (length (field_s l) ≤ length (field_s l'))%nat
  ∧ (length (field_s l') = length (field_s l) →
     ∀ i, i ∈ instances → dirty_of w' i = ∅).
Proof.
  revert l w. induction instances as [|x instances IH]; intros l w Hrun.
  { injection Hrun as <- <-. rewrite app_nil_r. repeat split; [lia|].
    intros _ i Hi. by apply elem_of_nil in Hi. }
  simpl in Hrun. apply mbind_returned in Hrun as (l1 & w1 & Hx & Hrun).
  assert (same_tracking w1 w') as Hsame.
  { eapply quiet_for_each; [|exact Hrun]. intros; apply quiet_instance_body. }
  apply instance_body_returned in Hx as (Hh1 & Hcase).
  apply IH in Hrun as (Hh & Hlen & Hclean).
  split; [by rewrite Hh, Hh1, <- app_assoc|].
  destruct Hcase as [[Hfs Hx]|Hlt].
  - rewrite Hfs in Hlen, Hclean. split; [done|].
    intros Heq i [->|Hi]%elem_of_cons; [|by apply Hclean].
    unfold dirty_of. by rewrite Hsame.
  - split; [lia|]. intros Heq. lia.
Qed.


(** Every way [_execute] can end: the ledgers are as before (and, if the
    plan returned, no statement was sent and [affected_cnt] is as it was),
    or the plan returned after the driver executed one statement, whose row
    count is the plan's [affected_cnt]. *)
Lemma _execute_outcome env drv self w r w' :
  _execute env drv self w = (r, w') →
  (same_tracking w w'
   ∧ ∀ p, r = inr p → issued w' = issued w ∧ affected_cnt p = affected_cnt self)
  ∨ (∃ p sql parameters,
        r = inr p
        ∧ cursor_execute drv sql parameters = inr (affected_cnt p)
        ∧ issued w' = issued w ++ [(sql, parameters)]).
Proof.
  unfold _execute. destruct (_instances self) as [|i0 rest] eqn:Hinst.
  { intros [= <- <-]. left. split; [apply same_tracking_refl|done]. }
  rewrite <- Hinst. clear Hinst i0 rest.
  unfold mbind at 1.
  destruct (for_each _ _ _ w) as [[e|l] w1] eqn:Hloop.
  { intros [= <- <-]. left. split; [|done].
    eapply quiet_for_each; [|exact Hloop]. intros; apply quiet_instance_body. }
  assert (untouched w w1) as (Hs1 & Hi1 & _).
  { eapply quiet_for_each; [|exact Hloop]. intros; apply quiet_instance_body. }
  destruct (field_s l) as [|f fs].
  { intros [= <- <-]. left. split; [done|]. by intros p [= <-]. }
  unfold mbind at 1.
  match goal with
  | |- match ?x with _ => _ end = _ → _ => destruct x as [[e|[ws ar]] w2] eqn:Hw
  end.
  { intros [= <- <-]. left. split; [|done].
    assert (w2 = w1) as ->; [|done].
    destruct (where_expr (_ctx self)); [|by injection Hw].
    apply mbind_raised in Hw as [Hw|([? ?] & ? & _ & Hw)]; [by injection Hw|done]. }
  assert (w2 = w1) as ->.
  { destruct (where_expr (_ctx self)); [|by injection Hw].
    apply mbind_returned in Hw as ([? ?] & ? & Hw & Hret).
    injection Hw as _ <-. by injection Hret. }
  destruct ws as [|w0 ws].
  { intros [= <- <-]. left. by split. }
  unfold mbind at 1. unfold lift at 1.
  destruct (get_joins_sql env (_ctx self)) as [e|joins_sql].
  { intros [= <- <-]. left. by split. }
  unfold mbind at 1.
  destruct (execute_rowcount _ _ _ _ w1) as [[e|n] w4] eqn:Hexec.
  { intros [= <- <-]. left. split; [|done].
    apply execute_rowcount_store in Hexec as Hst.
    intros i. rewrite Hst. apply Hs1. }
  apply execute_rowcount_returned in Hexec as [Hdrv Hiss].
  destruct (reset_all_spec (holders l) w4) as (w5 & Hok & _ & _ & Hiss5).
  unfold mbind at 1. rewrite Hok. intros [= <- <-].
  right. do 3 eexists. split; [reflexivity|]. split; [exact Hdrv|].
  cbn [affected_cnt _affected_cnt]. congruence.
Qed.

(** Whatever [_execute] raises, it raises before the first [reset]. *)
Lemma _execute_raised env drv self w e w' :
  _execute env drv self w = (inl e, w') → same_tracking w w'.
Proof.
  intros Hrun.
  apply _execute_outcome in Hrun as [[Hs _]|(p & sql & parameters & Hr & _)]; done.
Qed.

(** When [_execute] returns, every instance of the plan is clean. *)
Lemma _execute_returned env drv self w p w' :
  _execute env drv self w = (inr p, w') →
  ∀ i, i ∈ _instances self → dirty_of w' i = ∅.
Proof.
  unfold _execute. destruct (_instances self) as [|i0 rest] eqn:Hinst; [done|].
  rewrite <- Hinst. clear Hinst i0 rest.
  intros (l & w1 & Hloop & Hrun)%mbind_returned.
  apply instances_loop_returned in Hloop as (Hh & _ & Hclean).
  simpl in Hh, Hclean.
  destruct (field_s l) as [|f fs].
  { injection Hrun as _ <-. by apply Hclean. }
  apply mbind_returned in Hrun as ([ws ar] & w2 & _ & Hrun).
  destruct ws as [|w0 ws]; [done|].
  apply mbind_returned in Hrun as (joins_sql & w3 & _ & Hrun).
  apply mbind_returned in Hrun as (n & w4 & _ & Hrun).
  apply mbind_returned in Hrun as (u & w5 & Hreset & Hret).
  injection Hret as _ <-.
  destruct (reset_all_spec (holders l) w4) as (w6 & Hok & Hin & _).
  rewrite Hok in Hreset. injection Hreset as _ <-.
  intros i Hi. apply Hin. by rewrite Hh.
Qed.

(** C10. If the database [execute] raises while an [UpdatePlan] executes,
    the ledger of every instance is left as it was: with a driver whose
    [execute] raises, and more generally whenever [_execute] raises, the
    dirty sets and values are unchanged; and a dirty set changes only when
    the plan has returned after the driver executed the statement. *)
Theorem update_failure_keeps_dirty_state (env : ClassEnv) (drv : Driver)
    (self : UpdatePlan) (w : World) :
  ((∀ sql parameters, ∃ e, cursor_execute drv sql parameters = inl e) →
   ∀ r w', _execute env drv self w = (r, w') →
           ∀ instance, holder_of (store w') instance = holder_of (store w) instance)
  ∧ (∀ e w', _execute env drv self w = (inl e, w') →
             ∀ instance,
               holder_of (store w') instance = holder_of (store w) instance
               ∧ dirty_of w' instance = dirty_of w instance)
  ∧ (∀ r w', _execute env drv self w = (r, w') →
             (∃ instance, dirty_of w' instance ≠ dirty_of w instance) →
             ∃ p sql parameters,
               r = inr p
               ∧ cursor_execute drv sql parameters = inr (affected_cnt p)
               ∧ issued w' = issued w ++ [(sql, parameters)]).
Proof.
  split; [|split].
  - intros Hdown r w' Hrun.
    apply _execute_outcome in Hrun as [[Hs _]|(p & sql & parameters & _ & Hdrv & _)].
    + exact Hs.
    + destruct (Hdown sql parameters) as [e He]. congruence.
  - intros e w' Hrun instance. apply _execute_raised in Hrun.
    unfold dirty_of. by rewrite Hrun.
  - intros r w' Hrun [instance Hchanged].
    apply _execute_outcome in Hrun as [[Hs _]|Hdone]; [|exact Hdone].
    exfalso. apply Hchanged. unfold dirty_of. by rewrite Hs.
Qed.

Lemma update_failure_keeps_dirty_state_witness :
  let book := {| inst_id := 7%nat; inst_class := Book |} in
  let plan := {| _ctx := Books_context; _instances := [book]; _affected_cnt := 0;
                 _only_dirty := true |} in
  let run := _execute test_env driver_down plan renamed_book.2 in
  run.1 = raise OperationalError
  ∧ dirty_of renamed_book.2 book = {[ "name" ]}
  ∧ dirty_of run.2 book = dirty_of renamed_book.2 book.
Proof.
  intros book plan run.
  assert (run = (inl OperationalError, run.2)) as Hrun by (by vm_compute).
  split; [by vm_compute|]. split; [by vm_compute|].
  exact (proj2 (proj1 (proj2 (update_failure_keeps_dirty_state
                                test_env driver_down plan renamed_book.2))
                  OperationalError run.2 Hrun book)).
Defined.

(** One pass over a clean instance of a tracked class in only-dirty mode:
    the holder is recorded and nothing else happens. *)
Lemma instance_body_clean env self i l w :
  _only_dirty self = true → tracked w (inst_class i) → dirty_of w i = ∅ →
  ∃ w', instance_body env self i l w
        = (ok {| args := args l; field_s := field_s l; where_s := where_s l;
                 holders := holders l ++ [i] |}, w').
Proof.
  intros Honly [mgr Hmgr] Hclean.
  unfold instance_body, mbind.
  destruct (get_holder i w) as [r w1] eqn:Hget.
  assert (same_tracking w w1) as Hs by (by eapply quiet_get_holder).
  assert (r = ok (Some i)) as ->.
  { unfold get_holder, manager_of in Hget. rewrite Hmgr in Hget.
    destruct (_holders mgr !! inst_id i); by injection Hget as <- _. }
  cbn. unfold holder_dirty_fields_map.
  rewrite dirty_fields_map_clean by (by rewrite Hs).
  cbn. rewrite Honly. rewrite bool_decide_eq_true_2 by done.
  by eexists.
Qed.

Lemma instances_loop_clean env self instances l w :
  _only_dirty self = true →
  (∀ i, i ∈ instances → tracked w (inst_class i) ∧ dirty_of w i = ∅) →
  ∃ w', for_each instances (instance_body env self) l w
        = (ok {| args := args l; field_s := field_s l; where_s := where_s l;
                 holders := holders l ++ instances |}, w').
Proof.
  intros Honly. revert l w.
  induction instances as [|x instances IH]; intros l w Hall.
  { exists w. simpl. rewrite app_nil_r. by destruct l. }
  destruct (Hall x) as [Htr Hcl]; [by left|].
  destruct (instance_body_clean env self x l w Honly Htr Hcl) as (w1 & Hx).
  assert (untouched w w1) as (Hs & _ & _ & _ & Ht) by (by eapply quiet_instance_body).
  destruct (IH {| args := args l; field_s := field_s l; where_s := where_s l;
                  holders := holders l ++ [x] |} w1) as (w' & Hrest).
  { intros i Hi. destruct (Hall i) as [Htri Hcli]; [by right|].
    split; [by apply Ht|]. unfold dirty_of. by rewrite Hs. }
  exists w'. simpl. unfold mbind. rewrite Hx. cbn in Hrest |- *.
  by rewrite <- app_assoc in Hrest.
Qed.

(** C7. An [UpdatePlan] in only-dirty mode over a non-empty list of
    instances none of which has a dirty field returns without raising: no
    statement is sent, the pool is not asked for a connection, the ledgers
    are as before and [affected_cnt] is 0. *)
Theorem update_without_dirty_fields (env : ClassEnv) (drv : Driver)
    (context : ExecContext) (instances : list Instance) (w : World) :
  instances ≠ [] →
  (∀ i, i ∈ instances → tracked w (inst_class i) ∧ dirty_of w i = ∅) →
  ∃ plan w',
    UpdatePlan___init__ env drv context instances true w = (ok plan, w')
    ∧ affected_cnt plan = 0
    ∧ issued w' = issued w
    ∧ pw w' = pw w
    ∧ same_tracking w w'.
Proof.
  intros Hne Hall. unfold UpdatePlan___init__, _execute.
  cbn [_instances _only_dirty _ctx].
  destruct instances as [|i0 rest] eqn:Hinst; [done|]. rewrite <- Hinst in *.
  set (self := {| _ctx := context; _instances := instances; _affected_cnt := 0;
                  _only_dirty := true |}).
  destruct (instances_loop_clean env self instances
              {| args := []; field_s := []; where_s := []; holders := [] |} w
              eq_refl Hall) as (w' & Hloop).
  assert (untouched w w') as (Hs & Hi & Hp & _).
  { eapply quiet_for_each; [|exact Hloop]. intros; apply quiet_instance_body. }
  exists self, w'. unfold mbind. rewrite Hloop. cbn. done.
Qed.

Lemma update_without_dirty_fields_witness :
  let book := {| inst_id := 7%nat; inst_class := Book |} in
  tracked loaded_book.2 Book
  ∧ dirty_of loaded_book.2 book = ∅
  ∧ ∃ plan w',
      UpdatePlan___init__ test_env driver_down Books_context [book] true loaded_book.2
      = (ok plan, w')
      ∧ affected_cnt plan = 0
      ∧ issued w' = issued loaded_book.2
      ∧ pw w' = pw loaded_book.2
      ∧ same_tracking loaded_book.2 w'.
Proof.
  intros book.
  assert (tracked loaded_book.2 Book) as Htr by (by vm_compute; eexists).
  assert (dirty_of loaded_book.2 book = ∅) as Hcl by (by vm_compute).
  split; [exact Htr|]. split; [exact Hcl|].
  apply (update_without_dirty_fields test_env driver_down Books_context [book]
           loaded_book.2); [done|].
  intros i ->%list_elem_of_singleton. by split.
Defined.

(** [setattr] returns: [Field.__set__] knows the name it was installed
    under. *)
Lemma setattr_returns i name v w :
  ∃ w', setattr i name v w = (ok (), w')
        ∧ ∀ cls, tracked w' cls ↔ tracked w cls.
Proof.
  unfold setattr.
  destruct (manager_of (store w) (inst_class i)) as [mgr|] eqn:Hmgr.
  - destruct (_fields mgr !! name) as [f|] eqn:Hf.
    + unfold update. rewrite Hf. eexists. split; [reflexivity|].
      intros cls. unfold tracked. cbn [store set_store]. apply tracked_set_holder.
    + eexists. split; [reflexivity|]. done.
  - eexists. split; [reflexivity|]. done.
Qed.

Lemma setattr_all_returns i (it : list (string * value)) w :
  ∃ w', for_each it (λ p _, setattr i p.1 p.2) () w = (ok (), w')
        ∧ ∀ cls, tracked w' cls ↔ tracked w cls.
Proof.
  revert w. induction it as [|[name v] it IH]; intros w.
  { by exists w. }
  destruct (setattr_returns i name v w) as (w1 & Hset & Ht1).
  destruct (IH w1) as (w' & Hrest & Ht).
  exists w'. split.
  - simpl. unfold mbind. by rewrite Hset.
  - intros cls. by rewrite Ht, Ht1.
Qed.

(** [_wrap_instance] on a tracked entity class returns a clean instance. *)
Lemma _wrap_instance_clean env entity_class it oid w :
  tracked w entity_class → class_fields env entity_class ≠ [] →
  init_without_arguments env entity_class = true →
  ∃ w', _wrap_instance env entity_class it oid w
        = (ok {| inst_id := oid; inst_class := entity_class |}, w')
        ∧ dirty_of w' {| inst_id := oid; inst_class := entity_class |} = ∅.
Proof.
  intros Htr Hfields Hinit.
  set (instance := {| inst_id := oid; inst_class := entity_class |}).
  unfold _wrap_instance, mbind at 1, lift, get_entity_info.
  destruct (class_fields env entity_class) as [|f fs]; [done|].
  unfold mbind at 1, new_instance. rewrite Hinit. fold instance.
  set (w0 := set_store _ w).
  assert (tracked w0 entity_class) as Htr0 by exact Htr.
  destruct (setattr_all_returns instance it w0) as (w1 & Hset & Ht1).
  unfold mbind at 1. unfold ok at 1 2. cbv beta iota. rewrite Hset.
  assert (tracked w1 entity_class) as [mgr Hmgr] by (by apply Ht1).
  unfold mbind at 1.
  destruct (get_holder instance w1) as [r w2] eqn:Hget.
  assert (r = ok (Some instance)) as ->.
  { unfold get_holder, manager_of in Hget.
    change (inst_class instance) with entity_class in Hget. rewrite Hmgr in Hget.
    destruct (_holders mgr !! inst_id instance); by injection Hget as <- _. }
  destruct (holder_reset_spec instance w2) as (w3 & Hreset & Hclean & _).
  unfold ok at 1 2. cbv beta iota. unfold mbind. rewrite Hreset. by exists w3.
Qed.

(** A write to a watched field of a clean instance leaves exactly that
    field dirty. *)
Lemma setattr_marks_dirty instance f v w mgr fld :
  tracking (store w) !! inst_class instance = Some mgr →
  _fields mgr !! f = Some fld → unwatch fld = false →
  dirty_of w instance = ∅ →
  ∃ w', setattr instance f v w = (ok (), w') ∧ dirty_of w' instance = {[ f ]}.
Proof.
  intros Hmgr Hf Hwatch Hclean.
  unfold setattr, manager_of. rewrite Hmgr, Hf. unfold update. rewrite Hf, Hwatch.
  eexists. split; [reflexivity|].
  unfold dirty_of. cbn [store set_store].
  rewrite holder_of_set_holder, decide_True by done.
  unfold manager_of. rewrite Hmgr. cbn [_dirty].
  unfold dirty_of in Hclean. rewrite Hclean. by rewrite union_empty_r_L.
Qed.

(** C6. An instance built from a row by [_wrap_instance] has an empty dirty
    set; writing one watched field of a clean instance makes the dirty set
    exactly that field; and when an [UpdatePlan] returns, the dirty set of
    every instance given to it is empty. *)
Theorem dirty_set_lifecycle (env : ClassEnv) (drv : Driver) :
  (∀ entity_class it oid w,
      tracked w entity_class → class_fields env entity_class ≠ [] →
      init_without_arguments env entity_class = true →
      ∃ w', _wrap_instance env entity_class it oid w
            = (ok {| inst_id := oid; inst_class := entity_class |}, w')
            ∧ dirty_of w' {| inst_id := oid; inst_class := entity_class |} = ∅)
  ∧ (∀ instance f v w mgr fld,
        tracking (store w) !! inst_class instance = Some mgr →
        _fields mgr !! f = Some fld → unwatch fld = false →
        dirty_of w instance = ∅ →
        ∃ w', setattr instance f v w = (ok (), w') ∧ dirty_of w' instance = {[ f ]})
  ∧ (∀ self w plan w' instance,
        _execute env drv self w = (ok plan, w') →
        instance ∈ _instances self →
        dirty_of w' instance = ∅).
Proof.
  split; [|split].
  - intros. by apply _wrap_instance_clean.
  - intros. by eapply setattr_marks_dirty.
  - intros self w plan w' instance Hrun Hin. by eapply _execute_returned.
Qed.

Lemma dirty_set_lifecycle_witness :
  let book := {| inst_id := 7%nat; inst_class := Book |} in
  let plan := {| _ctx := Books_context; _instances := [book]; _affected_cnt := 0;
                 _only_dirty := true |} in
  let saved := _execute test_env driver_up plan renamed_book.2 in
  loaded_book.1 = ok book
  ∧ dirty_of loaded_book.2 book = ∅
  ∧ dirty_of renamed_book.2 book = {[ "name" ]}
  ∧ issued saved.2
    = [("UPDATE `t_book` AS `t1` SET `t1`.`name`=%s WHERE id=%s",
        [VStr "Golang"; VInt 1])]
  ∧ dirty_of saved.2 book = ∅.
Proof.
  intros book plan saved.
  destruct (dirty_set_lifecycle test_env driver_up) as (Hload & Hwrite & Hsave).
  destruct (Hload Book [("id", VInt 1); ("name", VStr "Python")] 7%nat test_world)
    as (w1 & Hw1 & Hclean1).
  { by vm_compute; eexists. }
  { by vm_compute. }
  { reflexivity. }
  fold loaded_book in Hw1.
  assert (w1 = loaded_book.2) as -> by (by rewrite Hw1).
  split; [by rewrite Hw1|]. split; [exact Hclean1|].
  split; [by vm_compute|]. split; [by vm_compute|].
  assert (∃ p, saved = (ok p, saved.2)) as [p Hs]
    by (vm_compute; eexists; reflexivity).
  apply (Hsave plan renamed_book.2 p saved.2 book Hs).
  by left.
Defined.

(** * Further properties of the code *)

(** ** The pool: what every run of calls keeps *)

Lemma closed_set_con d con c w :
  _closed (get_con (set_con con c w) d)
  = if decide (con = d) then _closed c else _closed (get_con w d).
Proof.
  unfold get_con, set_con; cbn [conns].
  destruct (decide (con = d)) as [->|Hne].
  - by rewrite lookup_insert_eq.
  - by rewrite lookup_insert_ne.
Qed.

Lemma closed_mark_free d con w :
  _closed (get_con (_mark_free con w) d) = _closed (get_con w d).
Proof.
  unfold _mark_free. rewrite closed_set_con.
  by destruct (decide (con = d)) as [->|].
Qed.

Lemma closed_mark_un_free d con w :
  _closed (get_con (_mark_un_free con w) d) = _closed (get_con w d).
Proof.
  unfold _mark_un_free. rewrite closed_set_con.
  by destruct (decide (con = d)) as [->|].
Qed.

Lemma closed_close_other d con w :
  d ≠ con → _closed (get_con (close con w) d) = _closed (get_con w d).
Proof.
  intros Hne. unfold close, DriverConnection_close.
  destruct (_closed (get_con w con)); [done|].
  change (_closed (get_con (set_con con {| _closed := true;
             __freed__ := __freed__ (get_con w con) |} w) d) = _closed (get_con w d)).
  rewrite closed_set_con. by rewrite decide_False.
Qed.

Lemma closed_retired_free con err ts w :
  pool_inv w → closed_retired w → closed_retired (free con err ts w).
Proof.
  intros [Hnd Hfreed] Hcl d Hd.
  destruct (_is_freed con w) eqn:Hf.
  { rewrite free_freed in Hd |- * by done. by apply Hcl. }
  assert (con ∉ free_list w) as Hnotin.
  { intros Hin. apply Hfreed in Hin. congruence. }
  destruct (decide (d = con)) as [->|Hne].
  - split; [|apply is_freed_free].
    unfold free in Hd |- *. rewrite Hf in Hd |- *.
    destruct (is_OperationalError err).
    + change (con ∉ free_list (close con (_mark_free con w))).
      by rewrite free_list_close.
    + exfalso.
      change (_closed (get_con (_mark_free con w) con) = true) in Hd.
      rewrite closed_mark_free in Hd.
      apply Hcl in Hd as [_ Hd]. congruence.
  - apply retired_free. apply Hcl.
    unfold free in Hd. rewrite Hf in Hd.
    destruct (is_OperationalError err).
    + change (_closed (get_con (close con (_mark_free con w)) d) = true) in Hd.
      by rewrite closed_close_other, closed_mark_free in Hd.
    + change (_closed (get_con (_mark_free con w) d) = true) in Hd.
      by rewrite closed_mark_free in Hd.
Qed.

Lemma closed_retired_allocate fuel open_err blocking w :
  closed_retired w → closed_retired ((allocate fuel open_err blocking w).2).
Proof.
  intros Hcl d Hd.
  destruct (allocate_cases fuel open_err blocking w)
    as [(ts & con & rest & Hheap & Heq)|[(Hheap & Hmax & Hle & Heq)|(s & Heq & Hs)]];
    rewrite Heq in Hd |- *; cbn [snd] in Hd |- *.
  - rewrite closed_mark_un_free in Hd.
    change (_closed (get_con w d) = true) in Hd.
    pose proof (retired_allocate d fuel open_err blocking w (Hcl d Hd)) as [Hret _].
    by rewrite Heq in Hret.
  - rewrite closed_mark_un_free in Hd.
    change (_closed (get_con (set_con (fresh (dom (conns w))) new_DriverConnection w) d)
            = true) in Hd.
    rewrite closed_set_con in Hd.
    destruct (decide (fresh (dom (conns w)) = d)); [done|].
    pose proof (retired_allocate d fuel open_err blocking w (Hcl d Hd)) as [Hret _].
    by rewrite Heq in Hret.
  - by apply Hcl.
Qed.

Lemma closed_retired_run calls w :
  pool_inv w → closed_retired w →
  pool_inv ((run_calls calls w).2) ∧ closed_retired ((run_calls calls w).2).
Proof.
  revert w. induction calls as [|c calls IH]; intros w Hinv Hcl; [done|].
  simpl. destruct (pool_step c w) as [r w1] eqn:Hstep.
  specialize (IH w1). destruct (run_calls calls w1) as [rs w2]. simpl in *.
  destruct c as [fuel open_err blocking|con err ts]; simpl in Hstep.
  - apply IH.
    + pose proof (pool_inv_allocate fuel open_err blocking w Hinv) as H.
      by rewrite Hstep in H.
    + pose proof (closed_retired_allocate fuel open_err blocking w Hcl) as H.
      by rewrite Hstep in H.
  - injection Hstep as _ <-. apply IH.
    + by apply pool_inv_free.
    + by apply closed_retired_free.
Qed.

(** X1. After any run of [allocate] and [free] calls on a new pool, a
    connection sits on the free list at most once, carries the free token
    while it is there, and is open: a connection the pool has closed is
    never on the free list. *)
Theorem free_list_holds_open_freed_connections (N : Z) (calls : list pool_call) :
  let w := (run_calls calls (ConnectionPool___init__ N)).2 in
  NoDup (free_list w)
  ∧ ∀ con, con ∈ free_list w →
           _is_freed con w = true ∧ _closed (get_con w con) = false.
Proof.
  intros w.
  destruct (closed_retired_run calls (ConnectionPool___init__ N)) as [[Hnd Hfreed] Hcl].
  { apply pool_inv_init. }
  { intros con Hcon. by vm_compute in Hcon. }
  fold w in Hnd, Hfreed, Hcl.
  split; [exact Hnd|]. intros con Hin. split; [by apply Hfreed|].
  destruct (_closed (get_con w con)) eqn:Hc; [|done].
  apply Hcl in Hc as [Hnotin _]. done.
Qed.

(** X2. With a maximum [N ≥ 0], no run of calls changes the maximum, and
    the live count never exceeds [N + 1]. *)
Theorem live_count_within_maximum_plus_one (N : Z) (calls : list pool_call) :
  0 ≤ N →
  let w := (run_calls calls (ConnectionPool___init__ N)).2 in
  _maximum (pool w) = N ∧ allocated_cnt w ≤ N + 1.
Proof.
  intros HN w. split; [|by apply allocated_cnt_le_succ_maximum].
  unfold w. generalize (eq_refl : _maximum (pool (ConnectionPool___init__ N)) = N).
  generalize (ConnectionPool___init__ N).
  induction calls as [|c calls IH]; intros w0 Hmax; [done|].
  simpl. destruct (pool_step c w0) as [r w1] eqn:Hstep.
  specialize (IH w1). destruct (run_calls calls w1) as [rs w2]. simpl in *.
  apply IH. destruct c as [fuel open_err blocking|con err ts]; simpl in Hstep.
  - pose proof (cnt_allocate_le fuel open_err blocking w0) as [Hm _].
    rewrite Hstep in Hm. simpl in Hm. congruence.
  - injection Hstep as _ <-.
    pose proof (cnt_free_le con err ts w0) as [Hm _]. congruence.
Qed.

Lemma live_count_within_maximum_plus_one_witness :
  let w := (run_calls [Allocate 1 None (Some 0); Allocate 1 None (Some 0);
                       Allocate 1 None (Some 0)] (ConnectionPool___init__ 1)).2 in
  _maximum (pool w) = 1 ∧ allocated_cnt w ≤ 1 + 1.
Proof.
  apply (live_count_within_maximum_plus_one 1
           [Allocate 1 None (Some 0); Allocate 1 None (Some 0); Allocate 1 None (Some 0)]).
  lia.
Defined.

(** ** The pool: failure and waiting *)

(** X3. A call to [allocate] that hands out no connection, because it
    raised or because it has not come back, leaves the pool and every
    connection as they were; in particular a failing [driver.open] is not
    counted. On an exhausted pool a call with [blocking <= 0] raises
    [RuntimeError], and so does a call with a positive time-out while no
    connection has ever been freed. *)
Theorem allocate_failure_leaves_pool (fuel : nat) (open_err : option exn)
    (blocking : option Z) (w : PoolWorld) :
  (∀ r w', allocate fuel open_err blocking w = (r, w') →
           (∀ con, r ≠ Some (ok con)) → w' = w)
  ∧ (exhausted w → ∀ b, blocking = Some b →
     b ≤ 0 ∨ _no_exhausted (pool w) = false →
     allocate (S fuel) open_err blocking w = (Some (raise RuntimeError), w)).
Proof.
  split.
  - intros r w' Hrun Hr.
    destruct (allocate_cases fuel open_err blocking w)
      as [(ts & con & rest & Hheap & Heq)|[(Hheap & Hmax & Hle & Heq)|(s & Heq & Hs)]];
      rewrite Heq in Hrun; injection Hrun as <- <-; [| |done];
      exfalso; by eapply Hr.
  - intros [Hheap Hguard] b -> Hb. simpl. unfold allocate_iter.
    rewrite Hheap, Hguard. simpl.
    destruct (Z.leb_spec b 0) as [Hle|Hgt]; [done|].
    destruct Hb as [Hb|Hflag]; [lia|]. by rewrite Hflag.
Qed.

Lemma allocate_failure_leaves_pool_witness :
  let w := (run_calls [Allocate 1 None (Some 0); Allocate 1 None (Some 0)]
              (ConnectionPool___init__ 1)).2 in
  exhausted w
  ∧ allocate 3 None (Some 0) w = (Some (raise RuntimeError), w)
  ∧ allocate 3 None (Some 5) w = (Some (raise RuntimeError), w).
Proof.
  intros w.
  assert (exhausted w) as Hex by (by vm_compute).
  split; [exact Hex|]. split.
  - apply (proj2 (allocate_failure_leaves_pool 2 None (Some 0) w) Hex 0 eq_refl).
    left. lia.
  - apply (proj2 (allocate_failure_leaves_pool 2 None (Some 5) w) Hex 5 eq_refl).
    right. reflexivity.
Defined.

(** X4. The flag that [free] sets is never cleared. Once it is set, a call
    to [allocate] that is willing to wait ([blocking] is [None] or positive)
    on an exhausted pool goes round its loop without end: it has not
    returned after any number of passes, and the pool stays as it is. *)
Theorem allocate_blocking_spins (fuel : nat) (open_err : option exn)
    (blocking : option Z) (w : PoolWorld) :
  exhausted w → _no_exhausted (pool w) = true →
  (∀ b, blocking = Some b → 0 < b) →
  allocate fuel open_err blocking w = (None, w).
Proof.
  intros [Hheap Hguard] Hflag Hb.
  induction fuel as [|fuel IH]; [done|].
  simpl. unfold allocate_iter. rewrite Hheap, Hguard, Hflag. simpl.
  destruct blocking as [b|]; [|exact IH].
  specialize (Hb b eq_refl).
  destruct (Z.leb_spec b 0); [lia | exact IH].
Qed.

Lemma allocate_blocking_spins_witness :
  let w := (run_calls [Allocate 1 None (Some 0); Allocate 1 None (Some 0);
                       Free 0 (Some OperationalError) 3; Allocate 1 None (Some 0)]
              (ConnectionPool___init__ 1)).2 in
  allocated_cnt w = 2 ∧ allocate 1000 None (Some 30) w = (None, w).
Proof.
  intros w. split; [reflexivity|].
  apply (allocate_blocking_spins 1000 None (Some 30) w).
  - by vm_compute.
  - reflexivity.
  - intros b [= <-]. lia.
Defined.

(** ** The pool: which connection comes back *)

Lemma item_le_total a b : item_le a b = false → item_le b a = true.
Proof.
  unfold item_le. destruct a as [ta ca], b as [tb cb]; simpl.
  intros H. apply orb_false_iff in H as [Hlt H].
  apply Z.ltb_ge in Hlt.
  destruct (Z.eqb_spec ta tb) as [->|Hne]; simpl in H.
  - apply Nat.leb_gt in H. apply orb_true_iff. right.
    rewrite Z.eqb_refl. simpl. apply Nat.leb_le. lia.
  - apply orb_true_iff. left. apply Z.ltb_lt. lia.
Qed.

Lemma item_le_trans a b c :
  item_le a b = true → item_le b c = true → item_le a c = true.
Proof.
  unfold item_le. destruct a as [ta ca], b as [tb cb], c as [tc cc]; simpl.
  rewrite !orb_true_iff, !andb_true_iff, !Z.ltb_lt, !Z.eqb_eq, !Nat.leb_le.
  intros [H1|[H1 H1']] [H2|[H2 H2']]; (left; lia) || (right; split; lia).
Qed.

Lemma item_le_time a b : item_le a b = true → a.1 ≤ b.1.
Proof.
  unfold item_le. rewrite orb_true_iff, andb_true_iff, Z.ltb_lt, Z.eqb_eq. lia.
Qed.

Lemma heappush_ordered h x : heap_ordered h → heap_ordered (heappush h x).
Proof.
  unfold heap_ordered. induction 1 as [|y rest Hrest IH Hy]; simpl.
  { repeat constructor. }
  destruct (item_le x y) eqn:Hxy.
  - constructor; [by constructor|]. constructor; [done|].
    eapply Forall_impl; [exact Hy|]. intros z Hz. by eapply item_le_trans.
  - constructor; [exact IH|].
    rewrite heappush_perm. constructor; [by apply item_le_total | exact Hy].
Qed.

Lemma heap_ordered_free con err ts w :
  heap_ordered (_connections (pool w)) →
  heap_ordered (_connections (pool (free con err ts w))).
Proof.
  intros Hord. unfold free. destruct (_is_freed con w); [done|].
  destruct (is_OperationalError err).
  - unfold close, DriverConnection_close; simpl. by destruct (_closed _).
  - simpl. by apply heappush_ordered.
Qed.

Lemma heap_ordered_allocate fuel open_err blocking w :
  heap_ordered (_connections (pool w)) →
  heap_ordered (_connections (pool (allocate fuel open_err blocking w).2)).
Proof.
  intros Hord.
  destruct (allocate_cases fuel open_err blocking w)
    as [(ts & con & rest & Hheap & ->)|[(Hheap & Hmax & Hle & ->)|(s & -> & Hs)]];
    simpl; [|by rewrite Hheap; constructor|done].
  rewrite Hheap in Hord. by apply StronglySorted_inv in Hord as [Hord _].
Qed.

Lemma heap_ordered_run calls w :
  heap_ordered (_connections (pool w)) →
  heap_ordered (_connections (pool (run_calls calls w).2)).
Proof.
  revert w. induction calls as [|c calls IH]; intros w Hord; [done|].
  simpl. destruct (pool_step c w) as [r w1] eqn:Hstep.
  specialize (IH w1). destruct (run_calls calls w1) as [rs w2]. simpl in *.
  apply IH. destruct c as [fuel open_err blocking|con err ts]; simpl in Hstep.
  - pose proof (heap_ordered_allocate fuel open_err blocking w Hord) as H.
    by rewrite Hstep in H.
  - injection Hstep as _ <-. by apply heap_ordered_free.
Qed.

(** X5. While the pool holds a free connection, [allocate] opens none: it
    returns the connection at the head of the free list, which was freed no
    later than any other one on the list, and the live count is unchanged. *)
Theorem allocate_reuses_oldest_freed (N : Z) (calls : list pool_call)
    (fuel : nat) (open_err : option exn) (blocking : option Z) :
  let w := (run_calls calls (ConnectionPool___init__ N)).2 in
  ∀ ts con rest,
    _connections (pool w) = (ts, con) :: rest →
    ∃ w', allocate (S fuel) open_err blocking w = (Some (ok con), w')
          ∧ _connections (pool w') = rest
          ∧ allocated_cnt w' = allocated_cnt w
          ∧ ∀ ts' con', (ts', con') ∈ rest → ts ≤ ts'.
Proof.
  intros w ts con rest Hheap.
  assert (heap_ordered (_connections (pool w))) as Hord.
  { apply heap_ordered_run. constructor. }
  rewrite Hheap in Hord. apply StronglySorted_inv in Hord as [_ Hall].
  eexists. split; [|split; [|split]].
  - simpl. unfold allocate_iter. rewrite Hheap. reflexivity.
  - reflexivity.
  - reflexivity.
  - intros ts' con' Hin. rewrite Forall_forall in Hall.
    apply (item_le_time (ts, con) (ts', con')). by apply Hall.
Qed.

Lemma allocate_reuses_oldest_freed_witness :
  let calls := [Allocate 1 None (Some 0); Allocate 1 None (Some 0);
                Free 1 None 10; Free 0 None 20] in
  let w := (run_calls calls (ConnectionPool___init__ 1)).2 in
  _connections (pool w) = [(10, 1%nat); (20, 0%nat)]
  ∧ ∃ w', allocate 1 None (Some 0) w = (Some (ok 1%nat), w')
          ∧ _connections (pool w') = [(20, 0%nat)]
          ∧ allocated_cnt w' = allocated_cnt w
          ∧ ∀ ts' con', (ts', con') ∈ [(20, 0%nat)] → 10 ≤ ts'.
Proof.
  intros calls w. split; [reflexivity|].
  exact (allocate_reuses_oldest_freed 1 calls 0 None (Some 0) 10 1%nat
           [(20, 0%nat)] eq_refl).
Defined.

(** X6. Freeing a checked-out connection without an operational error and
    then allocating from a pool whose free list was empty hands the same
    connection back: the free list is empty again, the live count is as it
    was, and the connection no longer carries the free token. *)
Theorem free_then_allocate_returns_connection (w : PoolWorld) (con : nat)
    (err : option exn) (ts : Z) (fuel : nat) (open_err : option exn)
    (blocking : option Z) :
  _connections (pool w) = [] → _is_freed con w = false →
  is_OperationalError err = false →
  ∃ w', allocate (S fuel) open_err blocking (free con err ts w) = (Some (ok con), w')
        ∧ free_list w' = []
        ∧ allocated_cnt w' = allocated_cnt w
        ∧ _is_freed con w' = false
        ∧ _closed (get_con w' con) = _closed (get_con w con).
Proof.
  intros Hheap Hf Herr. unfold free. rewrite Hf, Herr.
  eexists. split; [|split; [|split; [|split]]].
  - simpl. unfold allocate_iter. simpl. rewrite Hheap. simpl. reflexivity.
  - reflexivity.
  - reflexivity.
  - unfold _mark_un_free. rewrite is_freed_set_con. by rewrite decide_True.
  - rewrite closed_mark_un_free.
    change (_closed (get_con (_mark_free con w) con) = _closed (get_con w con)).
    apply closed_mark_free.
Qed.

Lemma free_then_allocate_returns_connection_witness :
  let w := (run_calls [Allocate 1 None (Some 0)] (ConnectionPool___init__ 1)).2 in
  ∃ w', allocate 1 None (Some 0) (free 0 (Some ValueError) 4 w) = (Some (ok 0%nat), w')
        ∧ free_list w' = []
        ∧ allocated_cnt w' = allocated_cnt w
        ∧ _is_freed 0 w' = false
        ∧ _closed (get_con w' 0) = _closed (get_con w 0).
Proof.
  intros w.
  apply (free_then_allocate_returns_connection w 0 (Some ValueError) 4 0 None (Some 0));
    reflexivity.
Defined.

(** ** The statement methods of [Database] *)

Lemma execute_rowcount_is_call db drv q parameters :
  execute_rowcount db drv q parameters
  = Database_call drv (Database__execute db drv q parameters).
Proof. reflexivity. Qed.

Lemma keeps_pool_Database__execute db drv q parameters :
  keeps_pool (Database__execute db drv q parameters).
Proof.
  intros w r w'. unfold Database__execute.
  destruct (cursor_execute drv q parameters); [destruct (bool_decide _)|];
    by intros [= _ <-].
Qed.

Lemma keeps_pool_then {A B} (m : M A) (b : B) :
  keeps_pool m → keeps_pool (do! _ := m in mret b).
Proof.
  intros Hm w r w'. unfold mbind, mret.
  destruct (m w) as [[e|a] w1] eqn:Hmw; intros [= _ <-]; by eapply Hm.
Qed.

Lemma keeps_pool_executemany ans q parameters :
  keeps_pool (cursor_executemany_call ans q parameters).
Proof. by intros w r w' [= _ <-]. Qed.

Lemma elem_of_checked_out con p :
  con ∈ checked_out p ↔ con ∈ dom (conns p) ∧ _is_freed con p = false.
Proof. unfold checked_out. rewrite elem_of_filter. tauto. Qed.

Lemma dom_set_con con c p : dom (conns (set_con con c p)) = {[con]} ∪ dom (conns p).
Proof. unfold set_con; cbn [conns]. apply dom_insert_L. Qed.

(** Allocating a connection and freeing it again, with whatever error,
    leaves the set of checked-out connections as it was. *)
Lemma checked_out_allocate_free open_err con p p1 err ts :
  pool_inv p →
  allocate 1 open_err (Some 0) p = (Some (ok con), p1) →
  checked_out (free con err ts p1) = checked_out p
  ∧ pool_inv (free con err ts p1).
Proof.
  intros Hinv Halloc.
  assert (pool_inv p1) as Hinv1.
  { pose proof (pool_inv_allocate 1 open_err (Some 0) p Hinv) as H.
    by rewrite Halloc in H. }
  split; [|by apply pool_inv_free].
  assert (_is_freed con p1 = false ∧ dom (conns p1) = {[con]} ∪ dom (conns p)
          ∧ (con ∈ dom (conns p) → _is_freed con p = true)
          ∧ ∀ d, d ≠ con → _is_freed d p1 = _is_freed d p) as (Hf1 & Hdom & Hwas & Hoth).
  { destruct Hinv as [Hnd Hfreed].
    destruct (allocate_cases 1 open_err (Some 0) p)
      as [(ts0 & c & rest & Hheap & Heq)|[(Hheap & Hmax & Hle & Heq)|(s & Heq & Hs)]];
      rewrite Heq in Halloc.
    - injection Halloc as -> <-. split; [|split; [|split]].
      + unfold _mark_un_free. rewrite is_freed_set_con. by rewrite decide_True.
      + unfold _mark_un_free. by rewrite dom_set_con.
      + intros _. apply Hfreed. unfold free_list. rewrite Hheap. by left.
      + intros d Hd. unfold _mark_un_free. rewrite is_freed_set_con.
        by rewrite decide_False.
    - injection Halloc as <- <-. split; [|split; [|split]].
      + unfold _mark_un_free. rewrite is_freed_set_con. by rewrite decide_True.
      + unfold _mark_un_free. rewrite dom_set_con.
        change (conns (set_cnt _ ?x)) with (conns x).
        rewrite dom_set_con. set_solver.
      + intros Hin. by apply is_fresh in Hin.
      + intros d Hd. unfold _mark_un_free. rewrite is_freed_set_con.
        rewrite decide_False by done.
        change (_is_freed d (set_con (fresh (dom (conns p))) new_DriverConnection p)
                = _is_freed d p).
        rewrite is_freed_set_con. by rewrite decide_False.
    - injection Halloc as Hr _. exfalso. by eapply Hs. }
  assert (dom (conns (free con err ts p1)) = dom (conns p1)) as Hdomf.
  { unfold free. rewrite Hf1.
    assert (con ∈ dom (conns p1)) by (rewrite Hdom; set_solver).
    destruct (is_OperationalError err); simpl.
    - unfold close, DriverConnection_close; simpl.
      destruct (_closed _); simpl; rewrite ?dom_insert_L; set_solver.
    - rewrite dom_insert_L. set_solver. }
  apply set_eq. intros d. rewrite !elem_of_checked_out, Hdomf, Hdom.
  destruct (decide (d = con)) as [->|Hne].
  - rewrite is_freed_free. split; [intros [_ ?]; done|].
    intros [Hin Hf]. apply Hwas in Hin. congruence.
  - rewrite is_freed_free_other, Hoth by done. set_solver.
Qed.

(** X7. Every statement method gives its connection back. When
    [con.cursor()] returns, then after [execute_rowcount], [query],
    [execute_lastrowid], [executemany_rowcount] or [executemany_lastrowid],
    whether the statement returned or raised, the connections checked out
    of the pool are exactly those that were checked out before. *)
Theorem statement_gives_connection_back (db : Database) (drv : Driver)
    (ans : Answers) (q : string) (parameters : list value)
    (rows : list (list value)) (w : World) :
  pool_inv (pw w) → cursor_err drv = None →
  let after {A} (m : M A) := pw (m w).2 in
  (checked_out (after (execute_rowcount db drv q parameters)) = checked_out (pw w)
   ∧ pool_inv (after (execute_rowcount db drv q parameters)))
  ∧ (checked_out (after (query db drv ans q parameters)) = checked_out (pw w)
     ∧ pool_inv (after (query db drv ans q parameters)))
  ∧ (checked_out (after (execute_lastrowid db drv ans q parameters)) = checked_out (pw w)
     ∧ pool_inv (after (execute_lastrowid db drv ans q parameters)))
  ∧ (checked_out (after (executemany_rowcount drv ans q rows)) = checked_out (pw w)
     ∧ pool_inv (after (executemany_rowcount drv ans q rows)))
  ∧ (checked_out (after (executemany_lastrowid drv ans q rows)) = checked_out (pw w)
     ∧ pool_inv (after (executemany_lastrowid drv ans q rows))).
Proof.
  intros Hinv Hcur after.
  assert (∀ A (body : M A), keeps_pool body →
            checked_out (after A (Database_call drv body)) = checked_out (pw w)
            ∧ pool_inv (after A (Database_call drv body))) as Hcall.
  { intros A body Hbody. unfold after, Database_call.
    destruct (allocate 1 (open_err drv) (Some 0) (pw w)) as [[[e|con]|] p1] eqn:Halloc.
    - destruct (allocate_failure_leaves_pool 1 (open_err drv) (Some 0) (pw w)) as [Hsame _].
      rewrite (Hsame _ _ Halloc); [done|]. intros con. unfold ok. congruence.
    - rewrite Hcur. destruct (body (set_pw p1 w)) as [r w2] eqn:Hb.
      apply Hbody in Hb. cbn [snd pw]. rewrite Hb. cbn [pw set_pw].
      by eapply checked_out_allocate_free.
    - destruct (allocate_failure_leaves_pool 1 (open_err drv) (Some 0) (pw w)) as [Hsame _].
      rewrite (Hsame _ _ Halloc); [done|]. intros con. congruence. }
  repeat split; apply Hcall ||
    (rewrite execute_rowcount_is_call; apply Hcall);
    try apply keeps_pool_Database__execute;
    try (apply keeps_pool_then; apply keeps_pool_Database__execute);
    try apply keeps_pool_executemany;
    try (apply keeps_pool_then; apply keeps_pool_executemany).
Qed.

Lemma statement_gives_connection_back_witness :
  let after {A} (m : M A) := pw (m test_world).2 in
  checked_out (after (execute_rowcount MySQLDatabase driver_down "DELETE FROM t" []))
  = checked_out (pw test_world)
  ∧ checked_out (after (query MySQLDatabase driver_up one_row "SELECT 1" []))
    = checked_out (pw test_world).
Proof.
  intros after.
  assert (pool_inv (pw test_world)) as Hinv by apply pool_inv_init.
  split.
  - exact (proj1 (proj1 (statement_gives_connection_back MySQLDatabase driver_down
                           one_row "DELETE FROM t" [] [] test_world Hinv eq_refl))).
  - exact (proj1 (proj1 (proj2 (statement_gives_connection_back MySQLDatabase driver_up
                           one_row "SELECT 1" [] [] test_world Hinv eq_refl)))).
Defined.

(** X8. [con.cursor()] is called before the [try]: when it raises, the
    statement method raises that error and the connection it allocated is
    not given back; it stays checked out, off the free list and counted,
    and no statement has been sent. *)
Theorem cursor_failure_keeps_connection (db : Database) (drv : Driver)
    (q : string) (parameters : list value) (w : World) (e : exn)
    (con : nat) (p1 : PoolWorld) :
  pool_inv (pw w) → cursor_err drv = Some e →
  allocate 1 (open_err drv) (Some 0) (pw w) = (Some (ok con), p1) →
  execute_rowcount db drv q parameters w = (raise e, set_pw p1 w)
  ∧ _is_freed con p1 = false
  ∧ (con ∉ free_list p1)
  ∧ con ∈ checked_out p1.
Proof.
  intros Hinv Hcur Halloc.
  assert (pool_inv p1) as [Hnd Hfreed].
  { pose proof (pool_inv_allocate 1 (open_err drv) (Some 0) (pw w) Hinv) as H.
    by rewrite Halloc in H. }
  assert (_is_freed con p1 = false ∧ con ∈ dom (conns p1)) as [Hf Hdom].
  { destruct (allocate_cases 1 (open_err drv) (Some 0) (pw w))
      as [(ts0 & c & rest & Hheap & Heq)|[(Hheap & Hmax & Hle & Heq)|(s & Heq & Hs)]];
      rewrite Heq in Halloc.
    - injection Halloc as -> <-. split.
      + unfold _mark_un_free. rewrite is_freed_set_con. by rewrite decide_True.
      + unfold _mark_un_free. rewrite dom_set_con. set_solver.
    - injection Halloc as <- <-. split.
      + unfold _mark_un_free. rewrite is_freed_set_con. by rewrite decide_True.
      + unfold _mark_un_free. rewrite dom_set_con. set_solver.
    - injection Halloc as Hr _. exfalso. by eapply Hs. }
  split; [|split; [done|split]].
  - unfold execute_rowcount. by rewrite Halloc, Hcur.
  - intros Hin. apply Hfreed in Hin. congruence.
  - by apply elem_of_checked_out.
Qed.

Lemma cursor_failure_keeps_connection_witness :
  let run := execute_rowcount MySQLDatabase driver_without_cursor "DELETE FROM t" []
               test_world in
  run.1 = raise DriverError
  ∧ issued run.2 = []
  ∧ allocated_cnt (pw run.2) = 1
  ∧ 0%nat ∈ checked_out (pw run.2).
Proof.
  intros run.
  destruct (cursor_failure_keeps_connection MySQLDatabase driver_without_cursor
              "DELETE FROM t" [] test_world DriverError 0
              (allocate 1 None (Some 0) (pw test_world)).2)
    as (Hrun & _ & _ & Hout).
  { apply pool_inv_init. }
  { reflexivity. }
  { reflexivity. }
  fold run in Hrun. rewrite Hrun. by repeat split.
Defined.

(** The connection [allocate] returns is an existing object that does not
    carry the free token and is not on the free list. *)
Lemma allocate_returns_checked_out fuel open_err blocking p con p1 :
  pool_inv p →
  allocate fuel open_err blocking p = (Some (ok con), p1) →
  _is_freed con p1 = false ∧ con ∈ dom (conns p1) ∧ (con ∉ free_list p1).
Proof.
  intros Hinv Halloc.
  assert (pool_inv p1) as [Hnd Hfreed].
  { pose proof (pool_inv_allocate fuel open_err blocking p Hinv) as H.
    by rewrite Halloc in H. }
  assert (_is_freed con p1 = false ∧ con ∈ dom (conns p1)) as [Hf Hdom].
  { destruct (allocate_cases fuel open_err blocking p)
      as [(ts0 & c & rest & Hheap & Heq)|[(Hheap & Hmax & Hle & Heq)|(s & Heq & Hs)]];
      rewrite Heq in Halloc.
    - injection Halloc as -> <-. split.
      + unfold _mark_un_free. rewrite is_freed_set_con. by rewrite decide_True.
      + unfold _mark_un_free. rewrite dom_set_con. set_solver.
    - injection Halloc as <- <-. split.
      + unfold _mark_un_free. rewrite is_freed_set_con. by rewrite decide_True.
      + unfold _mark_un_free. rewrite dom_set_con. set_solver.
    - injection Halloc as Hr _. exfalso. by eapply Hs. }
  split; [done|]. split; [done|].
  intros Hin. apply Hfreed in Hin. congruence.
Qed.

Lemma Database__execute_wraps db drv q parameters w e :
  cursor_execute drv q parameters = raise e → db_OperationalError db = Some e →
  (Database__execute db drv q parameters w).1 = raise OperationalError
  ∧ pw (Database__execute db drv q parameters w).2 = pw w.
Proof.
  intros Hexec Hcls. unfold Database__execute. rewrite Hexec.
  cbv beta iota delta [raise]. rewrite Hcls.
  by rewrite bool_decide_eq_true_2.
Qed.

(** X9. [execute_rowcount] goes through [_execute], which turns the
    driver's operational error into [OperationalError]; the pool then
    retires the connection: it is closed, not on the free list, and no
    longer counted. [executemany_rowcount] calls the cursor directly: the
    same driver error comes out as it is, and the connection goes back on
    the free list, open and counted. *)
Theorem operational_error_wrapped_only_by_execute (db : Database) (drv : Driver)
    (ans : Answers) (q : string) (parameters : list value)
    (rows : list (list value)) (w : World) (e : exn) (con : nat) (p1 : PoolWorld) :
  pool_inv (pw w) → cursor_err drv = None →
  allocate 1 (open_err drv) (Some 0) (pw w) = (Some (ok con), p1) →
  db_OperationalError db = Some e → e ≠ OperationalError →
  (cursor_execute drv q parameters = raise e →
   let run := execute_rowcount db drv q parameters w in
   run.1 = raise OperationalError
   ∧ _closed (get_con (pw run.2) con) = true
   ∧ (con ∉ free_list (pw run.2))
   ∧ allocated_cnt (pw run.2) = allocated_cnt p1 - 1)
  ∧ (cursor_executemany ans q rows = raise e →
     let run := executemany_rowcount drv ans q rows w in
     run.1 = raise e
     ∧ con ∈ free_list (pw run.2)
     ∧ _closed (get_con (pw run.2) con) = _closed (get_con p1 con)
     ∧ allocated_cnt (pw run.2) = allocated_cnt p1).
Proof.
  intros Hinv Hcur Halloc Hcls Hne.
  destruct (allocate_returns_checked_out _ _ _ _ _ _ Hinv Halloc) as (Hf & Hdom & Hnotin).
  split.
  - intros Hexec run.
    destruct (Database__execute_wraps db drv q parameters (set_pw p1 w) e Hexec Hcls)
      as [Hr Hp].
    unfold run, execute_rowcount. rewrite Halloc, Hcur.
    destruct (Database__execute db drv q parameters (set_pw p1 w)) as [r w2].
    cbn [fst snd] in Hr, Hp. subst r. rewrite Hp.
    cbv beta iota delta [ok raise]. cbn [fst snd pw set_pw].
    unfold free. rewrite Hf.
    change (is_OperationalError (Some OperationalError)) with true. cbv iota.
    split; [done|]. split; [|split].
    + change (_closed (get_con (close con (_mark_free con p1)) con) = true).
      apply closed_close.
    + change (con ∉ free_list (close con (_mark_free con p1))).
      by rewrite free_list_close.
    + change (allocated_cnt (close con (_mark_free con p1)) = allocated_cnt p1 - 1).
      by rewrite cnt_close.
  - intros Hexec run.
    unfold run, executemany_rowcount, Database_call, cursor_executemany_call.
    rewrite Halloc, Hcur, Hexec.
    cbv beta iota delta [ok raise]. cbn [fst snd pw set_pw].
    unfold free. rewrite Hf.
    assert (is_OperationalError (Some e) = false) as ->.
    { unfold is_OperationalError. apply bool_decide_eq_false. congruence. }
    split; [done|]. split; [|split].
    + unfold free_list. cbn [pool _connections set_no_exhausted set_connections].
      rewrite heappush_perm. simpl. by left.
    + change (_closed (get_con (_mark_free con p1) con) = _closed (get_con p1 con)).
      apply closed_mark_free.
    + reflexivity.
Qed.

Lemma operational_error_wrapped_only_by_execute_witness :
  let run1 := execute_rowcount MySQLDatabase driver_down "UPDATE t SET a=%s" [VInt 1]
                test_world in
  let run2 := executemany_rowcount driver_down two_rows "INSERT INTO t (a) VALUES(%s)"
                [[VInt 1]] test_world in
  (run1.1 = raise OperationalError
   ∧ _closed (get_con (pw run1.2) 0) = true
   ∧ free_list (pw run1.2) = []
   ∧ allocated_cnt (pw run1.2) = 0)
  ∧ (run2.1 = raise DriverError
     ∧ free_list (pw run2.2) = [0%nat]
     ∧ allocated_cnt (pw run2.2) = 1).
Proof.
  intros run1 run2.
  destruct (operational_error_wrapped_only_by_execute MySQLDatabase driver_down two_rows
              "UPDATE t SET a=%s" [VInt 1] [[VInt 1]] test_world DriverError 0
              (allocate 1 None (Some 0) (pw test_world)).2) as [H1 _].
  { apply pool_inv_init. }
  { reflexivity. }
  { reflexivity. }
  { reflexivity. }
  { discriminate. }
  destruct (H1 eq_refl) as (Hr & Hc & _ & _).
  split; [split; [exact Hr|]; split; [exact Hc|]; by split|].
  by repeat split.
Defined.

(** X10. [Database.get] on a statement the driver executes: no row gives
    [None], one row gives that row under the cursor's column names, more
    than one raises [MultipleRowsError]; in each case one statement has been
    sent. *)
Theorem get_by_number_of_rows (db : Database) (drv : Driver) (ans : Answers)
    (q : string) (parameters : list value) (w : World) (con : nat)
    (p1 : PoolWorld) (n : Z) :
  cursor_err drv = None →
  allocate 1 (open_err drv) (Some 0) (pw w) = (Some (ok con), p1) →
  cursor_execute drv q parameters = ok n →
  let run := Database_get db drv ans q parameters w in
  issued run.2 = issued w ++ [(q, parameters)]
  ∧ match fetch ans q parameters with
    | [] => run.1 = inr None
    | [data] => run.1 = inr (Some (mkRow (description ans q parameters) data))
    | _ :: _ :: _ => run.1 = inl MultipleRowsError
    end.
Proof.
  intros Hcur Halloc Hexec run.
  unfold run, Database_get, query, Database_call, mbind, Database__execute, mret.
  rewrite Halloc, Hcur, Hexec. cbn.
  split.
  - by destruct (fetch ans q parameters) as [|d1 [|d2 rest]].
  - by destruct (fetch ans q parameters) as [|d1 [|d2 rest]].
Qed.

Lemma get_by_number_of_rows_witness :
  (Database_get MySQLDatabase driver_up one_row "SELECT" [] test_world).1
  = inr (Some (mkRow ["id"; "name"] [VInt 1; VStr "Python"]))
  ∧ (Database_get MySQLDatabase driver_up two_rows "SELECT" [] test_world).1
    = inl MultipleRowsError.
Proof.
  split.
  - exact (proj2 (get_by_number_of_rows MySQLDatabase driver_up one_row "SELECT" []
                    test_world 0 (allocate 1 None (Some 0) (pw test_world)).2 1
                    eq_refl eq_refl eq_refl)).
  - exact (proj2 (get_by_number_of_rows MySQLDatabase driver_up two_rows "SELECT" []
                    test_world 0 (allocate 1 None (Some 0) (pw test_world)).2 1
                    eq_refl eq_refl eq_refl)).
Defined.

(** ** Transactions *)

(** X11. A statement that succeeds inside a transaction leaves the
    transaction open and the pool untouched. A statement that raises closes
    the transaction and frees the pinned connection with that error, so a
    wrapped operational error retires it; afterwards [close] changes
    nothing. *)
Theorem transaction_closes_on_failure (db : Database) (drv : Driver) (q : string)
    (parameters : list value) (self : Transaction) (w : World) :
  cursor_err drv = None → _tx_closed self = false →
  let run := Transaction_execute_rowcount db drv q parameters self w in
  (∀ n, cursor_execute drv q parameters = ok n →
        run = (ok n, self, {| pw := pw w; store := store w;
                              issued := issued w ++ [(q, parameters)];
                              clock := clock w |}))
  ∧ (∀ e, cursor_execute drv q parameters = raise e →
          let err := if bool_decide (db_OperationalError db = Some e)
                     then OperationalError else e in
          run.1.1 = raise err
          ∧ _tx_closed run.1.2 = true
          ∧ _err run.1.2 = Some err
          ∧ pw run.2 = free (_con self) (Some err) (clock w) (pw w)
          ∧ Transaction_close run.1.2 run.2 = (ok run.1.2, run.2)).
Proof.
  intros Hcur Hopen run. unfold run, Transaction_execute_rowcount, Database__execute.
  rewrite Hcur. split.
  - intros n ->. by cbv beta iota delta [ok Transaction__free mret].
  - intros e ->. cbv beta iota delta [raise].
    destruct (bool_decide (db_OperationalError db = Some e));
      unfold Transaction__free, Transaction_close; cbn; rewrite Hopen; cbn; done.
Qed.

Lemma transaction_closes_on_failure_witness :
  let opened := Database_transaction driver_down test_world in
  let tx := Transaction___init__ 0 false in
  let run := Transaction_execute_rowcount MySQLDatabase driver_down "UPDATE t SET a=1" []
               tx opened.2 in
  opened.1 = ok tx
  ∧ run.1.1 = raise OperationalError
  ∧ _tx_closed run.1.2 = true
  ∧ _closed (get_con (pw run.2) 0) = true
  ∧ free_list (pw run.2) = []
  ∧ Transaction_close run.1.2 run.2 = (ok run.1.2, run.2).
Proof.
  intros opened tx run.
  destruct (transaction_closes_on_failure MySQLDatabase driver_down "UPDATE t SET a=1" []
              tx opened.2 eq_refl eq_refl) as [_ Hfail].
  destruct (Hfail DriverError eq_refl) as (Hr & Hc & _ & Hp & Hagain).
  split; [reflexivity|]. split; [exact Hr|]. split; [exact Hc|].
  split; [by vm_compute|]. split; [by vm_compute|]. exact Hagain.
Defined.

(** X12. An inner transaction is pinned to the connection of the outer
    one. Its [commit] answers [False] and calls nothing, where the outer
    [commit] answers [True] and commits once. Its [close] frees the shared
    connection although the outer transaction is still open: the connection
    is on the free list, and when the outer transaction is closed later,
    even with an operational error, the pool ignores it. *)
Theorem inner_transaction_shares_connection (outer : Transaction) (w : World)
    (committed : list nat) :
  _is_inner_transaction outer = false → _tx_closed outer = false →
  _is_freed (_con outer) (pw w) = false →
  let inner := Transaction_transaction outer in
  let closed := Transaction_close inner w in
  Transaction_commit inner committed = (false, committed)
  ∧ Transaction_commit outer committed = (true, committed ++ [_con outer])
  ∧ _con outer ∈ free_list (pw closed.2)
  ∧ (∀ err, pw (Transaction__free outer err closed.2).2 = pw closed.2).
Proof.
  intros Hout Hopen Hf inner closed.
  split; [done|]. split; [by unfold Transaction_commit; rewrite Hout|].
  assert (pw closed.2 = free (_con outer) None (clock w) (pw w)) as Hpw by done.
  split.
  - rewrite Hpw. unfold free. rewrite Hf.
    change (is_OperationalError None) with false. cbv iota.
    unfold free_list. cbn [pool _connections set_no_exhausted set_connections].
    rewrite heappush_perm. simpl. by left.
  - intros [e|]; [|done].
    unfold Transaction__free, Transaction_close. cbn [_tx_closed _con _err].
    rewrite Hopen. cbn [snd pw]. rewrite Hpw.
    apply free_freed, is_freed_free.
Qed.

Lemma inner_transaction_shares_connection_witness :
  let opened := Database_transaction driver_up test_world in
  let outer := Transaction___init__ 0 false in
  let closed := Transaction_close (Transaction_transaction outer) opened.2 in
  opened.1 = ok outer
  ∧ 0%nat ∈ free_list (pw closed.2)
  ∧ pw (Transaction__free outer (Some OperationalError) closed.2).2 = pw closed.2
  ∧ _closed (get_con (pw (Transaction__free outer (Some OperationalError) closed.2).2) 0)
    = false.
Proof.
  intros opened outer closed.
  destruct (inner_transaction_shares_connection outer opened.2 [] eq_refl eq_refl eq_refl)
    as (_ & _ & Hin & Hfree).
  split; [reflexivity|]. split; [exact Hin|].
  split; [exact (Hfree (Some OperationalError))|]. by vm_compute.
Defined.

(** ** The ledger *)

Lemma dirty_fields_map_list (values : gmap string value) (l : list string) :
  (∀ k, k ∈ l → is_Some (values !! k)) →
  ∃ m : gmap string value,
    foldr (λ k acc,
             try! m := acc in
             match values !! k with
             | Some v => ok (<[k := v]> m)
             | None => raise KeyError
             end) (ok ∅) l = ok m
    ∧ ∀ k, m !! k = if decide (k ∈ l) then values !! k else None.
Proof.
  induction l as [|x l IH]; intros Hall.
  { exists ∅. split; [done|]. intros k. rewrite lookup_empty.
    by rewrite decide_False by apply not_elem_of_nil. }
  destruct IH as (m & Hm & Hlook).
  { intros k Hk. apply Hall. by right. }
  destruct (Hall x) as [v Hv]; [by left|].
  exists (<[x := v]> m). split.
  { simpl. rewrite Hm. cbn. by rewrite Hv. }
  intros k. destruct (decide (x = k)) as [->|Hne].
  - rewrite lookup_insert_eq. rewrite decide_True by (by left). done.
  - rewrite lookup_insert_ne by done. rewrite Hlook.
    destruct (decide (k ∈ l)) as [Hin|Hnin].
    + rewrite decide_True by (by right). done.
    + rewrite decide_False; [done|].
      intros [->|?]%elem_of_cons; done.
Qed.

Lemma holder_inv_step fields h c :
  holder_inv fields h → holder_inv fields (holder_step fields h c).
Proof.
  intros Hinv. destruct c as [name v|data_dict]; simpl.
  - unfold update. destruct (fields !! name) as [f|] eqn:Hf; [|done].
    unfold ok. intros k Hk. cbn [_dirty _values_map] in *.
    destruct (decide (name = k)) as [->|Hne].
    + rewrite lookup_insert_eq. split; [|by eexists].
      destruct (unwatch f) eqn:Hw; [by apply Hinv in Hk as [? _]|]. by exists f.
    + rewrite lookup_insert_ne by done. apply Hinv.
      destruct (unwatch f); [done|]. set_solver.
  - intros k Hk. by apply elem_of_empty in Hk.
Qed.

Lemma holder_inv_run fields cs h :
  holder_inv fields h → holder_inv fields (holder_run fields cs h).
Proof.
  revert h. induction cs as [|c cs IH]; intros h Hinv; [done|].
  simpl. apply IH. by apply holder_inv_step.
Qed.

(** X13. Whatever [update] and [reset] calls a holder has gone through,
    every dirty field is a watched field of the manager, and
    [dirty_fields_map] does not raise: it returns the held values of
    exactly the dirty fields. *)
Theorem dirty_fields_are_watched_and_valued (fields : gmap string Field)
    (calls : list holder_call) :
  let h := holder_run fields calls TrackingHolder___init__ in
  (∀ k, k ∈ _dirty h → ∃ f, fields !! k = Some f ∧ unwatch f = false)
  ∧ ∃ m, dirty_fields_map h = ok m
         ∧ dom m = _dirty h
         ∧ ∀ k v, m !! k = Some v → _values_map h !! k = Some v.
Proof.
  intros h.
  assert (holder_inv fields h) as Hinv.
  { apply holder_inv_run. intros k Hk. by apply elem_of_empty in Hk. }
  split; [intros k Hk; by apply Hinv|].
  destruct (dirty_fields_map_list (_values_map h) (elements (_dirty h)))
    as (m & Hm & Hlook).
  { intros k Hk%elem_of_elements. by apply Hinv. }
  exists m. split; [exact Hm|]. split.
  - apply set_eq. intros k. rewrite elem_of_dom, Hlook.
    destruct (decide (k ∈ elements (_dirty h))) as [Hin|Hnin].
    + apply elem_of_elements in Hin as Hin'. split; [done|].
      intros _. by apply Hinv.
    + split; [by intros [? ?]|]. intros Hin%elem_of_elements. done.
  - intros k v. rewrite Hlook. by destruct (decide _).
Qed.

Lemma get_step fields h c name :
  _values_map (holder_step fields h c) !! name
  = match writes fields c name with
    | Some v => Some v
    | None => _values_map h !! name
    end.
Proof.
  destruct c as [n v|[d|]]; cbn [holder_step writes reset _values_map].
  - unfold update. destruct (fields !! n) as [f|] eqn:Hf;
      cbv beta iota delta [ok raise]; cbn [_values_map fmap option_fmap option_map].
    + destruct (decide (n = name)) as [->|Hne].
      * by rewrite lookup_insert_eq.
      * by rewrite lookup_insert_ne.
    + by destruct (decide (n = name)).
  - destruct (bool_decide (d = ∅)) eqn:He.
    + apply bool_decide_eq_true in He. rewrite He.
      by rewrite (lookup_empty (M := gmap string)).
    + rewrite lookup_union. destruct (d !! name) as [v|] eqn:Hd.
      * by destruct (_values_map h !! name).
      * by destruct (_values_map h !! name).
  - done.
Qed.

Lemma get_run fields cs h name :
  _values_map (holder_run fields cs h) !! name
  = last_written fields cs name (_values_map h !! name).
Proof.
  revert h. induction cs as [|c cs IH]; intros h; [done|].
  simpl. rewrite IH. unfold last_written. simpl. f_equal. apply get_step.
Qed.

(** X14. Reading a field gives the value most recently written under its
    name, by an [update] of a managed field or by a [reset] with data, and
    the unset sentinel when nothing was written; reading changes nothing.
    [fields_map] lists exactly the manager's fields, each with that value. *)
Theorem get_returns_last_written (fields : gmap string Field)
    (calls : list holder_call) (name : string) :
  let h := holder_run fields calls TrackingHolder___init__ in
  TrackingHolder_get name h = default VZero (last_written fields calls name None)
  ∧ fields_map fields h !! name
    = (λ _, default VZero (last_written fields calls name None)) <$> fields !! name.
Proof.
  intros h.
  assert (TrackingHolder_get name h
          = default VZero (last_written fields calls name None)) as Hget.
  { unfold TrackingHolder_get, h. rewrite get_run.
    unfold TrackingHolder___init__; cbn [_values_map]. by rewrite lookup_empty. }
  split; [exact Hget|].
  unfold fields_map. rewrite map_lookup_imap.
  destruct (fields !! name); simpl; [by rewrite Hget | done].
Qed.

(** ** Loading an instance from a row *)

Lemma fields_of_set_holder i h w cls :
  fields_of (set_store (set_holder i h (store w)) w) cls = fields_of w cls.
Proof. unfold fields_of. cbn [store set_store]. apply fields_set_holder. Qed.

(** What one [setattr] does to the value read under a field name. *)
Lemma setattr_get instance n v name w fields :
  fields_of w (inst_class instance) = Some fields → is_Some (fields !! name) →
  ∃ w', setattr instance n v w = (ok (), w')
        ∧ fields_of w' (inst_class instance) = Some fields
        ∧ TrackingHolder_get name (holder_of (store w') instance)
          = if decide (n = name) then v
            else TrackingHolder_get name (holder_of (store w) instance).
Proof.
  unfold fields_of. intros Hfields Hname.
  unfold setattr, manager_of.
  destruct (tracking (store w) !! inst_class instance) as [mgr|] eqn:Hmgr; [|done].
  injection Hfields as <-.
  destruct (_fields mgr !! n) as [f|] eqn:Hf.
  - unfold update. rewrite Hf. eexists. split; [reflexivity|]. split.
    + etrans; [apply fields_of_set_holder|]. unfold fields_of. by rewrite Hmgr.
    + cbn [store set_store]. rewrite holder_of_set_holder, decide_True by done.
      unfold manager_of. rewrite Hmgr. unfold TrackingHolder_get. cbn [_values_map].
      destruct (decide (n = name)) as [->|Hne].
      * by rewrite lookup_insert_eq.
      * by rewrite lookup_insert_ne.
  - eexists. split; [reflexivity|]. split.
    + unfold fields_of. cbn [store set_store tracking]. by rewrite Hmgr.
    + rewrite decide_False; [done|]. intros ->. rewrite Hf in Hname. by destruct Hname.
Qed.

Lemma setattr_all_get instance (it : list (string * value)) name w fields :
  fields_of w (inst_class instance) = Some fields → is_Some (fields !! name) →
  ∃ w', for_each it (λ p _, setattr instance p.1 p.2) () w = (ok (), w')
        ∧ fields_of w' (inst_class instance) = Some fields
        ∧ TrackingHolder_get name (holder_of (store w') instance)
          = last_in_row it name (TrackingHolder_get name (holder_of (store w) instance)).
Proof.
  intros Hfields Hname. revert w Hfields.
  induction it as [|[n v] it IH]; intros w Hfields.
  { by exists w. }
  destruct (setattr_get instance n v name w fields Hfields Hname) as (w1 & Hset & Hf1 & Hg1).
  destruct (IH w1 Hf1) as (w' & Hrest & Hf' & Hg').
  exists w'. split; [|split; [done|]].
  - simpl. unfold mbind. by rewrite Hset.
  - rewrite Hg', Hg1. done.
Qed.

(** X15. [_wrap_instance] loads the row into the instance: afterwards
    reading a field of the entity gives the value of the last column of that
    name in the row, and the instance is still clean after the read. A field
    the row does not name reads as whatever the holder kept under the
    identity of the new object, the unset sentinel when there is none. *)
Theorem wrap_instance_loads_row (env : ClassEnv) (entity_class : Entity)
    (it : list (string * value)) (oid : nat) (w : World)
    (fields : gmap string Field) (name : string) :
  fields_of w entity_class = Some fields → is_Some (fields !! name) →
  class_fields env entity_class ≠ [] →
  init_without_arguments env entity_class = true →
  let instance := {| inst_id := oid; inst_class := entity_class |} in
  ∃ w1 w2,
    _wrap_instance env entity_class it oid w = (ok instance, w1)
    ∧ getattr instance name w1
      = (ok (last_in_row it name
               (TrackingHolder_get name (holder_of (store w) instance))), w2)
    ∧ dirty_of w2 instance = ∅.
Proof.
  intros Hfields Hname Hcf Hinit instance.
  unfold _wrap_instance, mbind at 1, lift, get_entity_info.
  destruct (class_fields env entity_class) as [|f fs]; [done|].
  unfold mbind at 1, new_instance. rewrite Hinit. fold instance.
  set (w0 := set_store _ w).
  assert (fields_of w0 (inst_class instance) = Some fields) as Hf0 by exact Hfields.
  destruct (setattr_all_get instance it name w0 fields Hf0 Hname)
    as (w1 & Hset & Hf1 & Hg1).
  unfold mbind at 1. unfold ok at 1 2. cbv beta iota. rewrite Hset.
  unfold mbind at 1.
  destruct (get_holder instance w1) as [r w2] eqn:Hget.
  assert (untouched w1 w2) as (Hs2 & _ & _ & _ & _) by (by eapply quiet_get_holder).
  assert (fields_of w2 entity_class = Some fields) as Hf2.
  { unfold get_holder in Hget. unfold fields_of in Hf1 |- *.
    change (inst_class instance) with entity_class in *.
    unfold manager_of in Hget.
    destruct (tracking (store w1) !! entity_class) as [mgr|] eqn:Hmgr; [|done].
    destruct (_holders mgr !! inst_id instance); injection Hget as _ <-; [by rewrite Hmgr|].
    etrans; [apply fields_set_holder|]. by rewrite Hmgr. }
  assert (r = ok (Some instance)) as ->.
  { unfold get_holder, manager_of in Hget. unfold fields_of in Hf1.
    change (inst_class instance) with entity_class in *.
    destruct (tracking (store w1) !! entity_class) as [mgr|]; [|done].
    destruct (_holders mgr !! inst_id instance); by injection Hget as <- _. }
  unfold ok at 1 2. cbv beta iota. unfold mbind, holder_reset, mret.
  set (w3 := set_store _ w2).
  assert (tracking (store w2) !! entity_class ≠ None) as Htr2.
  { unfold fields_of in Hf2. by destruct (tracking (store w2) !! entity_class). }
  assert (holder_of (store w3) instance = reset None (holder_of (store w2) instance)) as Hh3.
  { unfold w3. cbn [store set_store]. rewrite holder_of_set_holder, decide_True by done.
    unfold manager_of. change (inst_class instance) with entity_class.
    by destruct (tracking (store w2) !! entity_class). }
  assert (fields_of w3 entity_class = Some fields) as Hf3.
  { unfold w3. by rewrite fields_of_set_holder. }
  exists w3. eexists. split; [reflexivity|].
  unfold getattr, manager_of. unfold fields_of in Hf3.
  change (inst_class instance) with entity_class.
  destruct (tracking (store w3) !! entity_class) as [mgr|] eqn:Hmgr3; [|done].
  injection Hf3 as Hf3. rewrite Hf3.
  destruct Hname as [fld Hfld]. rewrite Hfld.
  split.
  - f_equal. f_equal. rewrite Hh3. unfold TrackingHolder_get, reset; cbn [_values_map].
    unfold TrackingHolder_get in Hg1. rewrite Hs2. rewrite Hg1. done.
  - unfold dirty_of. cbn [store set_store]. rewrite holder_of_set_holder_same.
    by rewrite Hh3.
Qed.

Lemma wrap_instance_loads_row_witness :
  let book := {| inst_id := 7%nat; inst_class := Book |} in
  ∃ w1 w2,
    _wrap_instance test_env Book [("id", VInt 1); ("name", VStr "Python")] 7 test_world
    = (ok book, w1)
    ∧ getattr book "name" w1 = (ok (VStr "Python"), w2)
    ∧ dirty_of w2 book = ∅.
Proof.
  intros book.
  destruct (wrap_instance_loads_row test_env Book
              [("id", VInt 1); ("name", VStr "Python")] 7 test_world
              (_fields Book_tracking) "name") as (w1 & w2 & H1 & H2 & H3).
  { reflexivity. }
  { by vm_compute; eexists. }
  { by vm_compute. }
  { reflexivity. }
  exists w1, w2. split; [exact H1|]. split; [exact H2 | exact H3].
Defined.

(** ** The query context: WHERE and FROM *)

Lemma get_col_name_cases ctx c :
  (registered ctx c ∧ get_col_name ctx c = ok (qualified ctx c))
  ∨ (¬ registered ctx c ∧ get_col_name ctx c = raise KeyError).
Proof.
  unfold registered, qualified, get_col_name.
  destruct (table_mapper c) as [m|].
  - destruct (mappers ctx !! m) as [a|] eqn:Hm.
    + left. split; [|done]. exists m. split; [done|]. by rewrite Hm.
    + right. split; [|done]. intros (m' & [= <-] & [a Ha]). congruence.
  - right. split; [|done]. by intros (m' & ? & _).
Qed.

Section Naming.
Variable col_name_fn : Column → result string.
Variable naming : Column → string.
Variable err : exn.

(** [_generating_sql] under a naming function that fails on the column. *)
Lemma _generating_sql_raises cls column op val args :
  range_ok cls val = true → col_name_fn column = raise err →
  _generating_sql col_name_fn cls column op val args = raise err.
Proof.
  intros Hok Hc. destruct cls; simpl; rewrite ?Hc; try done.
  simpl in Hok.
  destruct (value_getitem val 0) as [|a]; [done|].
  destruct (value_getitem val 1) as [|b]; [done|]. simpl. by rewrite ?Hc.
Qed.

Lemma _generating_sql_named cls column op val args :
  range_ok cls val = true → col_name_fn column = ok (naming column) →
  _generating_sql col_name_fn cls column op val args
  = ok (own_predicate (naming column) cls op, args ++ own_arguments cls val).
Proof.
  intros Hok Hc. destruct cls; simpl; rewrite ?Hc; simpl.
  - reflexivity.
  - simpl in Hok.
    destruct (value_getitem val 0) as [|a]; [done|].
    destruct (value_getitem val 1) as [|b]; [done|]. simpl. rewrite ?Hc. simpl.
    by rewrite <- app_assoc.
  - by rewrite app_nil_r.
  - by rewrite app_nil_r.
Qed.

(** A naming function that either names a column or raises [err]: the tree
    renders as [render] when it names every column, and [building] raises
    [err] when it fails on one. *)
Lemma building_named_or_raises e :
  well_formed e = true →
  (∀ c, c ∈ columns_of e →
        col_name_fn c = ok (naming c) ∨ col_name_fn c = raise err) →
  ∀ args,
    (Forall (λ c, col_name_fn c = ok (naming c)) (columns_of e)
     ∧ building col_name_fn e args = ok (render naming e, args ++ render_args e))
    ∨ (Exists (λ c, col_name_fn c = raise err) (columns_of e)
       ∧ building col_name_fn e args = raise err).
Proof.
  induction e as [cls column op val next_expr IH] using Expr_tree_ind.
  intros Hwf Hcols args. simpl in Hwf. apply andb_true_iff in Hwf as [Hown Hnext].
  cbn [building columns_of].
  destruct (Hcols column) as [Hc|Hc]; [by left| |].
  2:{ right. split; [by left|].
      by rewrite (_generating_sql_raises cls column op val args Hown Hc). }
  rewrite (_generating_sql_named cls column op val args Hown Hc). cbn [rbind ok].
  assert (∀ c, c ∈ List.concat (List.map (λ p : string * Expr, columns_of p.2) next_expr) →
               col_name_fn c = ok (naming c) ∨ col_name_fn c = raise err) as Hrest.
  { intros c Hin. apply Hcols. by right. }
  clear Hcols.
  enough (∀ sql_s args0,
    (Forall (λ c, col_name_fn c = ok (naming c))
            (List.concat (List.map (λ p : string * Expr, columns_of p.2) next_expr))
     ∧ (fix loop (l : list (string * Expr)) (sql_s : list string)
            (args : list value) {struct l} : result (list string * list value) :=
          match l with
          | [] => ok (sql_s, args)
          | (tp, expr) :: rest =>
              try! (s, args') := building col_name_fn expr args in
              loop rest (sql_s ++ [tp +:+ " (" +:+ s +:+ ")"]) args'
          end) next_expr sql_s args0
       = ok (sql_s ++ List.map (λ p : string * Expr,
                                  p.1 +:+ " (" +:+ render naming p.2 +:+ ")") next_expr,
             args0 ++ List.concat (List.map (λ p : string * Expr, render_args p.2)
                                           next_expr)))
    ∨ (Exists (λ c, col_name_fn c = raise err)
              (List.concat (List.map (λ p : string * Expr, columns_of p.2) next_expr))
       ∧ (fix loop (l : list (string * Expr)) (sql_s : list string)
              (args : list value) {struct l} : result (list string * list value) :=
            match l with
            | [] => ok (sql_s, args)
            | (tp, expr) :: rest =>
                try! (s, args') := building col_name_fn expr args in
                loop rest (sql_s ++ [tp +:+ " (" +:+ s +:+ ")"]) args'
            end) next_expr sql_s args0 = raise err)) as Hloop.
  { destruct (Hloop [own_predicate (naming column) cls op] (args ++ own_arguments cls val))
      as [[Hall ->]|[Hex ->]].
    - left. split; [by constructor|]. cbn [rbind ok render render_args].
      by rewrite <- app_assoc.
    - right. split; [by right|done]. }
  clear Hown Hc args.
  induction IH as [|[tp child] rest Hchild _ IHrest]; intros sql_s args.
  { left. split; [constructor|]. simpl. by rewrite !app_nil_r. }
  simpl in Hnext. apply andb_true_iff in Hnext as [Hwc Hwr].
  simpl in Hrest, Hchild.
  destruct (Hchild Hwc) with (args := args) as [[Hall Hb]|[Hex Hb]].
  { intros c Hin. apply Hrest. apply elem_of_app. by left. }
  - assert (∀ c, c ∈ List.concat (List.map (λ p : string * Expr, columns_of p.2) rest) →
                 col_name_fn c = ok (naming c) ∨ col_name_fn c = raise err) as Hrest'.
    { intros c Hin. apply Hrest. apply elem_of_app. by right. }
    destruct (IHrest Hwr Hrest' (sql_s ++ [tp +:+ " (" +:+ render naming child +:+ ")"])
                     (args ++ render_args child))
      as [[Hall' Hl]|[Hex' Hl]].
    + left. split; [simpl; by apply Forall_app|].
      rewrite Hb. cbn [rbind ok]. rewrite Hl. simpl. by rewrite <- !app_assoc.
    + right. split; [simpl; apply Exists_app; by right|].
      rewrite Hb. cbn [rbind ok]. exact Hl.
  - right. split; [simpl; apply Exists_app; by left|].
    by rewrite Hb.
Qed.
End Naming.

(** X16. [where_sql] without a WHERE expression gives no clause and no
    arguments. With one (whose range nodes carry a pair) it renders the tree
    with the alias-qualified column names and collects the arguments in
    rendering order when every column belongs to a registered mapper, and
    raises [KeyError] as soon as one column does not. *)
Theorem where_sql_qualifies_or_fails (ctx : ExecContext) :
  (where_expr ctx = None → where_sql ctx = ok (None, []))
  ∧ ∀ e, where_expr ctx = Some e → well_formed e = true →
         (Forall (registered ctx) (columns_of e) →
          where_sql ctx = ok (Some (render (qualified ctx) e), render_args e))
         ∧ (Exists (λ c, ¬ registered ctx c) (columns_of e) →
            where_sql ctx = raise KeyError).
Proof.
  split; [by unfold where_sql; intros ->|].
  intros e He Hwf. unfold where_sql. rewrite He.
  destruct (building_named_or_raises (get_col_name ctx) (qualified ctx) KeyError e Hwf)
    with (args := @nil value) as [[Hall Hb]|[Hex Hb]].
  { intros c _. destruct (get_col_name_cases ctx c) as [[_ ?]|[_ ?]]; auto. }
  - split; [by rewrite Hb|].
    intros Hex. exfalso. apply Exists_exists in Hex as (c & Hin & Hnot).
    rewrite Forall_forall in Hall. specialize (Hall c Hin).
    destruct (get_col_name_cases ctx c) as [[? _]|[_ Hk]]; [done|].
    rewrite Hk in Hall. discriminate.
  - split; [|by rewrite Hb].
    intros Hall. exfalso. apply Exists_exists in Hex as (c & Hin & Hk).
    rewrite Forall_forall in Hall. specialize (Hall c Hin).
    destruct (get_col_name_cases ctx c) as [[_ Hok]|[? _]]; [|done].
    rewrite Hok in Hk. discriminate.
Qed.

Lemma where_sql_qualifies_or_fails_witness :
  where_sql (ExecContext_where and_expr Books_context)
  = ok (Some "`t1`.`id` > %s AND (`t1`.`id` < %s)", [VInt 0; VInt 8])
  ∧ where_sql (ExecContext_where (Column___gt__ Authors_id (VInt 0)) Books_context)
    = raise KeyError.
Proof.
  split.
  - apply (proj1 (proj2 (where_sql_qualifies_or_fails
                           (ExecContext_where and_expr Books_context))
                    and_expr eq_refl eq_refl)).
    repeat constructor; exists Books; split; (reflexivity || by vm_compute; eexists).
  - apply (proj2 (proj2 (where_sql_qualifies_or_fails
                           (ExecContext_where (Column___gt__ Authors_id (VInt 0))
                                              Books_context))
                    (Column___gt__ Authors_id (VInt 0)) eq_refl eq_refl)).
    left. intros (m & Hm & Hreg). injection Hm as <-.
    vm_compute in Hreg. by destruct Hreg.
Defined.

(** X17. [resolve_mapper] answers with a mapper that is registered in the
    context and manages the entity, and answers [None] exactly when no
    registered mapper manages it. *)
Theorem resolve_mapper_finds_registered_manager (env : ClassEnv) (ctx : ExecContext)
    (entity : Entity) :
  (∀ m, resolve_mapper env ctx entity = Some m →
        is_Some (mappers ctx !! m) ∧ entity ∈ __managed_set__ (get_meta env m))
  ∧ (resolve_mapper env ctx entity = None ↔
     ∀ m, is_Some (mappers ctx !! m) → entity ∉ __managed_set__ (get_meta env m)).
Proof.
  unfold resolve_mapper. split.
  - intros m Hm. apply fmap_Some in Hm as ([i [m' a]] & Hfind & ->).
    apply list_find_Some in Hfind as (Hi & Hin & _). simpl in *.
    split; [|done]. apply list_elem_of_lookup_2 in Hi.
    apply elem_of_map_to_list in Hi. by eexists.
  - rewrite fmap_None, list_find_None, Forall_forall. split.
    + intros Hall m [a Ha] Hin. apply (Hall (m, a)); [|done].
      by apply elem_of_map_to_list.
    + intros Hall [m a] Hma%elem_of_map_to_list. simpl. apply Hall. by eexists.
Qed.

Lemma get_joins_sql_loop env ctx :
  get_joins_sql env ctx
  = (try! tb_alias := mappers_getitem ctx (Some (ctx_table_mapper ctx)) in
     try! join_s :=
       foldl (joins_step env ctx)
             (ok [format_table_name (db_spec ctx)
                    (str_of (db_table (get_meta env (ctx_table_mapper ctx))))
                  +:+ " AS " +:+ format_table_name (db_spec ctx) tb_alias])
             (joins ctx) in
     ok (join " " join_s)).
Proof. reflexivity. Qed.

Lemma joins_step_raised env ctx e l :
  foldl (joins_step env ctx) (raise e) l = raise e.
Proof. induction l as [|j l IH]; [done|]. simpl. exact IH. Qed.

Lemma mappers_getitem_registered ctx c :
  registered ctx c →
  ∃ a, mappers_getitem ctx (table_mapper c) = ok a
       ∧ qualified ctx c = format_column (db_spec ctx) a (str_of (db_column c)).
Proof.
  intros (m & Hm & [a Ha]). exists a.
  unfold mappers_getitem, qualified, get_col_name. by rewrite Hm, Ha.
Qed.

Lemma mappers_getitem_unregistered ctx c :
  ¬ registered ctx c → mappers_getitem ctx (table_mapper c) = raise KeyError.
Proof.
  intros Hnot. unfold mappers_getitem.
  destruct (table_mapper c) as [m|] eqn:Hm; [|done].
  destruct (mappers ctx !! m) as [a|] eqn:Ha; [|done].
  exfalso. apply Hnot. exists m. split; [done|]. by rewrite Ha.
Qed.

Lemma joins_step_clause env ctx acc j :
  is_Some (mappers ctx !! tb j) → on_registered ctx j →
  joins_step env ctx (ok acc) j = ok (acc ++ [join_clause env ctx j]).
Proof.
  intros [a Ha] [Hca (b & Hb & Hcb)].
  apply mappers_getitem_registered in Hca as (aa & Haa & Hqa).
  apply mappers_getitem_registered in Hcb as (ab & Hab & Hqb).
  unfold joins_step, join_clause. cbn [rbind ok mappers_getitem]. rewrite Ha.
  cbn [rbind ok default]. destruct (on j) as [col_a v]. simpl in *. subst v.
  rewrite Hab. cbn [rbind ok]. rewrite Haa. cbn [rbind ok].
  by rewrite Hqa, Hqb.
Qed.

Lemma joins_step_fails env ctx acc j :
  ¬ on_registered ctx j → ∃ e, joins_step env ctx (ok acc) j = raise e.
Proof.
  intros Hnot. unfold joins_step. cbn [rbind ok].
  destruct (mappers_getitem ctx (Some (tb j))) as [e|a]; [by eexists|].
  cbn [rbind ok]. unfold on_registered in Hnot.
  destruct (on j) as [col_a v]. simpl in Hnot.
  destruct v as [| | | | |col_b]; try by eexists.
  destruct (get_col_name_cases ctx col_b) as [[Hb _]|[Hb _]].
  2:{ rewrite (mappers_getitem_unregistered _ _ Hb). by eexists. }
  destruct (mappers_getitem ctx (table_mapper col_b)) as [e|ab]; [by eexists|].
  cbn [rbind ok].
  destruct (get_col_name_cases ctx col_a) as [[Hca _]|[Hca _]].
  { exfalso. apply Hnot. split; [done|]. by exists col_b. }
  rewrite (mappers_getitem_unregistered _ _ Hca). by eexists.
Qed.

Lemma joins_add m ctx : joins (_add_table_mapper m ctx) = joins ctx.
Proof. unfold _add_table_mapper. by destruct (mappers ctx !! m). Qed.

Lemma db_spec_add m ctx : db_spec (_add_table_mapper m ctx) = db_spec ctx.
Proof. unfold _add_table_mapper. by destruct (mappers ctx !! m). Qed.

Lemma base_add m ctx : ctx_table_mapper (_add_table_mapper m ctx) = ctx_table_mapper ctx.
Proof. unfold _add_table_mapper. by destruct (mappers ctx !! m). Qed.

Lemma add_lookup_keeps m m' a ctx :
  mappers ctx !! m' = Some a → mappers (_add_table_mapper m ctx) !! m' = Some a.
Proof.
  intros Ha. unfold _add_table_mapper. destruct (mappers ctx !! m) eqn:Hm; [done|].
  cbn [mappers]. rewrite lookup_insert_ne; [done|]. congruence.
Qed.

Lemma add_lookup_self m ctx : is_Some (mappers (_add_table_mapper m ctx) !! m).
Proof.
  unfold _add_table_mapper. destruct (mappers ctx !! m) eqn:Hm; [by rewrite Hm|].
  cbn [mappers]. by rewrite lookup_insert_eq.
Qed.

Lemma join_all_joins js ctx :
  joins (join_all js ctx) = joins ctx ++ (spec_of <$> js).
Proof.
  revert ctx. induction js as [|[[other on0] kind] js IH]; intros ctx.
  { simpl. by rewrite app_nil_r. }
  simpl. rewrite IH. unfold _join_ctx. rewrite joins_add. cbn [joins].
  by rewrite <- app_assoc.
Qed.

Lemma join_all_base js ctx :
  ctx_table_mapper (join_all js ctx) = ctx_table_mapper ctx
  ∧ db_spec (join_all js ctx) = db_spec ctx.
Proof.
  revert ctx. induction js as [|[[other on0] kind] js IH]; intros ctx; [done|].
  simpl. destruct (IH (_join_ctx other on0 kind ctx)) as [-> ->].
  unfold _join_ctx. by rewrite base_add, db_spec_add.
Qed.

Lemma join_all_keeps js ctx m a :
  mappers ctx !! m = Some a → mappers (join_all js ctx) !! m = Some a.
Proof.
  revert ctx. induction js as [|[[other on0] kind] js IH]; intros ctx Ha; [done|].
  simpl. apply IH. unfold _join_ctx. by apply add_lookup_keeps.
Qed.

Lemma join_all_registers js ctx j :
  j ∈ js → is_Some (mappers (join_all js ctx) !! tb (spec_of j)).
Proof.
  revert ctx. induction js as [|[[other on0] kind] js IH]; intros ctx Hin.
  { by apply elem_of_nil in Hin. }
  apply elem_of_cons in Hin as [->|Hin]; [|by apply IH].
  simpl. destruct (add_lookup_self other
    {| db_spec := db_spec ctx; ctx_table_mapper := ctx_table_mapper ctx;
       joins := joins ctx ++ [{| tb := other; join_tp := kind; on := on0 |}];
       mappers := mappers ctx; alias_map := alias_map ctx;
       where_expr := where_expr ctx |}) as [a Ha].
  exists a. by apply join_all_keeps.
Qed.

Lemma init_base_alias base db :
  mappers (ExecContext___init__ base db) !! base = Some (alias_of 1).
Proof.
  unfold ExecContext___init__, _add_table_mapper. cbn [mappers].
  rewrite lookup_empty. cbn [mappers]. rewrite map_size_empty.
  by rewrite lookup_insert_eq.
Qed.

Lemma joins_loop env ctx l :
  (∀ j, j ∈ l → is_Some (mappers ctx !! tb j)) →
  ∀ acc,
    (Forall (on_registered ctx) l →
     foldl (joins_step env ctx) (ok acc) l = ok (acc ++ (join_clause env ctx <$> l)))
    ∧ (Exists (λ j, ¬ on_registered ctx j) l →
       ∃ e, foldl (joins_step env ctx) (ok acc) l = raise e).
Proof.
  induction l as [|j l IH]; intros Htb acc.
  { split; [intros _; simpl; by rewrite app_nil_r|]. intros H. by inversion H. }
  assert (∀ j', j' ∈ l → is_Some (mappers ctx !! tb j')) as Htb'.
  { intros j' Hin. apply Htb. by right. }
  split.
  - intros Hall. inversion Hall as [|? ? Hj Hl]; subst.
    cbn [foldl]. rewrite joins_step_clause; [|apply Htb; by left|done].
    rewrite (proj1 (IH Htb' _) Hl). cbn [fmap list_fmap]. by rewrite <- app_assoc.
  - intros Hex. cbn [foldl].
    destruct (joins_step env ctx (ok acc) j) as [e|acc'] eqn:Hstep.
    { exists e. apply joins_step_raised. }
    inversion Hex as [? ? Hj|? ? Hl]; subst.
    + destruct (joins_step_fails env ctx acc j Hj) as [e He].
      unfold raise in He. congruence.
    + apply (proj2 (IH Htb' acc') Hl).
Qed.

(** X18. In a context built from a base mapper by a run of joins, the joins
    are recorded in call order with the table and kind of each call, and
    [get_joins_sql] writes the base table under its alias [t1] followed by
    one clause per join in that order, joined by single spaces, when the ON
    pair of every join names two columns of registered mappers; when the ON
    pair of some join does not, [get_joins_sql] raises. *)
Theorem joins_sql_in_call_order (env : ClassEnv) (base : TableMapper) (db : Database)
    (js : list (TableMapper * (Column * value) * string)) :
  let ctx := join_all js (ExecContext___init__ base db) in
  joins ctx = spec_of <$> js
  ∧ (Forall (on_registered ctx) (joins ctx) →
     get_joins_sql env ctx
     = ok (join " " ((format_table_name db (str_of (db_table (get_meta env base)))
                      +:+ " AS " +:+ format_table_name db (alias_of 1))
                     :: (join_clause env ctx <$> joins ctx))))
  ∧ (Exists (λ j, ¬ on_registered ctx j) (joins ctx) →
     ∃ e, get_joins_sql env ctx = raise e).
Proof.
  intros ctx.
  assert (joins ctx = spec_of <$> js) as Hjoins.
  { unfold ctx. rewrite join_all_joins. unfold ExecContext___init__.
    by rewrite joins_add. }
  assert (ctx_table_mapper ctx = base ∧ db_spec ctx = db) as [Hbase Hdb].
  { unfold ctx. destruct (join_all_base js (ExecContext___init__ base db)) as [-> ->].
    unfold ExecContext___init__. by rewrite base_add, db_spec_add. }
  assert (mappers ctx !! base = Some (alias_of 1)) as Halias.
  { apply join_all_keeps, init_base_alias. }
  assert (∀ j, j ∈ joins ctx → is_Some (mappers ctx !! tb j)) as Htb.
  { intros j. rewrite Hjoins. intros (j0 & -> & Hin)%list_elem_of_fmap.
    by apply join_all_registers. }
  split; [done|].
  rewrite get_joins_sql_loop. unfold mappers_getitem.
  rewrite Hbase, Hdb, Halias. cbn [rbind ok].
  pose proof (joins_loop env ctx (joins ctx) Htb
    [format_table_name db (str_of (db_table (get_meta env base)))
     +:+ " AS " +:+ format_table_name db (alias_of 1)]) as [Hgood Hbad].
  split.
  - intros Hall. rewrite (Hgood Hall). reflexivity.
  - intros Hex. destruct (Hbad Hex) as [e ->]. by exists e.
Qed.

Lemma joins_sql_in_call_order_witness :
  get_joins_sql test_env
    (join_all [(AuthorBooks, (AuthorBooks_book_id, VCol Books_id), LEFT_JOIN)]
              (ExecContext___init__ Books MySQLDatabase))
  = ok (join " " [format_table_name MySQLDatabase
                    (str_of (db_table (get_meta test_env Books)))
                  +:+ " AS " +:+ format_table_name MySQLDatabase "t1";
                  join_clause test_env
                    (join_all [(AuthorBooks, (AuthorBooks_book_id, VCol Books_id), LEFT_JOIN)]
                              (ExecContext___init__ Books MySQLDatabase))
                    (spec_of (AuthorBooks, (AuthorBooks_book_id, VCol Books_id), LEFT_JOIN))]).
Proof.
  apply (proj1 (proj2 (joins_sql_in_call_order test_env Books MySQLDatabase
    [(AuthorBooks, (AuthorBooks_book_id, VCol Books_id), LEFT_JOIN)]))).
  repeat constructor.
  - exists AuthorBooks. split; [reflexivity|]. by vm_compute; eexists.
  - exists Books_id. split; [reflexivity|].
    exists Books. split; [reflexivity|]. by vm_compute; eexists.
Defined.

(** ** What an [UpdatePlan] sends *)

Lemma execute_rowcount_issued db drv query parameters w r w' :
  execute_rowcount db drv query parameters w = (r, w') →
  issued w' = issued w ∨ issued w' = issued w ++ [(query, parameters)].
Proof.
  unfold execute_rowcount, Database__execute.
  destruct (allocate 1 (open_err drv) (Some 0) (pw w)) as [[[e|con]|] p1].
  - intros [= _ <-]. by left.
  - destruct (cursor_err drv); [intros [= _ <-]; by left|].
    destruct (cursor_execute drv query parameters); [destruct (bool_decide _)|];
      intros [= _ <-]; by right.
  - intros [= _ <-]. by left.
Qed.

Lemma fields_loop_assignments env self instance table_mapper dirty field_names
    fs ar fs' ar' w w' :
  fields_loop env self instance table_mapper dirty field_names (fs, ar) w
  = (inr (fs', ar'), w') →
  Forall assignment fs → Forall assignment fs'.
Proof.
  unfold fields_loop. revert fs ar w.
  induction field_names as [|f_name names IH]; intros fs ar w Hrun Hfs.
  { by injection Hrun as <- _ _. }
  simpl in Hrun. apply mbind_returned in Hrun as ([fs1 ar1] & w1 & Hx & Hrun).
  apply IH in Hrun; [done|].
  destruct (get_column _ f_name); [|done].
  apply mbind_returned in Hx as (col_name & w2 & _ & Hx).
  apply mbind_returned in Hx as (v & w3 & _ & Hx).
  assert (Forall assignment (fs ++ [col_name +:+ "=%s"])) as Hnew.
  { apply Forall_app. split; [done|]. constructor; [by exists col_name|constructor]. }
  destruct v; try done; by injection Hx as <- _ _.
Qed.

Lemma instance_body_assignments env self instance l w l' w' :
  instance_body env self instance l w = (inr l', w') →
  Forall assignment (field_s l) → Forall assignment (where_s l) →
  Forall assignment (field_s l') ∧ Forall assignment (where_s l').
Proof.
  intros Hrun Hfs Hws. unfold instance_body in Hrun.
  apply mbind_returned in Hrun as (oh & w1 & _ & Hrun).
  destruct oh as [holder|]; [|done].
  apply mbind_returned in Hrun as (dirty & w2 & _ & Hrun).
  destruct (bool_decide (dirty = ∅) && _only_dirty self).
  { by injection Hrun as <- _. }
  destruct (resolve_mapper _ _ _) as [table_mapper|]; [|done].
  apply mbind_returned in Hrun as (info & w3 & _ & Hrun).
  apply mbind_returned in Hrun as ([fs ar] & w4 & Hloop & Hrun).
  apply fields_loop_assignments in Hloop; [|done].
  destruct (elements _) as [|id_chosen ids].
  - by injection Hrun as <- _.
  - apply mbind_returned in Hrun as (v & w5 & _ & Hrun).
    injection Hrun as <- _. cbn [field_s where_s]. split; [done|].
    apply Forall_app. split; [done|]. constructor; [by exists id_chosen|constructor].
Qed.

Lemma instances_loop_assignments env self instances l w l' w' :
  for_each instances (instance_body env self) l w = (inr l', w') →
  Forall assignment (field_s l) → Forall assignment (where_s l) →
  Forall assignment (field_s l') ∧ Forall assignment (where_s l').
Proof.
  revert l w. induction instances as [|x instances IH]; intros l w Hrun Hfs Hws.
  { by injection Hrun as <- _. }
  simpl in Hrun. apply mbind_returned in Hrun as (l1 & w1 & Hx & Hrun).
  apply instance_body_assignments in Hx as [Hfs1 Hws1]; [|done..].
  by apply IH in Hrun.
Qed.

(** X19. Whatever an [UpdatePlan] does, it sends at most one statement. For
    an empty list of instances it raises [ImproperlyConfig] and changes
    nothing. A statement it sends is [UPDATE <joins> SET <fields> WHERE
    <terms>], where the fields are a non-empty list of [<column>=%s] joined
    by commas and the terms a non-empty list joined by [ AND ]: identifier
    terms [<name>=%s], followed by the rendering of the WHERE expression of
    the context when it has one. *)
Theorem update_sends_one_guarded_statement (env : ClassEnv) (drv : Driver)
    (self : UpdatePlan) (w : World) (r : result UpdatePlan) (w' : World) :
  _execute env drv self w = (r, w') →
  (_instances self = [] → r = raise ImproperlyConfig ∧ w' = w)
  ∧ (issued w' = issued w
     ∨ ∃ joins_sql fs ids more ar,
         get_joins_sql env (_ctx self) = ok joins_sql
         ∧ fs ≠ [] ∧ Forall assignment fs
         ∧ Forall assignment ids ∧ where_more (_ctx self) more
         ∧ ids ++ more ≠ []
         ∧ issued w' = issued w
                       ++ [("UPDATE " +:+ joins_sql +:+ " SET " +:+ join "," fs
                            +:+ " WHERE " +:+ join " AND " (ids ++ more), ar)]).
Proof.
  unfold _execute. destruct (_instances self) as [|i0 rest] eqn:Hinst.
  { intros [= <- <-]. split; [done|by left]. }
  intros Hrun. split; [done|]. revert Hrun.
  rewrite <- Hinst. clear Hinst i0 rest.
  unfold mbind at 1.
  destruct (for_each _ _ _ w) as [[e|l] w1] eqn:Hloop.
  { intros [= <- <-]. left.
    eapply quiet_for_each; [|exact Hloop]. intros; apply quiet_instance_body. }
  assert (untouched w w1) as (_ & Hi1 & _).
  { eapply quiet_for_each; [|exact Hloop]. intros; apply quiet_instance_body. }
  apply instances_loop_assignments in Hloop as [Hfs Hws]; [|constructor..].
  destruct (field_s l) as [|f fs] eqn:Hfield.
  { intros [= <- <-]. by left. }
  unfold mbind at 1.
  match goal with
  | |- match ?x with _ => _ end = _ → _ => destruct x as [[e|[ws ar]] w2] eqn:Hw
  end.
  { intros [= <- <-]. left.
    assert (w2 = w1) as ->; [|done].
    destruct (where_expr (_ctx self)); [|by injection Hw].
    apply mbind_raised in Hw as [Hw|([? ?] & ? & _ & Hw)]; [by injection Hw|done]. }
  assert (w2 = w1 ∧ ∃ more, ws = where_s l ++ more ∧ where_more (_ctx self) more)
    as [-> (more & -> & Hmore)].
  { unfold where_more. destruct (where_expr (_ctx self)) as [e|].
    - apply mbind_returned in Hw as ([s a1] & ? & Hw & Hret).
      injection Hw as Hb <-. injection Hret as <- <- <-.
      split; [done|]. exists [s]. split; [done|]. by exists s, (args l), a1.
    - injection Hw as <- <- <-. split; [done|]. exists []. by rewrite app_nil_r. }
  destruct (where_s l ++ more) as [|w0 ws] eqn:Hterms.
  { intros [= <- <-]. by left. }
  rewrite <- Hterms.
  unfold mbind at 1. unfold lift at 1.
  destruct (get_joins_sql env (_ctx self)) as [e|joins_sql] eqn:Hjoins.
  { intros [= <- <-]. by left. }
  unfold mbind at 1.
  destruct (execute_rowcount _ _ _ _ w1) as [[e|n] w4] eqn:Hexec.
  - intros [= <- <-].
    apply execute_rowcount_issued in Hexec as [Hiss|Hiss]; [left; congruence|].
    right. exists joins_sql, (f :: fs), (where_s l), more, ar.
    repeat split; try done; [by rewrite Hterms|congruence].
  - apply execute_rowcount_returned in Hexec as [_ Hiss].
    destruct (reset_all_spec (holders l) w4) as (w5 & Hok & _ & _ & Hiss5).
    unfold mbind at 1. rewrite Hok. intros [= <- <-].
    right. exists joins_sql, (f :: fs), (where_s l), more, ar.
    repeat split; try done; [by rewrite Hterms|congruence].
Qed.

(** ** What an [InsertPlan] and a [DeletePlan] send *)

(** The frame of the statement methods: either the body was not reached and
    only the pool changed, or the body ran once and the store and the
    statements are as the body left them. *)
Lemma Database_call_cases {A} drv (body : M A) w r w' :
  Database_call drv body w = (r, w') →
  (store w' = store w ∧ issued w' = issued w ∧ ∃ e, r = inl e)
  ∨ ∃ p1 w2, body (set_pw p1 w) = (r, w2)
             ∧ store w' = store w2 ∧ issued w' = issued w2.
Proof.
  unfold Database_call.
  destruct (allocate 1 (open_err drv) (Some 0) (pw w)) as [[[e|con]|] p1].
  - intros [= <- <-]. left. eauto.
  - destruct (cursor_err drv) as [e|]; [intros [= <- <-]; left; eauto|].
    destruct (body (set_pw p1 w)) as [r2 w2] eqn:Hbody.
    intros [= <- <-]. right. by exists p1, w2.
  - intros [= <- <-]. left. eauto.
Qed.

Lemma executemany_lastrowid_cases drv ans q rows w r w' :
  executemany_lastrowid drv ans q rows w = (r, w') →
  store w' = store w
  ∧ ((issued w' = issued w ∧ ∃ e, r = inl e)
     ∨ issued w' = issued w ++ [(q, VTuple <$> rows)]).
Proof.
  intros [(Hs & Hi & He)|(p1 & w2 & Hbody & Hs & Hi)]%Database_call_cases.
  { split; [done|]. by left. }
  unfold mbind, cursor_executemany_call in Hbody.
  destruct (cursor_executemany ans q rows); injection Hbody as _ <-;
    (split; [done|by right]).
Qed.

Lemma same_tracking_store w w' : store w' = store w → same_tracking w w'.
Proof. intros Hs i. by rewrite Hs. Qed.

Lemma row_of_returned instance f_names acc w row w' :
  for_each f_names
    (λ f_name values,
       do! v := getattr instance f_name in
       match v with
       | VZero => mraise ValueError
       | _ => mret (values ++ [v])
       end) acc w = (inr row, w') →
  length row = (length acc + length f_names)%nat
  ∧ (VZero ∉ acc → VZero ∉ row).
Proof.
  revert acc w. induction f_names as [|f_name names IH]; intros acc w Hrun.
  { injection Hrun as <- _. simpl. split; [lia|done]. }
  simpl in Hrun. apply mbind_returned in Hrun as (acc1 & w1 & Hx & Hrun).
  apply IH in Hrun as [Hlen Hzero].
  apply mbind_returned in Hx as (v & w2 & _ & Hx).
  assert (v ≠ VZero ∧ acc1 = acc ++ [v]) as [Hv ->].
  { destruct v; try done; by injection Hx as <- _. }
  rewrite Hlen, length_app. simpl. split; [lia|].
  intros Hacc. apply Hzero. intros [?|Hin%list_elem_of_singleton]%elem_of_app; congruence.
Qed.

Lemma quiet_row_of instance f_names : quiet (InsertPlan.row_of instance f_names).
Proof. unfold InsertPlan.row_of. repeat quiet_step. Qed.

Lemma rows_loop_returned instances f_names acc w rows w' :
  for_each instances
    (λ instance args,
       do! row := InsertPlan.row_of instance f_names in
       mret (args ++ [row])) acc w = (inr rows, w') →
  length rows = (length acc + length instances)%nat
  ∧ (Forall (λ row, length row = length f_names ∧ VZero ∉ row) acc →
     Forall (λ row, length row = length f_names ∧ VZero ∉ row) rows).
Proof.
  revert acc w. induction instances as [|i instances IH]; intros acc w Hrun.
  { injection Hrun as <- _. simpl. split; [lia|done]. }
  simpl in Hrun. apply mbind_returned in Hrun as (acc1 & w1 & Hx & Hrun).
  apply IH in Hrun as [Hlen Hall].
  apply mbind_returned in Hx as (row & w2 & Hrow & Hx). injection Hx as <- _.
  apply row_of_returned in Hrow as [Hrl Hrz].
  rewrite Hlen, length_app. simpl. split; [lia|].
  intros Hacc. apply Hall, Forall_app. split; [done|].
  constructor; [|constructor]. split; [done|]. apply Hrz. by intros ?%elem_of_nil.
Qed.

(** X20. An [InsertPlan] never changes a ledger, so a dirty instance is
    still dirty after it was inserted. It either fails before anything is
    sent, or sends one statement with one row per instance, each row with
    one value per field of the class of the first instance and none of them
    the zero value of an unset field; and when it returns, the statement
    was sent, [rows_cnt] is the number of instances and [last_id] is set. *)
Theorem insert_sends_all_rows (env : ClassEnv) (drv : Driver) (ans : Answers)
    (context : ExecContext) (instance : Instance) (instances : list Instance)
    (w : World) (r : result InsertPlan.t) (w' : World) :
  InsertPlan.__init__ env drv ans context instance instances w = (r, w') →
  same_tracking w w'
  ∧ ((issued w' = issued w ∧ ∃ e, r = raise e)
     ∨ ∃ sql rows,
         issued w' = issued w ++ [(sql, VTuple <$> rows)]
         ∧ length rows = S (length instances)
         ∧ Forall (λ row, length row = length (class_fields env (inst_class instance))
                          ∧ VZero ∉ row) rows)
  ∧ (∀ p, r = ok p →
          issued w' ≠ issued w
          ∧ InsertPlan.rows_cnt p = S (length instances)
          ∧ is_Some (InsertPlan.last_id p)).
Proof.
  unfold InsertPlan.__init__, InsertPlan._execute.
  cbn [InsertPlan._instances InsertPlan._ctx InsertPlan._cnt].
  assert (∀ A (m : M A), quiet m → ∀ e w1,
            m w = (inl e, w1) →
            same_tracking w w1
            ∧ ((issued w1 = issued w ∧ ∃ e0, @inl exn InsertPlan.t e = raise e0)
               ∨ ∃ sql rows,
                   issued w1 = issued w ++ [(sql, VTuple <$> rows)]
                   ∧ length rows = S (length instances)
                   ∧ Forall (λ row, length row
                                    = length (class_fields env (inst_class instance))
                                    ∧ VZero ∉ row) rows)
            ∧ (∀ p, @inl exn InsertPlan.t e = ok p →
                    issued w1 ≠ issued w
                    ∧ InsertPlan.rows_cnt p = S (length instances)
                    ∧ is_Some (InsertPlan.last_id p))) as Hquiet.
  { intros A m Hm e w1 Hrun. destruct (Hm _ _ _ Hrun) as (Hs & Hi & _).
    split; [done|]. split; [left; eauto|done]. }
  unfold mbind at 1. unfold lift at 1.
  destruct (get_entity_info env (inst_class instance)) as [e|f_names] eqn:Hinfo.
  { intros [= <- <-]. apply (Hquiet unit (mraise e)); [apply quiet_mraise|done]. }
  assert (f_names = class_fields env (inst_class instance)) as Hnames.
  { unfold get_entity_info in Hinfo.
    destruct (class_fields env (inst_class instance)); [done|]. by injection Hinfo. }
  destruct (resolve_mapper env context (inst_class instance)) as [mapper|].
  2:{ intros [= <- <-].
      apply (Hquiet unit (mraise AttributeError)); [apply quiet_mraise|done]. }
  unfold mbind at 1. unfold lift at 1.
  destruct (InsertPlan.db_columns (get_meta env mapper) f_names) as [e|cols].
  { intros [= <- <-]. apply (Hquiet unit (mraise e)); [apply quiet_mraise|done]. }
  unfold mbind at 1.
  destruct (for_each (instance :: instances) _ [] w) as [[e|rows] w1] eqn:Hloop.
  { intros [= <- <-].
    apply (Hquiet _ (for_each (instance :: instances)
                     (λ i args, do! row := InsertPlan.row_of i f_names in
                                mret (args ++ [row])) [])); [|exact Hloop].
    apply quiet_for_each. intros. apply quiet_mbind; [apply quiet_row_of|].
    intros. apply quiet_mret. }
  assert (untouched w w1) as (Hs1 & Hi1 & _).
  { eapply (quiet_for_each (instance :: instances)); [|exact Hloop].
    intros. apply quiet_mbind; [apply quiet_row_of|]. intros. apply quiet_mret. }
  apply rows_loop_returned in Hloop as [Hlen Hall].
  specialize (Hall (Forall_nil_2 _)). simpl in Hlen. rewrite Hnames in Hall.
  unfold mbind at 1.
  destruct (executemany_lastrowid drv ans _ rows w1) as [[e|last] w2] eqn:Hexec;
    apply executemany_lastrowid_cases in Hexec as [Hst Hiss]; intros [= <- <-].
  - split; [eapply same_tracking_trans; [done|by apply same_tracking_store]|].
    split; [|done].
    destruct Hiss as [[Hiss _]|Hiss].
    + left. split; [congruence|eauto].
    + right. do 2 eexists. split; [rewrite Hiss, Hi1; reflexivity|done].
  - split; [eapply same_tracking_trans; [done|by apply same_tracking_store]|].
    destruct Hiss as [[_ [e He]]|Hiss]; [done|].
    split.
    + right. do 2 eexists. split; [rewrite Hiss, Hi1; reflexivity|done].
    + intros p [= <-]. split; [|split; [done|by eexists]].
      rewrite Hiss, Hi1. intros Heq.
      apply (f_equal length) in Heq. rewrite length_app in Heq. simpl in Heq. lia.
Qed.

Lemma insert_sends_all_rows_witness :
  let book := {| inst_id := 7; inst_class := Book |} in
  let out := InsertPlan.__init__ test_env driver_up one_row Books_context book []
               renamed_book.2 in
  same_tracking renamed_book.2 out.2
  ∧ ∃ p, out.1 = ok p
         ∧ issued out.2 ≠ issued renamed_book.2
         ∧ InsertPlan.rows_cnt p = 1%nat
         ∧ is_Some (InsertPlan.last_id p).
Proof.
  intros book out.
  assert (∃ p, out = (ok p, out.2)) as [p Hout] by (vm_compute; eexists; reflexivity).
  destruct (insert_sends_all_rows test_env driver_up one_row Books_context book []
              renamed_book.2 (ok p) out.2 Hout) as (Hsame & _ & Hret).
  split; [exact Hsame|]. exists p. split; [by rewrite Hout|]. exact (Hret p eq_refl).
Defined.

Lemma update_sends_one_guarded_statement_witness :
  let plan := {| _ctx := Books_context;
                 _instances := [{| inst_id := 7; inst_class := Book |}];
                 _affected_cnt := 0; _only_dirty := true |} in
  let out := _execute test_env driver_up plan renamed_book.2 in
  issued out.2 = issued renamed_book.2
  ∨ ∃ joins_sql fs ids more ar,
      get_joins_sql test_env Books_context = ok joins_sql
      ∧ fs ≠ [] ∧ Forall assignment fs
      ∧ Forall assignment ids ∧ where_more Books_context more
      ∧ ids ++ more ≠ []
      ∧ issued out.2 = issued renamed_book.2
                       ++ [("UPDATE " +:+ joins_sql +:+ " SET " +:+ join "," fs
                            +:+ " WHERE " +:+ join " AND " (ids ++ more), ar)].
Proof.
  intros plan out.
  apply (update_sends_one_guarded_statement test_env driver_up plan renamed_book.2
           out.1 out.2).
  unfold out. by destruct (_execute test_env driver_up plan renamed_book.2).
Defined.

Lemma quiet_instances_block env self : quiet (DeletePlan.instances_block env self).
Proof.
  unfold DeletePlan.instances_block.
  destruct (DeletePlan._instances self); [apply quiet_mret|].
  repeat quiet_step.
Qed.

Lemma in_lst_returned (instances : list Instance) id_name acc w in_lst w' :
  for_each instances
    (λ instance in_lst, do! v := getattr instance id_name in mret (in_lst ++ [v]))
    acc w = (inr in_lst, w') →
  length in_lst = (length acc + length instances)%nat.
Proof.
  revert acc w. induction instances as [|i instances IH]; intros acc w Hrun.
  { injection Hrun as <- _. simpl. lia. }
  simpl in Hrun. apply mbind_returned in Hrun as (acc1 & w1 & Hx & Hrun).
  apply IH in Hrun. apply mbind_returned in Hx as (v & w2 & _ & Hx).
  injection Hx as <- _. rewrite Hrun, length_app. simpl. lia.
Qed.

(** The block over the instances, when it returns: without instances it
    leaves both lists empty; with instances they are all of one class, which
    the mapper of the plan manages, and the block leaves one [IN] term on a
    quoted column and one identifier value per instance. *)
Lemma instances_block_returned env self w where_s in_lst w' :
  DeletePlan.instances_block env self w = (inr (where_s, in_lst), w') →
  (DeletePlan._instances self = [] ∧ where_s = [] ∧ in_lst = [])
  ∨ (∃ first column,
       head (DeletePlan._instances self) = Some first
       ∧ (∀ i, i ∈ DeletePlan._instances self → inst_class i = inst_class first)
       ∧ inst_class first ∈ __managed_set__ (get_meta env (DeletePlan._mapper self))
       ∧ where_s = [quoted (db_spec (DeletePlan._ctx self)) column +:+ " IN %s"]
       ∧ length in_lst = length (DeletePlan._instances self)).
Proof.
  unfold DeletePlan.instances_block.
  destruct (DeletePlan._instances self) as [|first rest] eqn:Hinst.
  { intros [= <- <- _]. by left. }
  rewrite <- Hinst.
  destruct (existsb _ _) eqn:Hmixed; [done|].
  destruct (bool_decide (inst_class first ∈ _)) eqn:Hmanaged; [|done].
  apply bool_decide_eq_true in Hmanaged. cbn [negb].
  intros (info & w1 & _ & Hrun)%mbind_returned.
  destruct (elements _) as [|id_name_chosen ids]; [done|].
  destruct (get_column _ id_name_chosen) as [column|]; [|done].
  apply mbind_returned in Hrun as (il & w2 & Hloop & Hret).
  injection Hret as <- <- _. apply in_lst_returned in Hloop.
  right. exists first, column. rewrite Hinst. split; [done|].
  split; [|split; [done|split; [done|]]].
  - intros i Hi. rewrite <- Hinst in Hi.
    destruct (decide (inst_class i = inst_class first)) as [|Hne]; [done|].
    assert (existsb (λ c, negb (bool_decide (inst_class c = inst_class first)))
                    (DeletePlan._instances self) = true) as Hex; [|congruence].
    apply existsb_exists. exists i. split; [by apply list_elem_of_In|].
    by rewrite bool_decide_eq_false_2.
  - by rewrite <- Hinst.
Qed.

Lemma instances_block_mixed env self w :
  (∃ i j, i ∈ DeletePlan._instances self ∧ j ∈ DeletePlan._instances self
          ∧ inst_class i ≠ inst_class j) →
  DeletePlan.instances_block env self w = (raise ImproperlyConfig, w).
Proof.
  intros (i & j & Hi & Hj & Hne). unfold DeletePlan.instances_block.
  destruct (DeletePlan._instances self) as [|first rest] eqn:Hinst.
  { by apply elem_of_nil in Hi. }
  rewrite <- Hinst.
  assert (existsb (λ c, negb (bool_decide (inst_class c = inst_class first)))
                  (DeletePlan._instances self) = true) as ->; [|done].
  apply existsb_exists. rewrite Hinst.
  destruct (decide (inst_class i = inst_class first)) as [Heq|Hdiff].
  - exists j. split; [by apply list_elem_of_In|].
    rewrite bool_decide_eq_false_2; [done|congruence].
  - exists i. split; [by apply list_elem_of_In|].
    by rewrite bool_decide_eq_false_2.
Qed.

(** X21. A [DeletePlan] never changes a ledger and sends at most one
    statement. Without instances and without a WHERE expression it raises
    [ImproperlyConfig] and changes nothing; with instances of more than one
    class it raises [ImproperlyConfig] and sends nothing. A statement it
    sends is [DELETE FROM <table> WHERE <terms>] for the table of the base
    mapper of the context, with a non-empty list of terms joined by [ AND ]:
    for a plan with instances (all of one class, managed by the base mapper)
    one term [<quoted column> IN %s] whose argument holds one value per
    instance, then for a context with a WHERE expression its rendering under
    quoted, unqualified column names. *)
Theorem delete_is_never_unconditional (env : ClassEnv) (drv : Driver)
    (context : ExecContext) (instances : list Instance)
    (w : World) (r : result DeletePlan.t) (w' : World) :
  DeletePlan.__init__ env drv context instances w = (r, w') →
  same_tracking w w'
  ∧ (instances = [] → where_expr context = None →
     r = raise ImproperlyConfig ∧ w' = w)
  ∧ ((∃ i j, i ∈ instances ∧ j ∈ instances ∧ inst_class i ≠ inst_class j) →
     r = raise ImproperlyConfig ∧ issued w' = issued w)
  ∧ (issued w' = issued w
     ∨ ∃ in_terms in_args more ar,
         issued w' = issued w
                     ++ [("DELETE FROM "
                          +:+ format_table_name (db_spec context)
                                (str_of (db_table (get_meta env (ctx_table_mapper context))))
                          +:+ " WHERE " +:+ join " AND " (in_terms ++ more), ar)]
         ∧ in_terms ++ more ≠ []
         ∧ match instances with
           | [] => in_terms = [] ∧ in_args = []
           | first :: _ =>
               (∀ i, i ∈ instances → inst_class i = inst_class first)
               ∧ inst_class first ∈ __managed_set__ (get_meta env (ctx_table_mapper context))
               ∧ ∃ column ids,
                   in_terms = [quoted (db_spec context) column +:+ " IN %s"]
                   ∧ in_args = [VTuple ids] ∧ length ids = length instances
           end
         ∧ match where_expr context with
           | None => more = [] ∧ ar = in_args
           | Some e =>
               ∃ s, building (DeletePlan.quoted_name (db_spec context)) e in_args
                    = ok (s, ar)
                    ∧ more = [s]
                    ∧ (well_formed e = true →
                       s = render (quoted (db_spec context)) e
                       ∧ ar = in_args ++ render_args e)
           end).
Proof.
  unfold DeletePlan.__init__. set (self := DeletePlan.mk context instances None _).
  intros Hrun.
  assert (DeletePlan._execute env drv self w
          = delete_tail env drv self w) as Hexec.
  { unfold DeletePlan._execute, delete_tail, DeletePlan.instances_block.
    cbn [DeletePlan._instances DeletePlan._ctx DeletePlan._mapper self].
    destruct instances; [destruct (where_expr context) eqn:Hw|]; reflexivity. }
  rewrite Hexec in Hrun. clear Hexec. unfold delete_tail in Hrun.
  cbn [DeletePlan._instances DeletePlan._ctx DeletePlan._mapper self] in Hrun.
  assert ((∃ i j, i ∈ instances ∧ j ∈ instances ∧ inst_class i ≠ inst_class j) →
          DeletePlan.instances_block env self w = (raise ImproperlyConfig, w)) as Hmixed.
  { intros Hm. by apply (instances_block_mixed env self w). }
  unfold mbind at 1 in Hrun.
  destruct (DeletePlan.instances_block env self w) as [[e|[ws il]] w1] eqn:Hblock.
  { injection Hrun as <- <-.
    destruct (quiet_instances_block env self _ _ _ Hblock) as (Hs & Hi & _).
    split; [done|]. split; [|split; [|by left]].
    - intros -> Hnone. by exfalso.
    - intros Hm. specialize (Hmixed Hm). by injection Hmixed as <- <-. }
  destruct (quiet_instances_block env self _ _ _ Hblock) as (Hs1 & Hi1 & _).
  assert (¬ ∃ i j, i ∈ instances ∧ j ∈ instances ∧ inst_class i ≠ inst_class j)
    as Hsame.
  { intros Hm. specialize (Hmixed Hm). by injection Hmixed. }
  clear Hmixed.
  assert (instances = [] → w1 = w) as Hw1.
  { intros ->. by injection Hblock. }
  apply instances_block_returned in Hblock.
  cbn [DeletePlan._instances DeletePlan._ctx DeletePlan._mapper self] in Hblock.
  set (in_args := match il with [] => [] | _ => [VTuple il] end) in *.
  assert (match instances with
          | [] => ws = [] ∧ in_args = []
          | first :: _ =>
              (∀ i, i ∈ instances → inst_class i = inst_class first)
              ∧ inst_class first ∈ __managed_set__ (get_meta env (ctx_table_mapper context))
              ∧ ∃ column ids,
                  ws = [quoted (db_spec context) column +:+ " IN %s"]
                  ∧ in_args = [VTuple ids] ∧ length ids = length instances
          end) as Hin.
  { destruct Hblock as [(-> & -> & ->)|(first & column & Hhead & Hcls & Hman & -> & Hlen)].
    - done.
    - destruct instances as [|i0 rest]; [done|]. injection Hhead as ->.
      split; [done|]. split; [done|]. exists column, il. split; [done|].
      split; [|done]. unfold in_args. destruct il; [done|done]. }
  clear Hblock. revert Hrun. unfold mbind at 1.
  match goal with
  | |- match ?x with _ => _ end = _ → _ => destruct x as [[e|[ws2 ar]] w2] eqn:Hw
  end.
  { intros [= <- <-].
    assert (w2 = w1) as ->.
    { destruct (where_expr context); [|by injection Hw].
      apply mbind_raised in Hw as [Hw|([? ?] & ? & _ & Hw)]; [by injection Hw|done]. }
    split; [done|]. split; [|split; [done|by left]].
    intros -> Hnone. rewrite Hnone in Hw. done. }
  assert (w2 = w1
          ∧ ∃ more, ws2 = ws ++ more
            ∧ match where_expr context with
              | None => more = [] ∧ ar = in_args
              | Some e =>
                  ∃ s, building (DeletePlan.quoted_name (db_spec context)) e in_args
                       = ok (s, ar)
                       ∧ more = [s]
                       ∧ (well_formed e = true →
                          s = render (quoted (db_spec context)) e
                          ∧ ar = in_args ++ render_args e)
              end) as [-> (more & -> & Hmore)].
  { destruct (where_expr context) as [e|].
    - apply mbind_returned in Hw as ([s a1] & ? & Hw & Hret).
      injection Hw as Hb <-. injection Hret as <- <- <-.
      split; [done|]. exists [s]. split; [done|]. exists s.
      split; [done|]. split; [done|]. intros Hwf.
      pose proof (building_render (quoted (db_spec context)) e Hwf in_args) as Hr.
      change (building (DeletePlan.quoted_name (db_spec context)) e in_args
              = ok (render (quoted (db_spec context)) e, in_args ++ render_args e)) in Hr.
      rewrite Hr in Hb. by injection Hb as <- <-.
    - injection Hw as <- <- <-. split; [done|]. exists []. by rewrite app_nil_r. }
  destruct (ws ++ more) as [|t0 ts] eqn:Hterms.
  { intros [= <- <-]. split; [done|]. split; [|split; [done|by left]].
    intros Hnil Hnone. split; [done|]. by apply Hw1. }
  rewrite <- Hterms. unfold mbind at 1.
  destruct (execute_rowcount _ _ _ _ w1) as [rn w4] eqn:Hexec.
  assert (same_tracking w w4) as Hs4.
  { eapply same_tracking_trans; [done|].
    apply same_tracking_store. by eapply execute_rowcount_store. }
  assert (issued w4 = issued w
          ∨ ∃ in_terms in_args0 more0 ar0,
              issued w4 = issued w
                          ++ [("DELETE FROM "
                               +:+ format_table_name (db_spec context)
                                     (str_of (db_table (get_meta env (ctx_table_mapper context))))
                               +:+ " WHERE " +:+ join " AND " (in_terms ++ more0), ar0)]
              ∧ in_terms ++ more0 ≠ []
              ∧ match instances with
                | [] => in_terms = [] ∧ in_args0 = []
                | first :: _ =>
                    (∀ i, i ∈ instances → inst_class i = inst_class first)
                    ∧ inst_class first
                      ∈ __managed_set__ (get_meta env (ctx_table_mapper context))
                    ∧ ∃ column ids,
                        in_terms = [quoted (db_spec context) column +:+ " IN %s"]
                        ∧ in_args0 = [VTuple ids] ∧ length ids = length instances
                end
              ∧ match where_expr context with
                | None => more0 = [] ∧ ar0 = in_args0
                | Some e =>
                    ∃ s, building (DeletePlan.quoted_name (db_spec context)) e in_args0
                         = ok (s, ar0)
                         ∧ more0 = [s]
                         ∧ (well_formed e = true →
                            s = render (quoted (db_spec context)) e
                            ∧ ar0 = in_args0 ++ render_args e)
                end) as Hsent.
  { apply execute_rowcount_issued in Hexec as [Hiss|Hiss]; [left; congruence|].
    right. exists ws, in_args, more, ar. split; [congruence|].
    split; [by rewrite Hterms|]. by split. }
  assert (∀ e, rn = inl e → instances = [] → where_expr context = None → False) as Hcond.
  { intros _ _ -> Hnone. rewrite Hnone in Hmore. destruct Hmore as [-> _].
    destruct Hin as [-> _]. done. }
  destruct rn as [e|n]; intros [= <- <-].
  - split; [done|]. split; [|split; [done|done]].
    intros Hnil Hnone. exfalso. by eapply Hcond.
  - split; [done|]. split; [|split; [done|done]].
    intros -> Hnone. exfalso. rewrite Hnone in Hmore. destruct Hmore as [-> _].
    destruct Hin as [-> _]. done.
Qed.

Lemma delete_is_never_unconditional_witness :
  let book := {| inst_id := 7; inst_class := Book |} in
  let out := DeletePlan.__init__ test_env driver_up
               (ExecContext_where and_expr Books_context) [book] renamed_book.2 in
  same_tracking renamed_book.2 out.2
  ∧ issued out.2
    = issued renamed_book.2
      ++ [("DELETE FROM `t_book` WHERE `id` IN %s AND `id` > %s AND (`id` < %s)",
           [VTuple [VInt 1]; VInt 0; VInt 8])].
Proof.
  intros book out.
  destruct (delete_is_never_unconditional test_env driver_up
              (ExecContext_where and_expr Books_context) [book] renamed_book.2
              out.1 out.2) as (Hsame & _ & _ & Hsent).
  { unfold out. by destruct (DeletePlan.__init__ _ _ _ _ _). }
  split; [exact Hsame|]. vm_compute. reflexivity.
Defined.

(** ** What a [SelectPlan] selects *)

Lemma od_set_keys entity table_mapper m :
  (od_set entity table_mapper m).*1
  = if decide (entity ∈ m.*1) then m.*1 else m.*1 ++ [entity].
Proof.
  induction m as [|[k v] m IH].
  { destruct (decide (entity ∈ [].*1)) as [Hin|_]; [|done].
    by apply elem_of_nil in Hin. }
  cbn [od_set]. destruct (decide (k = entity)) as [->|Hne].
  - destruct (decide (entity ∈ ((entity, v) :: m).*1)) as [_|Hnotin]; [done|].
    exfalso. apply Hnotin. by left.
  - cbn [fmap list_fmap fst] in *. rewrite IH.
    destruct (decide (entity ∈ m.*1)) as [Hin|Hnotin];
      destruct (decide (entity ∈ k :: m.*1)) as [Hin'|Hnotin']; try done.
    + exfalso. apply Hnotin'. by right.
    + exfalso. apply elem_of_cons in Hin' as [?|?]; [congruence|done].
Qed.

Lemma od_set_elem entity table_mapper m k v :
  (k, v) ∈ od_set entity table_mapper m →
  (k = entity ∧ v = table_mapper) ∨ (k, v) ∈ m.
Proof.
  induction m as [|[k0 v0] m IH]; cbn [od_set].
  { intros [= -> ->]%list_elem_of_singleton. by left. }
  destruct (decide (k0 = entity)) as [->|Hne].
  - intros [[= -> ->]|Hin]%elem_of_cons; [by left|]. right. by right.
  - intros [[= -> ->]|Hin]%elem_of_cons.
    + right. by left.
    + destruct (IH Hin) as [?|?]; [by left|]. right. by right.
Qed.

Lemma select_step_raised env ctx e l :
  foldl (select_step env ctx) (raise e) l = raise e.
Proof. induction l as [|c l IH]; [done|]. simpl. exact IH. Qed.

Lemma select_step_cases env ctx m c :
  match config_mapper env ctx c with
  | Some table_mapper => select_step env ctx (ok m) c = ok (od_set c.2 table_mapper m)
  | None => select_step env ctx (ok m) c = raise ImproperlyConfig ∧ c.1 = None
  end.
Proof.
  destruct c as [[tm|] entity]; unfold config_mapper, select_step; cbn; [done|].
  by destruct (resolve_mapper env ctx entity).
Qed.

(** The loop of [select] from a map [m]: it ends with the entities in
    first-seen order, each with the mapper one of its configs asks for, or
    it raises [ImproperlyConfig] at a config whose mapper is not found. *)
Lemma select_loop env ctx configs m :
  match foldl (select_step env ctx) (ok m) configs with
  | inr m' =>
      m'.*1 = first_seen_from m.*1 configs.*2
      ∧ (∀ entity tm, (entity, tm) ∈ m' →
           (entity, tm) ∈ m
           ∨ ∃ c, c ∈ configs ∧ c.2 = entity ∧ config_mapper env ctx c = Some tm)
      ∧ ∀ c, c ∈ configs → is_Some (config_mapper env ctx c)
  | inl e =>
      e = ImproperlyConfig
      ∧ ∃ c, c ∈ configs ∧ c.1 = None ∧ resolve_mapper env ctx c.2 = None
  end.
Proof.
  revert m. induction configs as [|c configs IH]; intros m.
  { simpl. split; [done|]. split; [by left|]. by intros c ?%elem_of_nil. }
  cbn [foldl]. pose proof (select_step_cases env ctx m c) as Hstep.
  destruct (config_mapper env ctx c) as [tm|] eqn:Hc.
  - rewrite Hstep. specialize (IH (od_set c.2 tm m)).
    destruct (foldl _ _ configs) as [e|m'].
    + destruct IH as (-> & c' & Hin & Hnone & Hres). split; [done|].
      exists c'. split; [by right|done].
    + destruct IH as (Hkeys & Helem & Hall). split; [|split].
      * rewrite Hkeys, od_set_keys. reflexivity.
      * intros entity tm' Hin. destruct (Helem _ _ Hin) as [Hm|(c' & Hc' & Heq & Hcm)].
        -- apply od_set_elem in Hm as [[-> ->]|Hm]; [|by left].
           right. exists c. split; [by left|done].
        -- right. exists c'. split; [by right|done].
      * intros c' [->|Hin]%elem_of_cons; [by rewrite Hc|by apply Hall].
  - destruct Hstep as [-> Hnone]. rewrite select_step_raised. split; [done|].
    exists c. split; [by left|]. split; [done|].
    unfold config_mapper in Hc. by rewrite Hnone in Hc.
Qed.

(** X22. [ExecContext.select] keeps the entities in the order of the
    configs, each once, at the place of its first config, and maps every one
    to the mapper a config names for it or, for a config that names none, to
    a mapper found by [resolve_mapper]; it raises only [ImproperlyConfig],
    and does so exactly when some config names no mapper and none is found
    for its entity. *)
Theorem select_keeps_config_order (env : ClassEnv) (ctx : ExecContext)
    (entities_config : list (option TableMapper * Entity)) :
  (∀ plan, select env entities_config ctx = ok plan →
     SelectPlan._ctx plan = ctx
     ∧ (SelectPlan._entity_map plan).*1 = first_seen entities_config.*2
     ∧ ∀ entity tm, (entity, tm) ∈ SelectPlan._entity_map plan →
         ∃ c, c ∈ entities_config ∧ c.2 = entity ∧ config_mapper env ctx c = Some tm)
  ∧ (∀ e, select env entities_config ctx = raise e → e = ImproperlyConfig)
  ∧ (select env entities_config ctx = raise ImproperlyConfig
     ↔ ∃ c, c ∈ entities_config ∧ c.1 = None ∧ resolve_mapper env ctx c.2 = None).
Proof.
  unfold select.
  change (select_entity_map env ctx entities_config)
    with (foldl (select_step env ctx) (ok []) entities_config).
  pose proof (select_loop env ctx entities_config []) as Hloop.
  destruct (foldl _ _ entities_config) as [e|m].
  - destruct Hloop as (-> & Hex). split; [done|]. split; [by intros e [= <-]|].
    by split.
  - destruct Hloop as (Hkeys & Helem & Hall). split; [|split].
    + intros plan [= <-]. split; [done|]. split; [exact Hkeys|].
      intros entity tm Hin. destruct (Helem _ _ Hin) as [Hnil|?]; [|done].
      by apply elem_of_nil in Hnil.
    + done.
    + split; [done|]. intros (c & Hin & Hnone & Hres).
      destruct (Hall c Hin) as [tm Htm]. unfold config_mapper in Htm.
      rewrite Hnone in Htm. congruence.
Qed.

Lemma select_keeps_config_order_witness :
  ∃ plan,
    select test_env [(None, Book); (Some Authors, 11%nat); (Some Books, Book)] Books_context
    = ok plan
    ∧ (SelectPlan._entity_map plan).*1 = [Book; 11%nat].
Proof.
  destruct (select test_env [(None, Book); (Some Authors, 11%nat); (Some Books, Book)]
              Books_context) as [e|plan] eqn:Hsel; [by vm_compute in Hsel|].
  exists plan. split; [reflexivity|].
  exact (proj1 (proj2 (proj1 (select_keeps_config_order test_env Books_context
           [(None, Book); (Some Authors, 11%nat); (Some Books, Book)]) plan Hsel))).
Defined.

Lemma resolve_mapper_finds_registered_manager_witness :
  resolve_mapper test_env Books_context Book = Some Books
  ∧ is_Some (mappers Books_context !! Books)
  ∧ Book ∈ __managed_set__ (get_meta test_env Books).
Proof.
  assert (resolve_mapper test_env Books_context Book = Some Books) as Hres
    by (vm_compute; reflexivity).
  split; [exact Hres|].
  exact (proj1 (resolve_mapper_finds_registered_manager test_env Books_context Book)
           Books Hres).
Defined.

Lemma entity_columns_returned env ctx table_mapper tb_alias f_names field_s cur_pos
    field_s' cur_pos' :
  SelectPlan.entity_columns env ctx table_mapper tb_alias f_names field_s cur_pos
  = ok (field_s', cur_pos') →
  cur_pos' = (cur_pos + length f_names)%nat
  ∧ length field_s' = (length field_s + length f_names)%nat.
Proof.
  revert field_s cur_pos. induction f_names as [|f_name rest IH]; intros fs pos; simpl.
  { intros [= <- <-]. lia. }
  destruct (get_column _ f_name); [|done].
  intros [-> ->]%IH. rewrite length_app. simpl. lia.
Qed.

Lemma get_entity_info_fields env entity info :
  get_entity_info env entity = ok info → info = class_fields env entity.
Proof.
  unfold get_entity_info. destruct (class_fields env entity); [done|].
  by intros [= <-].
Qed.

Lemma fields_count_cons env entity tm l :
  fields_count env ((entity, tm) :: l)
  = (length (class_fields env entity) + fields_count env l)%nat.
Proof. reflexivity. Qed.

Lemma entities_loop_returned env ctx l field_s cur_pos idx field_s' idx' :
  SelectPlan.entities_loop env ctx l field_s cur_pos idx = (ok field_s', idx') →
  idx' = idx ++ positions env l cur_pos
  ∧ length field_s' = (length field_s + fields_count env l)%nat.
Proof.
  revert field_s cur_pos idx. unfold ok, raise.
  induction l as [|[entity tm] l IH]; intros fs pos idx;
    cbn [SelectPlan.entities_loop positions].
  { intros [= <- <-]. rewrite app_nil_r. split; [done|].
    unfold fields_count. simpl. lia. }
  destruct (get_entity_info env entity) as [e|info] eqn:Hinfo; cbn beta iota; [done|].
  apply get_entity_info_fields in Hinfo as ->.
  destruct (mappers_getitem ctx (Some tm)) as [e|tb_alias]; cbn beta iota; [done|].
  destruct (SelectPlan.entity_columns _ _ _ _ _ _ _) as [e|[fs1 pos1]] eqn:Hcols;
    cbn beta iota; [done|].
  apply entity_columns_returned in Hcols as [-> Hlen].
  intros [-> Hl]%IH. split; [by rewrite <- app_assoc|].
  rewrite Hl, Hlen, fields_count_cons. lia.
Qed.

Lemma positions_lookup env l start k :
  positions env l start !! k
  = (λ p : Entity * TableMapper, ((start + fields_count env (take (S k) l))%nat, p.1))
      <$> l !! k.
Proof.
  revert start k. induction l as [|[entity tm] l IH]; intros start k; [done|].
  destruct k as [|k]; cbn [positions lookup list_lookup fmap option_fmap option_map take fst].
  { rewrite take_0, fields_count_cons. unfold fields_count. simpl.
    by rewrite Nat.add_0_r. }
  rewrite IH. destruct (l !! k) as [[e' tm']|]; [|done]. simpl.
  rewrite fields_count_cons. do 2 f_equal. lia.
Qed.

(** X23. When [_get_sql_args] has built the statement, the plan records one
    position per entity of the select, in order: the number of fields of the
    entities up to and including that one. The statement is [SELECT], the
    selected columns joined by commas — as many as the last position —,
    [FROM] and the joins of the context, then the optional clauses; its
    arguments are those of the WHERE expression of the context. The plan
    keeps statement and arguments: a later call that does not ask to rebuild
    returns them as they are, also after [limit] or [order_by]. *)
Theorem select_statement_is_built_once (env : ClassEnv) (self : SelectPlan.t)
    (sql : string) (args : list value) (p : SelectPlan.t) :
  SelectPlan._get_sql_args env true self = (ok (sql, args), p) →
  (∃ idx, SelectPlan._result_field_pos_idx p = Some idx
          ∧ ∀ k, idx !! k
                 = (λ c : Entity * TableMapper,
                      (fields_count env (take (S k) (SelectPlan._entity_map self)), c.1))
                     <$> SelectPlan._entity_map self !! k)
  ∧ (∃ field_s joins_sql clauses,
       sql = join " " ("SELECT" :: join "," field_s :: "FROM" :: joins_sql :: clauses)
       ∧ length field_s = fields_count env (SelectPlan._entity_map self)
       ∧ get_joins_sql env (SelectPlan._ctx self) = ok joins_sql)
  ∧ (∃ where_s, where_sql (SelectPlan._ctx self) = ok (where_s, args))
  ∧ SelectPlan._get_sql_args env false p = (ok (sql, args), p)
  ∧ (∀ begin end_,
       SelectPlan._get_sql_args env false (SelectPlan.limit begin end_ p)
       = (ok (sql, args), SelectPlan.limit begin end_ p))
  ∧ (∀ order_pairs,
       SelectPlan._get_sql_args env false (SelectPlan.order_by order_pairs p)
       = (ok (sql, args), SelectPlan.order_by order_pairs p)).
Proof.
  unfold SelectPlan._get_sql_args at 1.
  destruct (SelectPlan._sql self) as [sql0|] eqn:Hsql0; cbn beta iota;
    (destruct (SelectPlan.entities_loop _ _ _ _ _ _) as [[e|field_s] idx] eqn:Hloop;
       [done|];
     apply entities_loop_returned in Hloop as [-> Hlen]; simpl in Hlen;
     cbn [SelectPlan.set_idx SelectPlan._ctx SelectPlan._orders SelectPlan._t_limit
          SelectPlan._result_field_pos_idx SelectPlan._sql SelectPlan._args
          SelectPlan._entity_map];
     destruct (get_joins_sql env (SelectPlan._ctx self)) as [e|joins_sql] eqn:Hjoins;
       [done|];
     destruct (where_sql (SelectPlan._ctx self)) as [e|[where_s wargs]] eqn:Hwhere;
       [done|];
     destruct (SelectPlan._order_sql _) as [e|order_by]; [done|];
     intros [= <- <- <-];
     split;
       [eexists; split; [reflexivity|]; intros k; simpl; by rewrite positions_lookup|];
     split;
       [exists field_s, joins_sql;
        destruct where_s as [s|]; [destruct (bool_decide (s = ""))|];
          eexists; (split; [|by split]); cbn [app]; reflexivity|];
     split; [by exists where_s|];
     split; [done|];
     split; done).
Qed.

Lemma select_statement_is_built_once_witness :
  let plan := SelectPlan.__init__ (ExecContext_where and_expr Books_context)
                [(Book, Books)] in
  let built := SelectPlan._get_sql_args test_env true plan in
  built.1 = ok ("SELECT `t1`.`id`,`t1`.`name` FROM `t_book` AS `t1` WHERE `t1`.`id` > %s AND (`t1`.`id` < %s)",
                [VInt 0; VInt 8])
  ∧ SelectPlan._result_field_pos_idx built.2 = Some [(2%nat, Book)]
  ∧ SelectPlan._get_sql_args test_env false (SelectPlan.limit 0 10 built.2)
    = (built.1, SelectPlan.limit 0 10 built.2).
Proof.
  intros plan built.
  assert (built = (ok ("SELECT `t1`.`id`,`t1`.`name` FROM `t_book` AS `t1` WHERE `t1`.`id` > %s AND (`t1`.`id` < %s)",
                       [VInt 0; VInt 8]), built.2)) as Hbuilt
    by (vm_compute; reflexivity).
  destruct (select_statement_is_built_once test_env plan _ _ built.2 Hbuilt)
    as ((idx & Hidx & Hpos) & _ & _ & _ & Hlimit & _).
  split; [by rewrite Hbuilt|]. split.
  - rewrite Hidx. f_equal. apply list_eq. intros k. rewrite Hpos.
    by destruct k as [|[|k]].
  - rewrite Hbuilt at 2. apply Hlimit.
Defined.

(** ** Rows *)

Lemma list_to_map_reverse_last (z : list (string * value)) i k v :
  z !! i = Some (k, v) →
  (∀ j v', (i < j)%nat → z !! j ≠ Some (k, v')) →
  (list_to_map (reverse z) : gmap string value) !! k = Some v.
Proof.
  revert i. induction z as [|[k0 v0] z IH] using rev_ind; intros i Hi Hlast.
  { by rewrite lookup_nil in Hi. }
  rewrite reverse_snoc. cbn [list_to_map foldr fst snd].
  destruct (decide (i < length z)%nat) as [Hlt|Hge].
  - rewrite lookup_app_l in Hi by done.
    assert (k0 ≠ k) as Hne.
    { intros ->. apply (Hlast (length z) v0 Hlt).
      rewrite lookup_app_r by lia. by rewrite Nat.sub_diag. }
    rewrite lookup_insert_ne by done. apply (IH i Hi).
    intros j v' Hj Hz. apply (Hlast j v' Hj).
    rewrite lookup_app_l; [done|]. by eapply lookup_lt_Some.
  - rewrite lookup_app_r in Hi by lia.
    destruct (i - length z)%nat; [|done]. injection Hi as -> ->.
    by rewrite lookup_insert_eq.
Qed.

(** X24. A [Row] answers an attribute with the value of the last column of
    that name that has a value in the data tuple; every answer is the value
    at the place of a column of that name; and a name that is not among the
    columns which have a value is an [AttributeError]. *)
Theorem row_attribute_is_last_column (r : Row) (name : string) :
  (∀ i v, __col_names__ r !! i = Some name → __data__ r !! i = Some v →
          (∀ j, (i < j)%nat → (j < length (__data__ r))%nat →
                __col_names__ r !! j ≠ Some name) →
          Row___getattr__ r name = ok v)
  ∧ (∀ v, Row___getattr__ r name = ok v →
          ∃ i, __col_names__ r !! i = Some name ∧ __data__ r !! i = Some v)
  ∧ ((∀ i, (i < length (__data__ r))%nat → __col_names__ r !! i ≠ Some name) ↔
     Row___getattr__ r name = raise AttributeError).
Proof.
  unfold Row___getattr__, Row_dict.
  set (z := zip (__col_names__ r) (__data__ r)).
  assert (∀ i k v, z !! i = Some (k, v)
                   ↔ __col_names__ r !! i = Some k ∧ __data__ r !! i = Some v) as Hz.
  { intros i k v. unfold z.
    rewrite lookup_zip_with_Some. split.
    - by intros (x & y & [= -> ->] & ? & ?).
    - intros [? ?]. by exists k, v. }
  split; [|split].
  - intros i v Hn Hd Hlast.
    rewrite (list_to_map_reverse_last z i name v); [done|by apply Hz|].
    intros j v' Hj [Hn' Hd']%Hz. apply (Hlast j Hj); [|done].
    by eapply lookup_lt_Some.
  - intros v. destruct (list_to_map (reverse z) !! name) as [v0|] eqn:Hl; [|done].
    intros [= <-]. apply elem_of_list_to_map_2 in Hl.
    rewrite elem_of_reverse in Hl. apply list_elem_of_lookup in Hl as [i Hi].
    exists i. by apply Hz.
  - split.
    + intros Hnone.
      destruct (list_to_map (reverse z) !! name) as [v0|] eqn:Hl; [|done].
      exfalso. apply elem_of_list_to_map_2 in Hl.
      rewrite elem_of_reverse in Hl. apply list_elem_of_lookup in Hl as [i Hi].
      apply Hz in Hi as [Hn Hd]. apply (Hnone i); [|done]. by eapply lookup_lt_Some.
    + destruct (list_to_map (reverse z) !! name) as [v0|] eqn:Hl; [done|].
      intros _ i Hi Hn.
      destruct (lookup_lt_is_Some_2 (__data__ r) i Hi) as [v Hd].
      apply not_elem_of_list_to_map in Hl. apply Hl.
      apply list_elem_of_fmap. exists (name, v). split; [done|].
      rewrite elem_of_reverse. apply list_elem_of_lookup. exists i. by apply Hz.
Qed.

Lemma row_attribute_is_last_column_witness :
  let r := {| __col_names__ := ["id"; "name"; "id"; "extra"];
              __data__ := [VInt 1; VStr "Python"; VInt 2] |} in
  Row___getattr__ r "id" = ok (VInt 2)
  ∧ Row___getattr__ r "extra" = raise AttributeError.
Proof.
  intros r. split.
  - apply (proj1 (row_attribute_is_last_column r "id") 2%nat (VInt 2) eq_refl eq_refl).
    intros j Hj Hlt. simpl in Hlt. lia.
  - apply (proj1 (proj2 (proj2 (row_attribute_is_last_column r "extra")))).
    intros i Hi. simpl in Hi. destruct i as [|[|[|i]]]; [done..|lia].
Defined.

(** ** How a manager gets its fields *)

Lemma TrackingBase___new___snoc fields bases c :
  TrackingBase___new__ fields (bases ++ [c])
  = match c with
    | Some other_holder =>
        merge_fields (_fields other_holder) (TrackingBase___new__ fields bases)
    | None => TrackingBase___new__ fields bases
    end.
Proof. unfold TrackingBase___new__. by rewrite foldl_app. Qed.

Lemma base_field_app_l bases c k name :
  (k < length bases)%nat → base_field (bases ++ [c]) k name = base_field bases k name.
Proof. intros Hk. unfold base_field. by rewrite lookup_app_l. Qed.

Lemma base_field_last bases c name :
  base_field (bases ++ [c]) (length bases) name = c ≫= λ o, _fields o !! name.
Proof.
  unfold base_field. rewrite lookup_app_r by lia. by rewrite Nat.sub_diag.
Qed.

(** X25. The manager that [TrackingBase.__new__] gives a class starts
    without holders. Its fields are those of the class and of its tracked
    bases; for a name that several of them declare the last base that has
    it wins, also over the declaration of the class itself — so a field a
    class declares again is watched or not as the base declared it — and a
    name no base has is taken from the class. *)
Theorem inherited_field_wins (fields : gmap string Field)
    (bases : list (option TrackingManager)) (name : string) :
  _holders (TrackingBase___new__ fields bases) = ∅
  ∧ (∀ k f, base_field bases k name = Some f →
            (∀ j, (k < j)%nat → base_field bases j name = None) →
            _fields (TrackingBase___new__ fields bases) !! name = Some f)
  ∧ ((∀ k, base_field bases k name = None) →
     _fields (TrackingBase___new__ fields bases) !! name = fields !! name).
Proof.
  induction bases as [|c bases IH] using rev_ind.
  { split; [done|]. split; [|done]. intros k f Hk. unfold base_field in Hk.
    by rewrite lookup_nil in Hk. }
  destruct IH as (Hholders & Hlast & Hnone).
  rewrite TrackingBase___new___snoc.
  assert (∀ k, (length bases < k)%nat → base_field (bases ++ [c]) k name = None) as Hout.
  { intros k Hk. unfold base_field. rewrite lookup_ge_None_2; [done|].
    rewrite length_app. simpl. lia. }
  split; [by destruct c|]. split.
  - intros k f Hk Hlater.
    destruct (decide (k < length bases)%nat) as [Hlt|Hge].
    + rewrite base_field_app_l in Hk by done.
      pose proof (Hlater (length bases) Hlt) as Hc. rewrite base_field_last in Hc.
      assert (_fields (TrackingBase___new__ fields bases) !! name = Some f) as Hprev.
      { apply (Hlast k f Hk). intros j Hj.
        destruct (decide (j < length bases)%nat) as [Hjl|Hjg].
        - rewrite <- (base_field_app_l bases c j name Hjl). by apply Hlater.
        - unfold base_field. rewrite lookup_ge_None_2; [done|lia]. }
      destruct c as [other|]; [|done]. simpl in Hc. cbn [merge_fields _fields].
      rewrite lookup_union_r; done.
    + destruct (decide (k = length bases)) as [->|Hne].
      2:{ rewrite Hout in Hk by lia. done. }
      rewrite base_field_last in Hk. destruct c as [other|]; [|done]. simpl in Hk.
      cbn [merge_fields _fields]. by apply lookup_union_Some_l.
  - intros Hall.
    pose proof (Hall (length bases)) as Hc. rewrite base_field_last in Hc.
    assert (_fields (TrackingBase___new__ fields bases) !! name = fields !! name) as Hprev.
    { apply Hnone. intros k.
      destruct (decide (k < length bases)%nat) as [Hlt|Hge].
      - rewrite <- (base_field_app_l bases c k name Hlt). apply Hall.
      - unfold base_field. rewrite lookup_ge_None_2; [done|lia]. }
    destruct c as [other|]; [|done]. simpl in Hc. cbn [merge_fields _fields].
    rewrite lookup_union_r; done.
Qed.

Lemma inherited_field_wins_witness :
  let parent := TrackingManager___init__ {[ "name" := {| alias := None; unwatch := false |} ]} in
  _fields (TrackingBase___new__ {[ "name" := {| alias := None; unwatch := true |} ]}
             [None; Some parent]) !! "name"
  = Some {| alias := None; unwatch := false |}.
Proof.
  intros parent.
  apply (proj1 (proj2 (inherited_field_wins _ [None; Some parent] "name")) 1%nat).
  - reflexivity.
  - intros j Hj. unfold base_field. rewrite lookup_ge_None_2; [done|simpl; lia].
Defined.

Lemma convert_fields names (acc : gmap string Field) name :
  foldl (λ fields name0, <[name0 := {| alias := None; unwatch := false |}]> fields)
        acc names !! name
  = if decide (name ∈ names) then Some {| alias := None; unwatch := false |}
    else acc !! name.
Proof.
  revert acc. induction names as [|n names IH]; intros acc.
  { simpl. destruct (decide (name ∈ [])) as [Hin|_]; [|done]. by apply elem_of_nil in Hin. }
  cbn [foldl]. rewrite IH.
  destruct (decide (name ∈ names)) as [Hin|Hnotin].
  - rewrite decide_True; [done|]. by right.
  - destruct (decide (name = n)) as [->|Hne].
    + rewrite decide_True by (by left). by rewrite lookup_insert_eq.
    + rewrite decide_False; [by rewrite lookup_insert_ne|].
      intros [?|?]%elem_of_cons; done.
Qed.

(** X26. On a class converted by [convert_to_tracking_class], writing a
    listed name through its holder stores the value, marks the name dirty
    and is read back by [get]; a name that is not listed is refused with
    [ValueError]; and the new manager has no holders. *)
Theorem converted_class_watches_listed_names (names : list string) (name : string)
    (v : value) (h : TrackingHolder) :
  let manager := convert_to_tracking_class names in
  _holders manager = ∅
  ∧ (name ∈ names →
     ∃ h', update (_fields manager) name v h = ok h'
           ∧ _dirty h' = {[name]} ∪ _dirty h
           ∧ TrackingHolder_get name h' = v)
  ∧ (name ∉ names → update (_fields manager) name v h = raise ValueError).
Proof.
  intros manager. split; [done|].
  unfold update, manager, convert_to_tracking_class, TrackingManager___init__.
  cbn [_fields]. rewrite convert_fields. split; intros Hin.
  - rewrite decide_True by done. eexists. split; [reflexivity|].
    cbn [_dirty unwatch]. split; [done|].
    unfold TrackingHolder_get. cbn [_values_map]. by rewrite lookup_insert_eq.
  - rewrite decide_False by done. by rewrite lookup_empty.
Qed.

Lemma converted_class_watches_listed_names_witness :
  ∃ h', update (_fields (convert_to_tracking_class ["id"; "name"])) "name"
               (VStr "Golang") TrackingHolder___init__ = ok h'
        ∧ _dirty h' = {[ "name" ]} ∪ ∅
        ∧ TrackingHolder_get "name" h' = VStr "Golang".
Proof.
  apply (proj1 (proj2 (converted_class_watches_listed_names ["id"; "name"] "name"
                         (VStr "Golang") TrackingHolder___init__))).
  apply list_elem_of_In. simpl. auto.
Defined.
